(** * Permutation- and mixture-invariant loss wrapper

    A shallow embedding of [asteroid/losses/pit_wrapper.py] (classes
    [PITLossWrapper] and [PITReorder]) and the properties of its
    assignment and partition searches.

    Conventions of the embedding.
    - The values of a tensor are rationals ([Q]).  What the tensor
      library computes from them in floating point (the contraction of
      [einsum], a quotient, [torch.mean], [torch.sum]) is a parameter,
      the [backend], and so is the content of memory that [new_empty]
      hands out.  What is proved for every backend holds whatever the
      rounding; what needs exact arithmetic says on which values.  Two
      losses agree when they are [Qeq]-equal.
    - A tensor of shape [batch, n_src, time] is a list of batch rows,
      each a list of sources, each a list of samples.  A dimension is
      read off the first element along it and is 0 when there is none,
      so that a tensor without a batch row has no further dimensions.
      [torch.stack] of a list of rows is that list, and is refused for
      an empty list and for rows of different sizes.
    - [raise] and [assert] of the source are results [Raise e]; the
      calls the wrapper makes to its collaborators (the loss callback,
      the reduction callback, the assignment solver) are recorded in a
      trace, so that "before any evaluation" is a statement on traces.
    - Keyword arguments passed through to the callbacks ([**kwargs],
      [reduce_kwargs]) are part of the callbacks.
    - [itertools.combinations], [itertools.permutations], [torch.min]
      and the other library routines are written out after their
      documentation; [scipy.optimize.linear_sum_assignment] is a
      parameter.
    - The searches are modelled as the static methods they are declared
      to be; the stray, misindented [@staticmethod] line in front of
      [best_part_mix_it] has no counterpart here. *)

From Stdlib Require Import String Ascii DecimalString.
From Stdlib Require Import ZArith QArith Qround Qabs.
From Stdlib Require Import List Arith Lia Lqa Bool Permutation.
Import ListNotations.

Local Open Scope nat_scope.

(* ================================================================= *)
(** ** Python's iteration tools *)

Module Itertools.

(** [range(n)] *)
Definition range (n : nat) : list nat := seq 0 n.

(** [itertools.combinations(pool, r)]: the [r]-length subsequences of
    [pool], in lexicographic order of the positions. *)
Fixpoint combinations {A : Type} (pool : list A) (r : nat) : list (list A) :=
  match pool with
  | [] => match r with 0 => [[]] | S _ => [] end
  | x :: xs =>
      match r with
      | 0 => [[]]
      | S r' => map (cons x) (combinations xs r') ++ combinations xs r
      end
  end.

(** Every way to take one element out of a list, leftmost first. *)
Fixpoint selections {A : Type} (l : list A) : list (A * list A) :=
  match l with
  | [] => []
  | x :: xs => (x, xs) :: map (fun p => (fst p, x :: snd p)) (selections xs)
  end.

Fixpoint permutations_upto {A : Type} (len : nat) (pool : list A)
  : list (list A) :=
  match len with
  | 0 => [[]]
  | S len' =>
      flat_map (fun p => map (cons (fst p)) (permutations_upto len' (snd p)))
               (selections pool)
  end.

(** [itertools.permutations(pool)]: all orderings of [pool], in
    lexicographic order of the positions. *)
Definition permutations {A : Type} (pool : list A) : list (list A) :=
  permutations_upto (length pool) pool.

(** [x in c] on a list of indices *)
Definition mem (x : nat) (c : list nat) : bool := existsb (Nat.eqb x) c.

(** [[x for x in lst if x not in c]] *)
Definition rest_of (lst c : list nat) : list nat :=
  filter (fun x => negb (mem x c)) lst.

End Itertools.
Import Itertools.

(* ================================================================= *)
(** ** Partition enumeration of the MixIT searches *)

(** The local generator [combs] of [best_part_mix_it]: distribute the
    items of [lst] over [l] parts of size [k]. *)
Fixpoint combs (lst : list nat) (k l : nat) : list (list (list nat)) :=
  match l with
  | 0 => [[]]
  | S l' =>
      flat_map (fun c => map (cons c) (combs (rest_of lst c) k l'))
               (combinations lst k)
  end.

(** The local function [all_combinations] of
    [best_part_mix_it_generalized]. *)
Definition all_combinations (lst : list nat) : list (list (list nat)) :=
  flat_map (fun k => map (fun c => [c; rest_of lst c]) (combinations lst k))
           (range (length lst + 1)).

(** Counting functions used to state the sizes of the enumerations. *)
Fixpoint binom (n k : nat) : nat :=
  match n, k with
  | _, 0 => 1
  | 0, S _ => 0
  | S n', S k' => binom n' k' + binom n' k
  end.

(** Number of lists produced by [combs] on [n] distinct items. *)
Fixpoint combs_count (n k l : nat) : nat :=
  match l with
  | 0 => 1
  | S l' => binom n k * combs_count (n - k) k l'
  end.

(** [binom n 0 + ... + binom n (m - 1)] *)
Fixpoint sum_binom (n m : nat) : nat :=
  match m with
  | 0 => 0
  | S m' => sum_binom n m' + binom n m'
  end.

(** A partition seen as unordered groups: its groups sorted by their
    first index (the groups are sorted and pairwise disjoint). *)
Fixpoint insert_group (g : list nat) (p : list (list nat)) : list (list nat) :=
  match p with
  | [] => [g]
  | h :: t => if hd 0 g <=? hd 0 h then g :: p else h :: insert_group g t
  end.

Definition unordered (p : list (list nat)) : list (list nat) :=
  fold_right insert_group [] p.

Definition partition_eq_dec : forall p q : list (list nat), {p = q} + {p <> q} :=
  list_eq_dec (list_eq_dec Nat.eq_dec).

(* ================================================================= *)
(** ** Exceptions, results and the trace of collaborator calls *)

Inductive exn : Type :=
| ValueError (msg : string)
| AssertionError (msg : option string)
| ZeroDivisionError
| IndexError
| TypeError
| RuntimeError.

Inductive result (A : Type) : Type :=
| Ok (a : A)
| Raise (e : exn).
Arguments Ok {A} a.
Arguments Raise {A} e.

(** One entry per call to a collaborator of the wrapper. *)
Inductive event : Type :=
| LossCall      (* the elementary loss callback [loss_func] *)
| ReduceCall    (* the reduction callback [perm_reduce] *)
| SolverCall.   (* [scipy.optimize.linear_sum_assignment] *)

Definition trace : Type := list event.

(** Computations that may raise and that record their calls. *)
Definition M (A : Type) : Type := trace -> trace * result A.

Definition ret {A} (a : A) : M A := fun t => (t, Ok a).

Definition raise {A} (e : exn) : M A := fun t => (t, Raise e).

Definition bind {A B} (m : M A) (f : A -> M B) : M B :=
  fun t =>
    match m t with
    | (t', Ok a) => f a t'
    | (t', Raise e) => (t', Raise e)
    end.

Definition emit (ev : event) : M unit := fun t => (t ++ [ev], Ok tt).

Definition lift {A} (r : result A) : M A := fun t => (t, r).

Notation "x <- c1 ;; c2" := (bind c1 (fun x => c2))
  (at level 61, c1 at next level, right associativity).
Notation "c1 ;; c2" := (bind c1 (fun _ => c2))
  (at level 61, right associativity).

(** [assert cond, msg] *)
Definition py_assert (cond : bool) (msg : option string) : M unit :=
  if cond then ret tt else raise (AssertionError msg).

Fixpoint mapM {A B} (f : A -> M B) (l : list A) : M (list B) :=
  match l with
  | [] => ret []
  | x :: xs => y <- f x ;; ys <- mapM f xs ;; ret (y :: ys)
  end.

Definition bindR {A B} (r : result A) (f : A -> result B) : result B :=
  match r with
  | Ok a => f a
  | Raise e => Raise e
  end.

Fixpoint mapR {A B} (f : A -> result B) (l : list A) : result (list B) :=
  match l with
  | [] => Ok []
  | x :: xs => bindR (f x) (fun y => bindR (mapR f xs) (fun ys => Ok (y :: ys)))
  end.

(** [seq[i]] for an index that must be in range *)
Definition get {A} (l : list A) (i : nat) : result A :=
  match nth_error l i with
  | Some x => Ok x
  | None => Raise IndexError
  end.

(* ================================================================= *)
(** ** Arrays *)

Definition vector : Type := list Q.
Definition matrix : Type := list (list Q).
Definition tensor3 : Type := list (list (list Q)).

(** What a loss callback receives and returns: an array of rank 0 to 3. *)
Inductive array : Type :=
| A0 (x : Q)
| A1 (v : vector)
| A2 (m : matrix)
| A3 (t : tensor3).

Definition ndim (a : array) : nat :=
  match a with A0 _ => 0 | A1 _ => 1 | A2 _ => 2 | A3 _ => 3 end.

(** [t.shape[0]], [t.shape[1]], [t.shape[2]] of a rank-3 tensor *)
Definition shape0 {A} (t : list (list (list A))) : nat := length t.
Definition shape1 {A} (t : list (list (list A))) : nat := length (hd [] t).
Definition shape2 {A} (t : list (list (list A))) : nat :=
  length (hd [] (hd [] t)).

Definition of_nat (n : nat) : Q := inject_Z (Z.of_nat n).

(** The sum and the mean of a list of values, without rounding. *)
Definition sumQ (l : list Q) : Q := fold_right Qplus 0%Q l.

Definition mean (l : list Q) : Q := (sumQ l / of_nat (length l))%Q.

Definition dot (u v : vector) : Q :=
  sumQ (map (fun p => (fst p * snd p)%Q) (combine u v)).

(** The sum of the entrywise products of two matrices of one shape,
    without rounding. *)
Definition exact_contract (x y : matrix) : Q :=
  sumQ (map (fun r => dot (fst r) (snd r)) (combine x y)).

(** What the tensor library computes in floating point, and what it
    leaves unspecified.  The result of a sum, a quotient or a mean of
    floating-point values depends on the precision and on the order in
    which the kernel adds; the entries of a tensor made by [new_empty]
    are whatever the memory holds. *)
Record backend : Type := {
  (* the contraction of [einsum] over the two axes of a pair of matrices *)
  contract : matrix -> matrix -> Q;
  (* [x / y] *)
  divide : Q -> Q -> Q;
  (* [torch.mean] of the listed values *)
  tensor_mean : list Q -> Q;
  (* [torch.sum] of the listed values *)
  tensor_sum : list Q -> Q;
  (* entry [[b, i, j]] of a tensor that [new_empty] returns *)
  fresh : nat -> nat -> nat -> Q
}.

(** The backend that rounds nothing and hands out zeroed memory. *)
Definition exact_backend : backend :=
  {| contract := exact_contract;
     divide := Qdiv;
     tensor_mean := mean;
     tensor_sum := sumQ;
     fresh := fun _ _ _ => 0%Q |}.

(** Swap the two axes of a list of rows with [n] columns. *)
Definition transpose {A} (d : A) (n : nat) (m : list (list A)) : list (list A) :=
  map (fun j => map (fun row => nth j row d) m) (range n).

(** [torch.index_select(s, 0, b)] and the indexing [s[b]] by a list of
    indices: the entries of [s] at the positions [b], in that order. *)
Definition index_select {A} (s : list A) (b : list nat) : result (list A) :=
  mapR (get s) b.

(** [torch.stack(rows)] along a new leading axis: the list of rows, when
    there is at least one row and the rows have one size. *)
Definition stack_rows {A} (rows : list (list A)) : result (list (list A)) :=
  match rows with
  | [] => Raise RuntimeError
  | r :: _ =>
      if forallb (fun r' => length r' =? length r) rows
      then Ok rows
      else Raise RuntimeError
  end.

(** [torch.min] along a row: the least value and the position of its
    first occurrence. *)
Fixpoint min_scan (best : Q) (best_i i : nat) (l : list Q) : Q * nat :=
  match l with
  | [] => (best, best_i)
  | x :: xs =>
      match (x ?= best)%Q with
      | Lt => min_scan x i (S i) xs
      | _ => min_scan best best_i (S i) xs
      end
  end.

Definition torch_min (row : list Q) : result (Q * nat) :=
  match row with
  | [] => Raise RuntimeError
  | x :: xs => Ok (min_scan x 0 1 xs)
  end.

(** A callback result used as a vector of [batch] losses. *)
Definition as_vector (a : array) : result vector :=
  match a with
  | A1 v => Ok v
  | _ => Raise RuntimeError
  end.

(** [torch.stack(columns, dim=1)] and [torch.cat] of column vectors:
    [batch] rows, one entry per column. *)
Definition stack_columns (columns : list vector) : result matrix :=
  match columns with
  | [] => Raise RuntimeError
  | c :: _ =>
      if forallb (fun c' => length c' =? length c) columns
      then Ok (transpose 0%Q (length c) columns)
      else Raise RuntimeError
  end.

(** [torch.sum(x, axis=1)] of a list of sources with [t] samples each:
    sample by sample, the sum over the sources. *)
Definition sum_sources (bk : backend) (t : nat) (srcs : list vector) : vector :=
  map (fun j => tensor_sum bk (map (fun s => nth j s 0%Q) srcs)) (range t).

(* ================================================================= *)
(** ** The wrapper: class [PITLossWrapper] *)

Record PITLossWrapper : Type := {
  loss_func : array -> array -> array;
  pit_from : string;
  perm_reduce : option (tensor3 -> matrix)
}.

Definition supported_modes : list string :=
  ["pw_mtx"; "pw_pt"; "perm_avg"; "mix_it"; "mix_it_gen"]%string.

Definition unsupported_msg : string :=
  "Unsupported loss function type for now. Expectedone of [`pw_mtx`, `pw_pt`, `perm_avg`, `mix_it`, `mix_it_gen`]".

(** [__init__(self, loss_func, pit_from, perm_reduce)] *)
Definition init (loss_func : array -> array -> array) (pit_from : string)
    (perm_reduce : option (tensor3 -> matrix)) : M PITLossWrapper :=
  let self := {| loss_func := loss_func; pit_from := pit_from;
                 perm_reduce := perm_reduce |} in
  if negb (existsb (String.eqb pit_from) supported_modes)
  then raise (ValueError unsupported_msg)
  else ret self.

(** What [forward] hands back to its caller. *)
Inductive forward_result : Type :=
| Loss (mean_loss : Q)                            (* [return mean_loss] *)
| LossAndEst (mean_loss : Q) (reordered : tensor3) (* [return mean_loss, reordered] *)
| NoValue.                                         (* bare [return] *)

Definition call_loss (f : array -> array -> array) (x y : array) : M array :=
  emit LossCall ;; ret (f x y).

Definition enumerate {A} (l : list A) : list (nat * A) :=
  combine (range (length l)) l.

(** A vector assigned to a slice of [batch_size] entries: a single
    value is broadcast, any other vector must have one value per entry. *)
Definition fit_batch (batch_size : nat) (v : vector) : result vector :=
  match v with
  | [x] => Ok (repeat x batch_size)
  | _ => if length v =? batch_size then Ok v else Raise RuntimeError
  end.

(** The right-hand side of [pair_wise_losses[:, i, j] = ...]: the
    assignment drops the leading axes of size one of the value, fills
    the slice with a value of rank 0 and fits a vector to it. *)
Definition as_batch_vector (batch_size : nat) (a : array) : result vector :=
  match a with
  | A0 x => Ok (repeat x batch_size)
  | A1 v => fit_batch batch_size v
  | A2 [v] => fit_batch batch_size v
  | A3 [[v]] => fit_batch batch_size v
  | _ => Raise RuntimeError
  end.

(** [get_pw_losses(loss_func, est_targets, targets)]: the entries that
    the loops never write keep what [new_empty] put there. *)
Definition get_pw_losses (bk : backend) (loss_func : array -> array -> array)
    (est_targets targets : tensor3) : M tensor3 :=
  let batch_size := shape0 targets in
  let n_src := shape1 targets in
  let est_srcs := transpose [] (shape1 est_targets) est_targets in
  let target_srcs := transpose [] n_src targets in
  written <-
    mapM (fun est =>
      mapM (fun target =>
        l <- call_loss loss_func (A2 (snd est)) (A2 (snd target)) ;;
        (if fst est <? n_src then ret tt else raise IndexError) ;;
        lift (as_batch_vector batch_size l))
      (enumerate target_srcs))
    (enumerate est_srcs) ;;
  ret (map (fun b =>
         map (fun est_idx =>
           map (fun target_idx =>
                  match nth_error written est_idx with
                  | Some row => nth b (nth target_idx row []) 0%Q
                  | None => fresh bk b est_idx target_idx
                  end)
               (range n_src))
           (range n_src))
         (range batch_size)).

(** The tail shared by the searches that enumerate candidates: the
    least loss of every batch row with the position of its first
    occurrence. *)
Definition row_minima (loss_set : matrix) : result (list (Q * nat)) :=
  mapR torch_min loss_set.

(** [torch.stack([perms[m] for m in min_loss_idx], dim=0)] *)
Definition selected_perms (perms : list (list nat)) (mins : list (Q * nat))
  : result (list (list nat)) :=
  bindR (mapR (fun m => get perms (snd m)) mins) stack_rows.

(** [best_perm_from_perm_avg_loss(loss_func, est_targets, targets)] *)
Definition best_perm_from_perm_avg_loss (loss_func : array -> array -> array)
    (est_targets targets : tensor3) : M (vector * list (list nat)) :=
  let n_src := shape1 targets in
  let perms := permutations (range n_src) in
  losses <-
    mapM (fun perm =>
      permuted <- lift (mapR (fun row => index_select row perm) est_targets) ;;
      call_loss loss_func (A3 permuted) (A3 targets))
    perms ;;
  columns <- lift (mapR as_vector losses) ;;
  loss_set <- lift (stack_columns columns) ;;
  mins <- lift (row_minima loss_set) ;;
  batch_indices <- lift (selected_perms perms mins) ;;
  ret (map fst mins, batch_indices).

(** [torch.stack([torch.sum(row[indexes, :], axis=0) for indexes in
    partition])]: the sources of one batch row summed group by group. *)
Definition mix_row (bk : backend) (t : nat) (row : list vector)
    (partition : list (list nat)) : result (list vector) :=
  mapR (fun indexes =>
          bindR (index_select row indexes)
                (fun srcs => Ok (sum_sources bk t srcs)))
       partition.

(** [est_mixes] of a partition, for the whole batch *)
Definition mix (bk : backend) (est_targets : tensor3) (partition : list (list nat))
  : result tensor3 :=
  mapR (fun row => mix_row bk (shape2 est_targets) row partition) est_targets.

(** The loop over [parts], the selection of the minimum and the
    reconstruction, as written in both partition searches; [checks] are
    the assertions made on every partition. *)
Definition best_of_partitions (bk : backend) (loss_func : array -> array -> array)
    (est_targets targets : tensor3) (parts : list (list (list nat)))
    (checks : list (list nat) -> M unit) : M (matrix * tensor3) :=
  evals <-
    mapM (fun partition =>
      checks partition ;;
      est_mixes <- lift (mix bk est_targets partition) ;;
      l <- call_loss loss_func (A3 est_mixes) (A3 targets) ;;
      column <- lift (as_vector l) ;;
      ret (est_mixes, column))
    parts ;;
  loss_set <- lift (stack_columns (map snd evals)) ;;
  mins <- lift (row_minima loss_set) ;;
  let est_mixes := fst (last evals ([], [])) in
  py_assert (length mins =? shape0 est_mixes) None ;;
  ordered <-
    lift (mapR (fun b =>
            bindR (get parts (snd (snd b))) (fun right_partition =>
              mix_row bk (shape2 est_targets) (fst b) right_partition))
          (combine est_targets mins)) ;;
  ret (map (fun m => [fst m]) mins, ordered).

(** [n_est % n_mixtures] *)
Definition py_mod (a b : nat) : M nat :=
  if b =? 0 then raise ZeroDivisionError else ret (a mod b).

(** [best_part_mix_it(loss_func, est_targets, targets)] *)
Definition best_part_mix_it (bk : backend) (loss_func : array -> array -> array)
    (est_targets targets : tensor3) : M (matrix * tensor3) :=
  py_assert (shape0 est_targets =? shape0 targets) None ;;
  py_assert (shape2 est_targets =? shape2 targets) None ;;
  let n_mixtures := shape1 targets in
  let n_est := shape1 est_targets in
  r <- py_mod n_est n_mixtures ;;
  if negb (r =? 0)
  then raise (ValueError
         "The mixtures are assumed to contain the same number of sources")
  else
    let n_src := n_est / n_mixtures in
    let parts := combs (range n_est) n_src n_mixtures in
    best_of_partitions bk loss_func est_targets targets parts
      (fun partition =>
         first <- lift (get partition 0) ;;
         py_assert (length first =? n_src) None ;;
         py_assert (length partition =? n_mixtures) None).

(** [best_part_mix_it_generalized(loss_func, est_targets, targets)] *)
Definition best_part_mix_it_generalized (bk : backend)
    (loss_func : array -> array -> array)
    (est_targets targets : tensor3) : M (matrix * tensor3) :=
  py_assert (shape0 est_targets =? shape0 targets) None ;;
  py_assert (shape2 est_targets =? shape2 targets) None ;;
  let n_mixtures := shape1 targets in
  let n_est := shape1 est_targets in
  if negb (n_mixtures =? 2)
  then raise (ValueError "Works only with two mixtures")
  else
    let parts := all_combinations (range n_est) in
    best_of_partitions bk loss_func est_targets targets parts
      (fun partition => py_assert (length partition =? n_mixtures) None).

(** [reorder_source(source, batch_indices)] *)
Definition reorder_source {A} (source : list (list A))
    (batch_indices : list (list nat)) : result (list (list A)) :=
  bindR (mapR (fun sb => index_select (fst sb) (snd sb))
              (combine source batch_indices))
        stack_rows.

(** [zeros(n!, n, n).scatter_(2, idx, 1)]: row [i] of the matrix of a
    permutation has its one in column [perm[i]]. *)
Definition one_hot (n k : nat) : vector :=
  map (fun j => if j =? k then 1%Q else 0%Q) (range n).

Definition perms_one_hot (n : nat) (perms : list (list nat)) : tensor3 :=
  map (fun perm => map (one_hot n) perm) perms.

(** The sizes [torch.einsum] accepts under one subscript: equal, or one
    of them 1, which is then broadcast. *)
Definition broadcastable (a b : nat) : bool :=
  (a =? b) || (a =? 1) || (b =? 1).

Definition broadcast_size (a b : nat) : nat := if a =? 1 then b else a.

Definition expand {A} (n : nat) (l : list A) : list A :=
  match l with
  | [x] => repeat x n
  | _ => l
  end.

Definition expand_matrix (i j : nat) (m : matrix) : matrix :=
  expand i (map (expand j) m).

(** [torch.einsum("bij,pij->bp", [x, y])] *)
Definition einsum_bij_pij_bp (bk : backend) (x y : tensor3) : result matrix :=
  if broadcastable (shape1 x) (shape1 y) && broadcastable (shape2 x) (shape2 y)
  then
    let i := broadcast_size (shape1 x) (shape1 y) in
    let j := broadcast_size (shape2 x) (shape2 y) in
    Ok (map (fun xb =>
               map (fun yp =>
                      contract bk (expand_matrix i j xb) (expand_matrix i j yp))
                   y)
            x)
  else Raise RuntimeError.

(** [pwl[:, torch.arange(n_src), idx.squeeze(-1)]] *)
Definition pwl_select (n_src : nat) (pwl : tensor3) (perms : list (list nat))
  : result tensor3 :=
  mapR (fun m =>
          mapR (fun perm =>
                  mapR (fun ik =>
                          bindR (get m (fst ik)) (fun row => get row (snd ik)))
                       (combine (range n_src) perm))
               perms)
       pwl.

(** The score of every permutation for every batch row, [loss_set] of
    [find_best_perm_factorial]. *)
Definition factorial_loss_set (bk : backend) (pair_wise_losses : tensor3)
    (perm_reduce : option (tensor3 -> matrix)) : M matrix :=
  let n_src := shape2 pair_wise_losses in
  let pwl := map (transpose 0%Q n_src) pair_wise_losses in
  let perms := permutations (range n_src) in
  match perm_reduce with
  | None =>
      loss_set <- lift (einsum_bij_pij_bp bk pwl (perms_one_hot n_src perms)) ;;
      ret (map (map (fun x => divide bk x (of_nat n_src))) loss_set)
  | Some reduce =>
      pwl_set <- lift (pwl_select n_src pwl perms) ;;
      emit ReduceCall ;;
      ret (reduce pwl_set)
  end.

(** [find_best_perm_factorial(pair_wise_losses, perm_reduce)] *)
Definition find_best_perm_factorial (bk : backend) (pair_wise_losses : tensor3)
    (perm_reduce : option (tensor3 -> matrix)) : M (vector * list (list nat)) :=
  let n_src := shape2 pair_wise_losses in
  let perms := permutations (range n_src) in
  loss_set <- factorial_loss_set bk pair_wise_losses perm_reduce ;;
  mins <- lift (row_minima loss_set) ;;
  batch_indices <- lift (selected_perms perms mins) ;;
  ret (map fst mins, batch_indices).

(** Entry [[i, j]] of a matrix read by [torch.gather], which refuses
    an index outside the matrix. *)
Definition entry (m : matrix) (i j : nat) : result Q :=
  match nth_error m i with
  | Some row =>
      match nth_error row j with
      | Some x => Ok x
      | None => Raise RuntimeError
      end
  | None => Raise RuntimeError
  end.

(** [torch.gather(m, 1, cols[..., None])] on one batch row: the entry
    of row [i] in column [cols[i]]. *)
Definition gather_row (m : matrix) (cols : list nat) : result vector :=
  mapR (fun ic => entry m (fst ic) (snd ic)) (enumerate cols).

Definition source_axis_msg (n_src : nat) : string :=
  "Expected source axis along dim 1, found "
  ++ NilZero.string_of_uint (Nat.to_uint n_src).

Definition ndim_msg : string :=
  "Something went wrong with the loss function, please read the docs.".

Definition batch_dim_msg : string := "PIT loss needs same batch dim as input".

Definition as_tensor3 (a : array) : result tensor3 :=
  match a with
  | A3 t => Ok t
  | _ => Raise RuntimeError
  end.

Section Solver.

(** The floating-point kernels of the tensor library. *)
Variable bk : backend.

(** [scipy.optimize.linear_sum_assignment(cost)]: row indices and
    column indices of an assignment. *)
Variable linear_sum_assignment : matrix -> result (list nat * list nat).

(** [find_best_perm_hungarian(pair_wise_losses)]; of no batch row
    [torch.tensor] makes an empty vector of floats, which [torch.gather]
    refuses as an index. *)
Definition find_best_perm_hungarian (pair_wise_losses : tensor3)
  : M (vector * list (list nat)) :=
  let pwl := map (transpose 0%Q (shape2 pair_wise_losses)) pair_wise_losses in
  batch_indices <-
    mapM (fun m =>
            emit SolverCall ;;
            a <- lift (linear_sum_assignment m) ;;
            ret (snd a))
         pwl ;;
  match batch_indices with
  | [] => raise RuntimeError
  | _ =>
      gathered <-
        lift (mapR (fun mb => gather_row (fst mb) (snd mb))
                   (combine pwl batch_indices)) ;;
      ret (map (tensor_mean bk) gathered, batch_indices)
  end.

(** [find_best_perm(pair_wise_losses, perm_reduce)] *)
Definition find_best_perm (pair_wise_losses : tensor3)
    (perm_reduce : option (tensor3 -> matrix)) : M (vector * list (list nat)) :=
  let n_src := shape2 pair_wise_losses in
  if (match perm_reduce with Some _ => true | None => false end)
     || (n_src <=? 3)
  then find_best_perm_factorial bk pair_wise_losses perm_reduce
  else find_best_perm_hungarian pair_wise_losses.

(** Lines 147 to 160 of [forward], reached from the two pairwise modes. *)
Definition forward_pairwise (self : PITLossWrapper)
    (est_targets targets : tensor3) (return_est : bool) (pw_losses : array)
  : M forward_result :=
  py_assert (ndim pw_losses =? 3) (Some ndim_msg) ;;
  pwl <- lift (as_tensor3 pw_losses) ;;
  py_assert (shape0 pwl =? shape0 targets) (Some batch_dim_msg) ;;
  found <- find_best_perm pwl (perm_reduce self) ;;
  let mean_loss := tensor_mean bk (fst found) in
  if negb return_est then ret (Loss mean_loss)
  else
    reordered <- lift (reorder_source est_targets (snd found)) ;;
    ret (LossAndEst mean_loss reordered).

(** The dispatch on [pit_from], lines 108 to 160 of [forward]. *)
Definition forward_modes (self : PITLossWrapper) (est_targets targets : tensor3)
    (return_est : bool) : M forward_result :=
  if (pit_from self =? "pw_mtx")%string then
    pw_losses <- call_loss (loss_func self) (A3 est_targets) (A3 targets) ;;
    forward_pairwise self est_targets targets return_est pw_losses
  else if (pit_from self =? "pw_pt")%string then
    pw_losses <- get_pw_losses bk (loss_func self) est_targets targets ;;
    forward_pairwise self est_targets targets return_est (A3 pw_losses)
  else if (pit_from self =? "perm_avg")%string then
    found <- best_perm_from_perm_avg_loss (loss_func self) est_targets targets ;;
    let mean_loss := tensor_mean bk (fst found) in
    if negb return_est then ret (Loss mean_loss)
    else
      reordered <- lift (reorder_source est_targets (snd found)) ;;
      ret (LossAndEst mean_loss reordered)
  else if (pit_from self =? "mix_it")%string then
    found <- best_part_mix_it bk (loss_func self) est_targets targets ;;
    let mean_loss := tensor_mean bk (concat (fst found)) in
    ret (LossAndEst mean_loss (snd found))
  else if (pit_from self =? "mix_it_gen")%string then
    found <- best_part_mix_it_generalized bk (loss_func self) est_targets targets ;;
    let mean_loss := tensor_mean bk (concat (fst found)) in
    ret (LossAndEst mean_loss (snd found))
  else ret NoValue.

(** [forward(self, est_targets, targets, return_est)] *)
Definition forward (self : PITLossWrapper) (est_targets targets : tensor3)
    (return_est : bool) : M forward_result :=
  let n_src := shape1 targets in
  py_assert (n_src <? 10) (Some (source_axis_msg n_src)) ;;
  forward_modes self est_targets targets return_est.

(** [PITReorder.forward(self, est_targets, targets)]: unpacks the pair
    returned by [forward] with [return_est=True]. *)
Definition reorder_forward (self : PITLossWrapper) (est_targets targets : tensor3)
  : M tensor3 :=
  returned <- forward self est_targets targets true ;;
  match returned with
  | LossAndEst _ reordered => ret reordered
  | _ => raise TypeError
  end.

End Solver.

(* ================================================================= *)
(** ** Assignments and their cost *)

(** The total loss of assigning column [cols[i]] to row [i]. *)
Definition assignment_cost (m : matrix) (cols : list nat) : Q :=
  sumQ (map (fun ic => nth (snd ic) (nth (fst ic) m []) 0%Q) (enumerate cols)).

Fixpoint list_eqb (a b : list nat) : bool :=
  match a, b with
  | [], [] => true
  | x :: a', y :: b' => (x =? y) && list_eqb a' b'
  | _, _ => false
  end.

(** What the wrapper relies on in an answer of the assignment solver for
    an [n] by [n] cost matrix: the column indices are an assignment of
    the [n] columns and no assignment is cheaper. *)
Definition optimal_assignment (n : nat) (m : matrix)
    (answer : result (list nat * list nat)) : bool :=
  match answer with
  | Ok (_, cols) =>
      existsb (list_eqb cols) (permutations (range n))
      && forallb (fun p => Qle_bool (assignment_cost m cols) (assignment_cost m p))
                 (permutations (range n))
  | Raise _ => false
  end.

(** A solver by exhaustive search, to run the wrapper on examples. *)
Definition exhaustive_assignment (m : matrix) : result (list nat * list nat) :=
  let perms := permutations (range (length m)) in
  bindR (torch_min (map (assignment_cost m) perms))
        (fun r => Ok (range (length m), nth (snd r) perms [])).

(** Every matrix of the batch is [n] by [n]. *)
Definition square (n : nat) (pair_wise_losses : tensor3) : bool :=
  forallb (fun m => (length m =? n) && forallb (fun row => length row =? n) m)
          pair_wise_losses.

(** Example callbacks: the mean squared difference of two signals, for
    every estimate/target pair ([pw_mtx]), for one pair ([pw_pt]) and
    averaged over the sources ([perm_avg], [mix_it], [mix_it_gen]). *)
Definition sqdiff (u v : vector) : Q :=
  mean (map (fun p => ((fst p - snd p) * (fst p - snd p))%Q) (combine u v)).

Definition pairwise_mse (est targets : array) : array :=
  match est, targets with
  | A3 e, A3 t =>
      A3 (map (fun et => map (fun ei => map (sqdiff ei) (snd et)) (fst et))
              (combine e t))
  | A2 e, A2 t => A1 (map (fun p => sqdiff (fst p) (snd p)) (combine e t))
  | _, _ => A0 0%Q
  end.

Definition batch_mse (est targets : array) : array :=
  match est, targets with
  | A3 e, A3 t =>
      A1 (map (fun et =>
                 mean (map (fun p => sqdiff (fst p) (snd p))
                           (combine (fst et) (snd et))))
              (combine e t))
  | _, _ => A0 0%Q
  end.

(** [v] is the least value of [row] and [m] the position of its first
    occurrence: every entry is at least [v] and every entry before [m]
    is strictly greater. *)
Definition first_min (row : list Q) (v : Q) (m : nat) : Prop :=
  nth_error row m = Some v /\
  (forall j y, nth_error row j = Some y -> (v <= y)%Q) /\
  (forall j y, nth_error row j = Some y -> j < m -> (v < y)%Q).

(** The entry of [loss_set] for one batch row [m] (already transposed)
    and one permutation, as the mean-reduced branch of the factorial
    search computes it. *)
Definition perm_score (bk : backend) (n_src : nat) (m : matrix) (perm : list nat)
  : Q :=
  divide bk (contract bk m (map (one_hot n_src) perm)) (of_nat n_src).

(** Example inputs: two batch rows with the targets [a = [1, 0]] and
    [b = [0, 1]], estimates presented swapped, and four estimates to be
    grouped into two mixtures. *)
Definition example_targets : tensor3 :=
  [[[1; 0]; [0; 1]]; [[1; 0]; [0; 1]]]%Q.

Definition example_estimates : tensor3 :=
  [[[0; 1]; [1; 0]]; [[0; 1]; [1; 0]]]%Q.

Definition example_estimates4 : tensor3 :=
  [[[1; 0]; [0; 0]; [0; 1]; [0; 0]]; [[0; 0]; [0; 1]; [0; 0]; [1; 0]]]%Q.

Definition example_wrapper (loss : array -> array -> array) (mode : string)
  : PITLossWrapper :=
  {| loss_func := loss; pit_from := mode; perm_reduce := None |}.

(** A backend that, like floating point beyond its precision, keeps
    the contractions from [limit] on only to a multiple of two, to run
    the wrapper where rounding decides. *)
Definition coarsen (limit : Z) (x : Q) : Q :=
  if Qle_bool (inject_Z limit) x
  then inject_Z (2 * (Qfloor x / 2))%Z
  else x.

Definition coarse_backend (limit : Z) : backend :=
  {| contract := fun x y => coarsen limit (exact_contract x y);
     divide := Qdiv;
     tensor_mean := mean;
     tensor_sum := sumQ;
     fresh := fun _ _ _ => 0%Q |}.

(* ================================================================= *)
(** ** Notions used to state further properties *)


(** The rounding of the backend stays within [eps] on the scores of the
    batch: on every batch row and every permutation, the score that the
    backend computes differs by at most [eps] from the score without
    rounding.  With [eps = 0] the backend rounds no score. *)
Definition scores_within (bk : backend) (eps : Q) (pair_wise_losses : tensor3)
  : bool :=
  let n_src := shape2 pair_wise_losses in
  forallb (fun m =>
    forallb (fun perm =>
      Qle_bool (Qabs (perm_score bk n_src m perm
                      - perm_score exact_backend n_src m perm))
               eps)
      (permutations (range n_src)))
    (map (transpose 0%Q n_src) pair_wise_losses).

(** The rounding of the backend stays within [eps] on the means of the
    losses that the answers of the solver select. *)
Definition assigned_means_within (bk : backend) (eps : Q)
    (solver : matrix -> result (list nat * list nat))
    (pair_wise_losses : tensor3) : bool :=
  forallb (fun m =>
    match solver m with
    | Ok (_, cols) =>
        match gather_row m cols with
        | Ok g => Qle_bool (Qabs (tensor_mean bk g - mean g)) eps
        | Raise _ => true
        end
    | Raise _ => true
    end)
    (map (transpose 0%Q (shape2 pair_wise_losses)) pair_wise_losses).




(** Source [i] of every batch row: [t.transpose(0, 1)[i]]. *)
Definition source_at (i : nat) (t : tensor3) : matrix :=
  map (fun row => nth i row []) t.

(** The callback gives one loss per batch row for every pair of an
    estimated and a target source. *)
Definition pairwise_callback_ok (loss_func : array -> array -> array)
    (est_targets targets : tensor3) : bool :=
  forallb (fun i =>
    forallb (fun j =>
      match as_batch_vector (shape0 targets)
              (loss_func (A2 (source_at i est_targets)) (A2 (source_at j targets)))
      with Ok _ => true | Raise _ => false end)
      (range (shape1 targets)))
    (range (shape1 est_targets)).

(** A solver that refuses cost matrices with a negative first entry,
    to run the wrapper on a failing solver. *)
Definition refusing_solver (m : matrix) : result (list nat * list nat) :=
  if Qle_bool 0 (nth 0 (nth 0 m []) 0%Q) then exhaustive_assignment m
  else Raise (ValueError "cost matrix is infeasible").

(** The solver answers on every matrix of the list. *)
Definition solver_answers (solver : matrix -> result (list nat * list nat))
    (ms : list matrix) : bool :=
  forallb (fun m => match solver m with Ok _ => true | Raise _ => false end) ms.

(** What a partition search returns for the candidates [parts]: for
    every batch row, the loss of one candidate, which no candidate
    undercuts on that row, and the estimates of the row summed after the
    groups of that candidate. *)
Definition least_partition_selected (bk : backend)
    (loss_func : array -> array -> array)
    (est_targets targets : tensor3) (parts : list (list (list nat)))
    (min_loss : matrix) (ordered : tensor3) : Prop :=
  forall b row,
    nth_error est_targets b = Some row ->
    exists v partition est_mixes column mixes,
      nth_error min_loss b = Some [v] /\
      In partition parts /\
      mix bk est_targets partition = Ok est_mixes /\
      loss_func (A3 est_mixes) (A3 targets) = A1 column /\
      nth_error column b = Some v /\
      mix_row bk (shape2 est_targets) row partition = Ok mixes /\
      nth_error ordered b = Some mixes /\
      forall partition' est_mixes' column' v',
        In partition' parts ->
        mix bk est_targets partition' = Ok est_mixes' ->
        loss_func (A3 est_mixes') (A3 targets) = A1 column' ->
        nth_error column' b = Some v' ->
        (v <= v')%Q.

(** On the mixing of the estimates after each candidate partition the
    callback gives a 1-D tensor with one loss per batch row. *)
Definition partition_callback_ok (bk : backend)
    (loss_func : array -> array -> array)
    (est_targets targets : tensor3) (parts : list (list (list nat))) : bool :=
  forallb (fun partition =>
    match mix bk est_targets partition with
    | Ok est_mixes =>
        match loss_func (A3 est_mixes) (A3 targets) with
        | A1 column => length column =? length est_targets
        | _ => false
        end
    | Raise _ => true
    end) parts.

(** Every batch row of a 3-D tensor holds [shape1] sources. *)
Definition rectangular (est_targets : tensor3) : Prop :=
  Forall (fun row => length row = shape1 est_targets) est_targets.

(* ================================================================= *)
(** * Properties *)

(** ** The generators on small inputs

    The values Python gives for [list(permutations(range(3)))],
    [list(combinations(range(4), 2))], [parts] of the equal-size search
    for four estimates and two mixtures, and [parts] of the generalized
    search for three estimates. *)

Example permutations_range_3 :
  permutations (range 3)
  = [[0; 1; 2]; [0; 2; 1]; [1; 0; 2]; [1; 2; 0]; [2; 0; 1]; [2; 1; 0]].
Proof. reflexivity. Qed.

Example combinations_range_4_2 :
  combinations (range 4) 2 = [[0; 1]; [0; 2]; [0; 3]; [1; 2]; [1; 3]; [2; 3]].
Proof. reflexivity. Qed.

Example combs_range_4 :
  combs (range 4) 2 2
  = [[[0; 1]; [2; 3]]; [[0; 2]; [1; 3]]; [[0; 3]; [1; 2]];
     [[1; 2]; [0; 3]]; [[1; 3]; [0; 2]]; [[2; 3]; [0; 1]]].
Proof. reflexivity. Qed.

Example all_combinations_range_3 :
  all_combinations (range 3)
  = [[[]; [0; 1; 2]]; [[0]; [1; 2]]; [[1]; [0; 2]]; [[2]; [0; 1]];
     [[0; 1]; [2]]; [[0; 2]; [1]]; [[1; 2]; [0]]; [[0; 1; 2]; []]].
Proof. reflexivity. Qed.

(** The end-to-end example: with the two targets presented swapped, the
    pairwise modes find the permutation [[1, 0]] for both rows, a zero
    loss, and give the estimates back in the order of the targets. *)
Example forward_swapped_sources :
  find_best_perm exact_backend exhaustive_assignment
    [[[1; 0]; [0; 1]]; [[1; 0]; [0; 1]]]%Q None []
  = ([], Ok ([0 # 2; 0 # 2]%Q, [[1; 0]; [1; 0]])) /\
  exists zero,
    forward exact_backend exhaustive_assignment (example_wrapper pairwise_mse "pw_pt")
            example_estimates example_targets true []
    = (repeat LossCall 4, Ok (LossAndEst zero example_targets)) /\
    (zero == 0)%Q.
Proof.
  split; [vm_compute; reflexivity|].
  eexists. split; [vm_compute; reflexivity | reflexivity].
Qed.

(** ** Counting combinations *)

Lemma binom_0_r n : binom n 0 = 1.
Proof. destruct n; reflexivity. Qed.

Lemma binom_lt n : forall k, n < k -> binom n k = 0.
Proof.
  induction n as [|n IH]; intros [|k] H; simpl; try lia.
  rewrite !IH by lia. reflexivity.
Qed.

Lemma binom_diag n : binom n n = 1.
Proof.
  induction n as [|n IH]; simpl; [reflexivity|].
  rewrite IH, binom_lt by lia. lia.
Qed.

Lemma binom_fact n : forall k, k <= n ->
  binom n k * (fact k * fact (n - k)) = fact n.
Proof.
  induction n as [|n IH]; intros k Hk.
  - assert (k = 0) by lia. subst. reflexivity.
  - destruct k as [|k].
    + rewrite binom_0_r. simpl fact at 1. rewrite Nat.sub_0_r. lia.
    + change (binom (S n) (S k)) with (binom n k + binom n (S k)).
      replace (S n - S k) with (n - k) by lia.
      destruct (Nat.eq_dec k n) as [->|Hne].
      * rewrite (@binom_lt n (S n)) by lia.
        rewrite binom_diag, Nat.sub_diag. simpl fact at 2. lia.
      * assert (H1 := IH k ltac:(lia)). assert (H2 := IH (S k) ltac:(lia)).
        replace (n - k) with (S (n - S k)) in * by lia.
        set (m := n - S k) in *.
        change (fact (S n)) with (S n * fact n).
        change (fact (S m)) with (S m * fact m) in *.
        change (fact (S k)) with (S k * fact k) in *.
        assert (Hn : S n = S k + S m) by (unfold m; lia).
        rewrite Hn. nia.
Qed.

Lemma combinations_length {A} (pool : list A) : forall r,
  length (combinations pool r) = binom (length pool) r.
Proof.
  induction pool as [|x xs IH]; intros [|r]; simpl; try reflexivity.
  rewrite length_app, length_map, !IH. reflexivity.
Qed.

Lemma combinations_In {A} (pool : list A) : forall r c,
  In c (combinations pool r) ->
  length c = r /\ incl c pool /\ r <= length pool.
Proof.
  induction pool as [|x xs IH]; intros [|r] c Hc; simpl in Hc.
  - destruct Hc as [<-|[]]. repeat split; auto. intros y [].
  - destruct Hc.
  - destruct Hc as [<-|[]]. repeat split; simpl; try lia. intros y [].
  - apply in_app_or in Hc. destruct Hc as [Hc|Hc].
    + apply in_map_iff in Hc. destruct Hc as (c' & <- & Hc').
      destruct (IH _ _ Hc') as (Hl & Hi & Hr).
      repeat split; simpl; try lia.
      intros y [->|Hy]; [left; reflexivity | right; auto].
    + destruct (IH _ _ Hc) as (Hl & Hi & Hr).
      repeat split; simpl; try lia.
      intros y Hy. right. auto.
Qed.

Lemma mem_In x c : mem x c = true <-> In x c.
Proof.
  unfold mem. rewrite existsb_exists. split.
  - intros (y & Hy & E). apply Nat.eqb_eq in E. subst. exact Hy.
  - intros H. exists x. split; [exact H | apply Nat.eqb_refl].
Qed.

Lemma rest_of_nil lst : rest_of lst [] = lst.
Proof.
  unfold rest_of. induction lst as [|x xs IH]; simpl; [reflexivity|].
  f_equal. exact IH.
Qed.

Lemma rest_of_cons_hit x xs c :
  ~ In x xs -> rest_of (x :: xs) (x :: c) = rest_of xs c.
Proof.
  intros Hx. unfold rest_of. simpl. rewrite Nat.eqb_refl. simpl.
  apply filter_ext_in. intros y Hy.
  destruct (Nat.eqb_spec y x) as [->|_]; [contradiction | reflexivity].
Qed.

Lemma rest_of_cons_miss x xs c :
  ~ In x c -> rest_of (x :: xs) c = x :: rest_of xs c.
Proof.
  intros Hx. unfold rest_of. simpl.
  destruct (mem x c) eqn:E; [apply mem_In in E; contradiction | reflexivity].
Qed.

Lemma rest_of_combination lst : forall k c,
  NoDup lst -> In c (combinations lst k) ->
  Permutation (c ++ rest_of lst c) lst.
Proof.
  induction lst as [|x xs IH]; intros [|k] c Hnd Hc; simpl in Hc.
  - destruct Hc as [<-|[]]. constructor.
  - destruct Hc.
  - destruct Hc as [<-|[]]. rewrite rest_of_nil. reflexivity.
  - inversion Hnd as [|? ? Hx Hnd']; subst.
    apply in_app_or in Hc. destruct Hc as [Hc|Hc].
    + apply in_map_iff in Hc. destruct Hc as (c' & <- & Hc').
      rewrite rest_of_cons_hit by assumption. simpl.
      constructor. eapply IH; eauto.
    + assert (~ In x c) as Hxc.
      { intros Hin. apply Hx. eapply (combinations_In _ _ _ Hc); eauto. }
      rewrite rest_of_cons_miss by assumption.
      etransitivity; [symmetry; apply Permutation_middle|].
      constructor. eapply IH; eauto.
Qed.

Lemma rest_of_NoDup lst c : NoDup lst -> NoDup (rest_of lst c).
Proof. intros H. apply NoDup_filter. exact H. Qed.

Lemma rest_of_length lst k c :
  NoDup lst -> In c (combinations lst k) ->
  length (rest_of lst c) = length lst - k.
Proof.
  intros Hnd Hc.
  pose proof (Permutation_length (rest_of_combination _ _ _ Hnd Hc)) as H.
  rewrite length_app in H.
  destruct (combinations_In _ _ _ Hc) as (Hl & _ & _). lia.
Qed.

Lemma flat_map_length_const {A B} (f : A -> list B) (m : nat) (l : list A) :
  (forall x, In x l -> length (f x) = m) ->
  length (flat_map f l) = length l * m.
Proof.
  induction l as [|x xs IH]; intros H; simpl; [reflexivity|].
  rewrite length_app, H by (left; reflexivity).
  rewrite IH; [reflexivity|].
  intros y Hy. apply H. right. exact Hy.
Qed.

(** ** The equal-size enumeration [combs] *)

Lemma combs_length l : forall lst k,
  NoDup lst -> length (combs lst k l) = combs_count (length lst) k l.
Proof.
  induction l as [|l IH]; intros lst k Hnd; simpl; [reflexivity|].
  rewrite flat_map_length_const with (m := combs_count (length lst - k) k l).
  - rewrite combinations_length. reflexivity.
  - intros c Hc. rewrite length_map, IH by (apply rest_of_NoDup; exact Hnd).
    rewrite (rest_of_length _ _ _ Hnd Hc). reflexivity.
Qed.

Lemma combs_count_fact k l :
  combs_count (k * l) k l * fact k ^ l = fact (k * l).
Proof.
  induction l as [|l IH].
  - rewrite Nat.mul_0_r. reflexivity.
  - replace (k * S l) with (k + k * l) by lia.
    simpl combs_count. replace (k + k * l - k) with (k * l) by lia.
    pose proof (@binom_fact (k + k * l) k ltac:(lia)) as Hb.
    replace (k + k * l - k) with (k * l) in Hb by lia.
    rewrite Nat.pow_succ_r'. rewrite <- Hb, <- IH. ring.
Qed.

Lemma fact_pow_pos k l : fact k ^ l <> 0.
Proof. apply Nat.pow_nonzero. apply fact_neq_0. Qed.

Lemma combs_count_div k l :
  combs_count (k * l) k l = fact (k * l) / fact k ^ l.
Proof.
  rewrite <- combs_count_fact. symmetry. apply Nat.div_mul. apply fact_pow_pos.
Qed.

Lemma combs_shape l : forall lst k p,
  NoDup lst -> In p (combs lst k l) ->
  length p = l /\ Forall (fun g => length g = k) p /\
  exists left_over, Permutation (concat p ++ left_over) lst.
Proof.
  induction l as [|l IH]; intros lst k p Hnd Hp; simpl in Hp.
  - destruct Hp as [<-|[]]. repeat split; auto. exists lst. reflexivity.
  - apply in_flat_map in Hp. destruct Hp as (c & Hc & Hp).
    apply in_map_iff in Hp. destruct Hp as (r & <- & Hr).
    destruct (IH _ _ _ (rest_of_NoDup _ c Hnd) Hr) as (Hl & Hf & lo & Hperm).
    destruct (combinations_In _ _ _ Hc) as (Hlc & _ & _).
    repeat split; simpl; try lia.
    + constructor; assumption.
    + exists lo. rewrite <- app_assoc.
      etransitivity; [apply Permutation_app_head; exact Hperm|].
      apply rest_of_combination with (k := k); assumption.
Qed.

Lemma concat_length_const {A} (k : nat) (p : list (list A)) :
  Forall (fun g => length g = k) p -> length (concat p) = k * length p.
Proof.
  induction 1 as [|g p Hg _ IH]; simpl; [lia|].
  rewrite length_app, IH, Hg. lia.
Qed.

Lemma combs_cover lst k l p :
  NoDup lst -> length lst = k * l -> In p (combs lst k l) ->
  Permutation (concat p) lst.
Proof.
  intros Hnd Hlen Hp.
  destruct (combs_shape _ _ _ _ Hnd Hp) as (Hl & Hf & lo & Hperm).
  pose proof (Permutation_length Hperm) as E.
  rewrite length_app, (concat_length_const _ _ Hf), Hl, Hlen in E.
  assert (lo = []) by (destruct lo; simpl in E; [reflexivity | lia]).
  subst lo. rewrite app_nil_r in Hperm. exact Hperm.
Qed.

Lemma range_NoDup n : NoDup (range n).
Proof. apply seq_NoDup. Qed.

Lemma range_length n : length (range n) = n.
Proof. apply length_seq. Qed.

Lemma NoDup_map_cons {A} (x : A) (l : list (list A)) :
  NoDup l -> NoDup (map (cons x) l).
Proof.
  induction 1 as [|c l Hc _ IH]; simpl; constructor; [|exact IH].
  intros Hin. apply in_map_iff in Hin. destruct Hin as (c' & E & Hc').
  inversion E; subst. contradiction.
Qed.

Lemma NoDup_flat_map {A B} (f : A -> list B) (l : list A) :
  NoDup l ->
  (forall x, In x l -> NoDup (f x)) ->
  (forall x y b, In x l -> In y l -> In b (f x) -> In b (f y) -> x = y) ->
  NoDup (flat_map f l).
Proof.
  induction 1 as [|x xs Hx Hnd IH]; intros Hf Hdisj; simpl; [constructor|].
  apply NoDup_app.
  - apply Hf. left. reflexivity.
  - apply IH.
    + intros y Hy. apply Hf. right. exact Hy.
    + intros y z b Hy Hz. apply Hdisj; right; assumption.
  - intros b Hb Hb'. apply in_flat_map in Hb'. destruct Hb' as (y & Hy & Hby).
    assert (x = y) by (eapply Hdisj; eauto; [left; reflexivity | right; exact Hy]).
    subst. contradiction.
Qed.

Lemma combinations_NoDup {A} (pool : list A) : forall r,
  NoDup pool -> NoDup (combinations pool r).
Proof.
  induction pool as [|x xs IH]; intros [|r] Hnd; simpl.
  - constructor; [intros [] | constructor].
  - constructor.
  - constructor; [intros [] | constructor].
  - inversion Hnd as [|? ? Hx Hnd']; subst. apply NoDup_app.
    + apply NoDup_map_cons. apply IH. exact Hnd'.
    + apply IH. exact Hnd'.
    + intros c Hc Hc'. apply in_map_iff in Hc. destruct Hc as (c' & <- & _).
      destruct (combinations_In _ _ _ Hc') as (_ & Hincl & _).
      apply Hx. apply Hincl. left. reflexivity.
Qed.

Lemma combs_NoDup l : forall lst k, NoDup lst -> NoDup (combs lst k l).
Proof.
  induction l as [|l IH]; intros lst k Hnd; simpl.
  - constructor; [intros [] | constructor].
  - apply NoDup_flat_map.
    + apply combinations_NoDup. exact Hnd.
    + intros c _. apply NoDup_map_cons. apply IH. apply rest_of_NoDup. exact Hnd.
    + intros c c' p _ _ Hp Hp'.
      apply in_map_iff in Hp. destruct Hp as (r & <- & _).
      apply in_map_iff in Hp'. destruct Hp' as (r' & E & _).
      inversion E. reflexivity.
Qed.

(** ** The generalized enumeration [all_combinations] *)

Lemma sum_binom_step n : forall m,
  sum_binom (S n) (S m) = sum_binom n m + sum_binom n (S m).
Proof.
  induction m as [|m IH].
  - simpl. rewrite binom_0_r. reflexivity.
  - change (sum_binom (S n) (S (S m)))
      with (sum_binom (S n) (S m) + binom (S n) (S m)).
    rewrite IH. simpl. lia.
Qed.

Lemma sum_binom_0 m : sum_binom 0 (S m) = 1.
Proof.
  induction m as [|m IH]; [reflexivity|].
  change (sum_binom 0 (S (S m))) with (sum_binom 0 (S m) + binom 0 (S m)).
  rewrite IH. reflexivity.
Qed.

Lemma sum_binom_pow n : forall m, n < m -> sum_binom n m = 2 ^ n.
Proof.
  induction n as [|n IH]; intros m Hm.
  - destruct m; [lia|]. apply sum_binom_0.
  - destruct m as [|m]; [lia|].
    rewrite sum_binom_step, !IH by lia. simpl. lia.
Qed.

Lemma all_combinations_length_upto (lst : list nat) : forall m,
  length (flat_map (fun k => map (fun c => [c; rest_of lst c])
                                 (combinations lst k)) (seq 0 m))
  = sum_binom (length lst) m.
Proof.
  induction m as [|m IH]; [reflexivity|].
  rewrite seq_S, flat_map_app, length_app, IH. simpl.
  rewrite app_nil_r, length_map, combinations_length. reflexivity.
Qed.

Lemma all_combinations_length lst :
  length (all_combinations lst) = 2 ^ length lst.
Proof.
  unfold all_combinations, range.
  rewrite all_combinations_length_upto. apply sum_binom_pow. lia.
Qed.

Lemma all_combinations_In lst p :
  In p (all_combinations lst) <->
  exists first, p = [first; rest_of lst first]
                /\ In first (combinations lst (length first)).
Proof.
  unfold all_combinations. rewrite in_flat_map. split.
  - intros (k & Hk & Hp). apply in_map_iff in Hp. destruct Hp as (c & <- & Hc).
    exists c. split; [reflexivity|].
    destruct (combinations_In _ _ _ Hc) as (-> & _). exact Hc.
  - intros (c & -> & Hc). exists (length c). split.
    + apply in_seq. destruct (combinations_In _ _ _ Hc) as (_ & _ & Hle). lia.
    + apply (in_map (fun c0 => [c0; rest_of lst c0])). exact Hc.
Qed.

Lemma all_combinations_NoDup lst : NoDup lst -> NoDup (all_combinations lst).
Proof.
  intros Hnd. unfold all_combinations. apply NoDup_flat_map.
  - apply seq_NoDup.
  - intros k _. apply NoDup_map_NoDup_ForallPairs.
    + intros c c' _ _ E. inversion E. reflexivity.
    + apply combinations_NoDup. exact Hnd.
  - intros k k' p _ _ Hp Hp'.
    apply in_map_iff in Hp. destruct Hp as (c & <- & Hc).
    apply in_map_iff in Hp'. destruct Hp' as (c' & E & Hc').
    inversion E; subst.
    destruct (combinations_In _ _ _ Hc) as (<- & _).
    destruct (combinations_In _ _ _ Hc') as (<- & _). reflexivity.
Qed.

Lemma combinations_beyond {A} (pool : list A) r :
  length pool < r -> combinations pool r = [].
Proof.
  intros H. apply length_zero_iff_nil.
  rewrite combinations_length. apply binom_lt. exact H.
Qed.

Lemma combinations_full {A} (pool : list A) :
  combinations pool (length pool) = [pool].
Proof.
  induction pool as [|x xs IH]; simpl; [reflexivity|].
  rewrite IH, combinations_beyond by lia. reflexivity.
Qed.

Lemma rest_of_incl lst c : incl lst c -> rest_of lst c = [].
Proof.
  unfold rest_of. induction lst as [|x xs IH]; intros H; simpl; [reflexivity|].
  assert (mem x c = true) as -> by (apply mem_In, H; left; reflexivity).
  simpl. apply IH. intros y Hy. apply H. right. exact Hy.
Qed.

(** Claim C1, as the source has it.  With [n_est = 4] estimates and
    [n_mixtures = 2] mixtures the list [parts] of [best_part_mix_it] has
    six entries, not the three given by
    [n_est! / ((n_src!)^n_mixtures * n_mixtures!)]. *)
Lemma combs_4_2_has_six_candidates :
  length (combs (range 4) 2 2) = 6 /\
  fact 4 / (fact 2 ^ 2 * fact 2) = 3 /\
  length (combs (range 4) 2 2) <> fact 4 / (fact 2 ^ 2 * fact 2).
Proof. vm_compute. repeat split; try reflexivity. discriminate. Qed.

(** Claim C1, amended.  When [n_mixtures] divides [n_est], the
    equal-size search enumerates exactly [n_est! / (n_src!)^n_mixtures]
    candidates; they are pairwise distinct, and each is an ordered
    sequence of [n_mixtures] groups of [n_src] indices that together
    cover the [n_est] indices once.  For [n_est = 4] and
    [n_mixtures = 2] that makes 6 candidates: the 3 partitions into
    unordered groups, each listed once per order of its groups. *)
Theorem combs_enumerates_ordered_partitions :
  forall n_est n_mixtures,
    n_mixtures <> 0 ->
    n_est mod n_mixtures = 0 ->
    let n_src := n_est / n_mixtures in
    let parts := combs (range n_est) n_src n_mixtures in
    length parts = fact n_est / fact n_src ^ n_mixtures /\
    NoDup parts /\
    (forall p, In p parts ->
       length p = n_mixtures /\
       Forall (fun g => length g = n_src) p /\
       Permutation (concat p) (range n_est)) /\
    (n_est = 4 -> n_mixtures = 2 ->
       length parts = 6 /\
       length (nodup partition_eq_dec (map unordered parts)) = 3 /\
       forall u, In u (map unordered parts) ->
         count_occ partition_eq_dec (map unordered parts) u = 2).
Proof.
  intros n_est n_mixtures Hm Hdiv n_src parts.
  assert (Hn : n_est = n_src * n_mixtures).
  { unfold n_src. pose proof (Nat.div_mod_eq n_est n_mixtures). lia. }
  split; [|split; [|split]].
  - unfold parts. rewrite combs_length by apply range_NoDup.
    rewrite range_length, Hn. apply combs_count_div.
  - apply combs_NoDup, range_NoDup.
  - intros p Hp.
    destruct (combs_shape _ _ _ _ (range_NoDup n_est) Hp) as (Hl & Hg & _).
    repeat split; try assumption.
    apply combs_cover with (k := n_src) (l := n_mixtures).
    + apply range_NoDup.
    + rewrite range_length. exact Hn.
    + exact Hp.
  - intros -> ->. subst parts n_src.
    split; [reflexivity | split; [reflexivity|]].
    change (map unordered (combs (range 4) (4 / 2) 2))
      with [[[0; 1]; [2; 3]]; [[0; 2]; [1; 3]]; [[0; 3]; [1; 2]];
            [[0; 3]; [1; 2]]; [[0; 2]; [1; 3]]; [[0; 1]; [2; 3]]].
    intros u Hu. simpl in Hu.
    repeat (destruct Hu as [<- | Hu]; [vm_compute; reflexivity|]).
    contradiction.
Qed.

Lemma combs_enumerates_ordered_partitions_witness :
  length (combs (range 6) (6 / 3) 3) = fact 6 / fact (6 / 3) ^ 3 /\
  length (combs (range 6) (6 / 3) 3) = 90.
Proof.
  split.
  - apply (combs_enumerates_ordered_partitions 6 3); [discriminate | reflexivity].
  - vm_compute. reflexivity.
Defined.

(** Claim C4.  The generalized search enumerates exactly [2^n_est]
    candidates; they are pairwise distinct, each is the ordered pair of
    a first group and the remaining indices, and the two splits with an
    empty group are among them.  For [n_est = 3] there are 8. *)
Theorem all_combinations_enumerates_binary_splits :
  forall n_est,
    let parts := all_combinations (range n_est) in
    length parts = 2 ^ n_est /\
    NoDup parts /\
    (forall p, In p parts ->
       exists first,
         p = [first; rest_of (range n_est) first] /\
         Permutation (first ++ rest_of (range n_est) first) (range n_est)) /\
    In [[]; range n_est] parts /\
    In [range n_est; []] parts /\
    length (all_combinations (range 3)) = 8.
Proof.
  intros n_est parts. unfold parts. repeat split.
  - rewrite all_combinations_length, range_length. reflexivity.
  - apply all_combinations_NoDup, range_NoDup.
  - intros p Hp. apply all_combinations_In in Hp.
    destruct Hp as (first & -> & Hc). exists first. split; [reflexivity|].
    eapply rest_of_combination; [apply range_NoDup | exact Hc].
  - apply all_combinations_In. exists []. split.
    + rewrite rest_of_nil. reflexivity.
    + destruct (range n_est); left; reflexivity.
  - apply all_combinations_In. exists (range n_est). split.
    + rewrite rest_of_incl by apply incl_refl. reflexivity.
    + rewrite combinations_full. left. reflexivity.
Qed.

(** ** Computations in [M] *)

Lemma bind_raise {A B} (m : M A) (f : A -> M B) t t' e :
  m t = (t', Raise e) -> bind m f t = (t', Raise e).
Proof. intros H. unfold bind. rewrite H. reflexivity. Qed.

Lemma bind_inv {A B} (m : M A) (f : A -> M B) t t' b :
  bind m f t = (t', Ok b) ->
  exists t1 a, m t = (t1, Ok a) /\ f a t1 = (t', Ok b).
Proof.
  unfold bind. destruct (m t) as [t1 [a|e]]; intros H; [|discriminate H].
  exists t1, a. split; [reflexivity | exact H].
Qed.

Lemma lift_inv {A} (r : result A) t t' a :
  lift r t = (t', Ok a) -> t' = t /\ r = Ok a.
Proof. unfold lift. intros H. inversion H. split; reflexivity. Qed.

Lemma ret_inv {A} (x a : A) t t' : ret x t = (t', Ok a) -> t' = t /\ a = x.
Proof. unfold ret. intros H. inversion H. split; reflexivity. Qed.

Lemma py_assert_inv cond msg t t' u :
  py_assert cond msg t = (t', Ok u) -> t' = t /\ cond = true.
Proof.
  unfold py_assert. destruct cond; intros H; [|discriminate H].
  inversion H. split; reflexivity.
Qed.

Lemma repeat_snoc {A} (x : A) n : repeat x n ++ [x] = repeat x (S n).
Proof. induction n as [|n IH]; simpl; [reflexivity | rewrite IH; reflexivity]. Qed.

Lemma mapM_ok_trace {A B} (f : A -> M B) (ev : event) (k : nat) :
  (forall x t t' y, f x t = (t', Ok y) -> t' = t ++ repeat ev k) ->
  forall l t t' ys,
    mapM f l t = (t', Ok ys) ->
    t' = t ++ repeat ev (length l * k) /\ Forall2 (fun x y => exists t0 t1, f x t0 = (t1, Ok y)) l ys.
Proof.
  intros Hf. induction l as [|x l IH]; intros t t' ys H; simpl in H.
  - apply ret_inv in H. destruct H as [-> ->]. simpl. rewrite app_nil_r.
    split; [reflexivity | constructor].
  - apply bind_inv in H. destruct H as (t1 & y & Hx & H).
    apply bind_inv in H. destruct H as (t2 & ys' & Hl & H).
    apply ret_inv in H. destruct H as [-> ->].
    pose proof (Hf _ _ _ _ Hx) as ->.
    destruct (IH _ _ _ Hl) as [-> HF]. split.
    + simpl. rewrite repeat_app, app_assoc. reflexivity.
    + constructor; [exists t, (t ++ repeat ev k); exact Hx | exact HF].
Qed.

Lemma call_loss_inv f x y t t' a :
  call_loss f x y t = (t', Ok a) -> t' = t ++ [LossCall] /\ a = f x y.
Proof.
  unfold call_loss, bind, emit, ret. intros H. inversion H. split; reflexivity.
Qed.

Lemma bind_ok {A B} (m : M A) (f : A -> M B) t t' a :
  m t = (t', Ok a) -> bind m f t = f a t'.
Proof. intros H. unfold bind. rewrite H. reflexivity. Qed.

(** ** Lists and results *)

Lemma mapR_Forall2 {A B} (f : A -> result B) (l : list A) : forall ys,
  mapR f l = Ok ys <-> Forall2 (fun x y => f x = Ok y) l ys.
Proof.
  induction l as [|x l IH]; intros ys; simpl.
  - split; intros H.
    + inversion H. constructor.
    + inversion H. reflexivity.
  - split; intros H.
    + destruct (f x) as [y|e] eqn:E; simpl in H; [|discriminate H].
      destruct (mapR f l) as [ys'|e] eqn:E'; simpl in H; [|discriminate H].
      inversion H; subst. constructor; [exact E | apply IH; reflexivity].
    + inversion H as [|? y ? ys' E Hrest]; subst.
      rewrite E. simpl. apply IH in Hrest. rewrite Hrest. reflexivity.
Qed.

Lemma mapR_total {A B} (f : A -> result B) (g : A -> B) (l : list A) :
  (forall x, In x l -> f x = Ok (g x)) -> mapR f l = Ok (map g l).
Proof.
  induction l as [|x l IH]; intros H; simpl; [reflexivity|].
  rewrite H by (left; reflexivity). simpl.
  rewrite IH by (intros y Hy; apply H; right; exact Hy). reflexivity.
Qed.

Lemma get_nth {A} (l : list A) (i : nat) (d : A) :
  i < length l -> get l i = Ok (nth i l d).
Proof.
  intros H. unfold get.
  rewrite (nth_error_nth' l d H). reflexivity.
Qed.

Lemma Forall2_map_l {A B C} (f : A -> B) (P : B -> C -> Prop) (l : list A) :
  forall l', Forall2 P (map f l) l' <-> Forall2 (fun x y => P (f x) y) l l'.
Proof.
  induction l as [|x l IH]; intros l'; split; intros H; inversion H; subst;
    constructor; try assumption; apply IH; assumption.
Qed.

Lemma Forall2_length_eq {A B} (P : A -> B -> Prop) l l' :
  Forall2 P l l' -> length l = length l'.
Proof. induction 1; simpl; congruence. Qed.

Lemma Forall2_nth_error {A B} (P : A -> B -> Prop) l l' :
  Forall2 P l l' ->
  forall i x, nth_error l i = Some x ->
              exists y, nth_error l' i = Some y /\ P x y.
Proof.
  induction 1 as [|a b l l' Hab _ IH]; intros [|i] x Hx; simpl in Hx;
    try discriminate Hx.
  - inversion Hx; subst. exists b. split; [reflexivity | exact Hab].
  - apply IH. exact Hx.
Qed.

Lemma get_In {A} (l : list A) i x : get l i = Ok x -> In x l.
Proof.
  unfold get. destruct (nth_error l i) as [y|] eqn:E; intros H;
    [|discriminate H].
  inversion H; subst. eapply nth_error_In. exact E.
Qed.

Lemma Forall2_map_r {A B C} (f : B -> C) (P : A -> C -> Prop) (l : list A) :
  forall l', Forall2 P l (map f l') <-> Forall2 (fun x y => P x (f y)) l l'.
Proof.
  induction l as [|x l IH]; intros [|y l']; split; intros H; inversion H; subst;
    constructor; try assumption; apply IH; assumption.
Qed.



Lemma Forall2_nth_error_r {A B} (P : A -> B -> Prop) l l' :
  Forall2 P l l' ->
  forall i y, nth_error l' i = Some y ->
              exists x, nth_error l i = Some x /\ P x y.
Proof.
  induction 1 as [|a b l l' Hab _ IH]; intros [|i] y Hy; simpl in Hy;
    try discriminate Hy.
  - inversion Hy; subst. exists a. split; [reflexivity | exact Hab].
  - apply IH. exact Hy.
Qed.

Lemma Forall2_compose {A B C} (P : A -> B -> Prop) (R : B -> C -> Prop)
    (l : list A) (l' : list B) (l'' : list C) :
  Forall2 P l l' -> Forall2 R l' l'' ->
  Forall2 (fun x z => exists y, P x y /\ R y z) l l''.
Proof.
  intros H. revert l''. induction H as [|a b l l' Hab _ IH]; intros l'' H';
    inversion H'; subst; constructor.
  - eexists. split; eassumption.
  - apply IH. assumption.
Qed.

Lemma nth_error_nth_default {A} (l : list A) i x d :
  nth_error l i = Some x -> nth i l d = x.
Proof. intros H. apply nth_error_nth. exact H. Qed.

Lemma nth_error_combine {A B} (l : list A) : forall (l' : list B) i x y,
  nth_error l i = Some x -> nth_error l' i = Some y ->
  nth_error (combine l l') i = Some (x, y).
Proof.
  induction l as [|a l IH]; intros [|b l'] [|i] x y Hx Hy; simpl in *;
    try discriminate.
  - inversion Hx; inversion Hy; reflexivity.
  - apply IH; assumption.
Qed.

Lemma mapR_length {A B} (f : A -> result B) (l : list A) ys :
  mapR f l = Ok ys -> length ys = length l.
Proof.
  intros H. apply mapR_Forall2 in H. symmetry.
  eapply Forall2_length_eq. exact H.
Qed.

Lemma last_In {A} (l : list A) d : l <> [] -> In (last l d) l.
Proof.
  induction l as [|x l IH]; intros H; [contradiction|].
  destruct l as [|y l]; [left; reflexivity|].
  right. apply IH. discriminate.
Qed.

Lemma mapR_exists {A B} (f : A -> result B) (l : list A) :
  (forall x, In x l -> exists y, f x = Ok y) -> exists ys, mapR f l = Ok ys.
Proof.
  induction l as [|x l IH]; intros H.
  - exists []. reflexivity.
  - destruct (H x (or_introl eq_refl)) as (y & Ey).
    destruct (IH (fun z Hz => H z (or_intror Hz))) as (ys & Eys).
    exists (y :: ys). simpl. rewrite Ey. simpl. rewrite Eys. reflexivity.
Qed.

Lemma nth_error_combine_inv {A B} (l : list A) : forall (l' : list B) i x y,
  nth_error (combine l l') i = Some (x, y) ->
  nth_error l i = Some x /\ nth_error l' i = Some y.
Proof.
  induction l as [|a l IH]; intros [|b l'] [|i] x y H; simpl in H;
    try discriminate H.
  - inversion H. split; reflexivity.
  - simpl. apply IH. exact H.
Qed.



(** ** Construction and configuration errors *)

Lemma existsb_string_eqb (s : string) (l : list string) :
  existsb (String.eqb s) l = true <-> In s l.
Proof.
  rewrite existsb_exists. split.
  - intros (x & Hx & E). apply String.eqb_eq in E. subst. exact Hx.
  - intros H. exists s. split; [exact H | apply String.eqb_refl].
Qed.

(** Claim C5.  Construction with one of the five supported mode strings
    yields the wrapper; construction with any other string raises the
    configuration error at once: no wrapper exists on which [forward]
    could be called, and no collaborator has been called. *)
Theorem init_validates_mode :
  forall loss_func mode perm_reduce t,
    (In mode supported_modes ->
       init loss_func mode perm_reduce t
       = (t, Ok {| loss_func := loss_func; pit_from := mode;
                   perm_reduce := perm_reduce |})) /\
    (~ In mode supported_modes ->
       init loss_func mode perm_reduce t = (t, Raise (ValueError unsupported_msg))).
Proof.
  intros lf mode pr t. unfold init. split; intros H.
  - apply existsb_string_eqb in H. rewrite H. reflexivity.
  - destruct (existsb (String.eqb mode) supported_modes) eqn:E.
    + apply existsb_string_eqb in E. contradiction.
    + reflexivity.
Qed.

Lemma init_validates_mode_witness :
  init batch_mse "mix_it_gen" None []
  = ([], Ok {| loss_func := batch_mse; pit_from := "mix_it_gen";
               perm_reduce := None |}) /\
  init batch_mse "pw_matrix" None [] = ([], Raise (ValueError unsupported_msg)).
Proof.
  split.
  - apply (proj1 (init_validates_mode batch_mse "mix_it_gen" None [])).
    simpl. tauto.
  - apply (proj2 (init_validates_mode batch_mse "pw_matrix" None [])).
    simpl. intros H.
    repeat (destruct H as [H | H]; [discriminate H|]). exact H.
Defined.

(** Claim C6, as the source has it.  The two leading assertions on the
    batch and time dimensions come before the configuration checks, and
    the remainder [n_est % n_mixtures] is taken before it is tested:
    with mismatched batch sizes an [AssertionError] is raised, and with
    no mixture at all a [ZeroDivisionError], where the claim has the
    configuration error. *)
Lemma partition_searches_other_errors_first :
  (3 mod 2 <> 0 /\
   best_part_mix_it exact_backend batch_mse [[[0%Q]; [0%Q]; [0%Q]]]
                    [[[0%Q]; [0%Q]]; [[0%Q]; [0%Q]]] []
   = ([], Raise (AssertionError None))) /\
  (3 <> 2 /\
   best_part_mix_it_generalized exact_backend batch_mse [[[0%Q]; [0%Q]; [0%Q]]]
                    [[[0%Q]; [0%Q]; [0%Q]]; [[0%Q]; [0%Q]; [0%Q]]] []
   = ([], Raise (AssertionError None))) /\
  best_part_mix_it exact_backend batch_mse [[[]]] [[]] [] = ([], Raise ZeroDivisionError) /\
  (forall msg,
     best_part_mix_it exact_backend batch_mse [[[0%Q]; [0%Q]; [0%Q]]]
                      [[[0%Q]; [0%Q]]; [[0%Q]; [0%Q]]] []
     <> ([], Raise (ValueError msg)) /\
     best_part_mix_it_generalized exact_backend batch_mse [[[0%Q]; [0%Q]; [0%Q]]]
                      [[[0%Q]; [0%Q]; [0%Q]]; [[0%Q]; [0%Q]; [0%Q]]] []
     <> ([], Raise (ValueError msg))).
Proof.
  split; [split; [discriminate | reflexivity]|].
  split; [split; [discriminate | reflexivity]|].
  split; [reflexivity|].
  intros msg. split; discriminate.
Qed.

(** Claim C6, amended.  With at least one mixture and [n_est] not a
    multiple of [n_mixtures], the equal-size search raises an error, and
    with [n_mixtures] other than 2 the generalized search raises an
    error; the trace is unchanged, so no partition has been evaluated,
    and nothing but the error comes back.  The error is the
    configuration error when the batch and time dimensions of estimates
    and targets agree, so that the two leading assertions pass. *)
Theorem partition_searches_reject_configuration :
  forall bk loss_func est_targets targets t,
    (shape1 targets <> 0 ->
     shape1 est_targets mod shape1 targets <> 0 ->
       exists e,
         best_part_mix_it bk loss_func est_targets targets t = (t, Raise e) /\
         (shape0 est_targets = shape0 targets ->
          shape2 est_targets = shape2 targets ->
          e = ValueError
                "The mixtures are assumed to contain the same number of sources")) /\
    (shape1 targets <> 2 ->
       exists e,
         best_part_mix_it_generalized bk loss_func est_targets targets t
         = (t, Raise e) /\
         (shape0 est_targets = shape0 targets ->
          shape2 est_targets = shape2 targets ->
          e = ValueError "Works only with two mixtures")).
Proof.
  intros bk lf est tgt t. split.
  - intros Hm Hr. unfold best_part_mix_it, bind, py_assert, py_mod.
    destruct (Nat.eqb_spec (shape0 est) (shape0 tgt)) as [E0|N0]; simpl.
    + destruct (Nat.eqb_spec (shape2 est) (shape2 tgt)) as [E2|N2]; simpl.
      * destruct (Nat.eqb_spec (shape1 tgt) 0) as [E|_]; [contradiction|]. simpl.
        destruct (Nat.eqb_spec (shape1 est mod shape1 tgt) 0) as [E|_];
          [contradiction|]. simpl.
        eexists. split; reflexivity.
      * eexists. split; [reflexivity | intros _ E2; contradiction].
    + eexists. split; [reflexivity | intros E0; contradiction].
  - intros Hm. unfold best_part_mix_it_generalized, bind, py_assert.
    destruct (Nat.eqb_spec (shape0 est) (shape0 tgt)) as [E0|N0]; simpl.
    + destruct (Nat.eqb_spec (shape2 est) (shape2 tgt)) as [E2|N2]; simpl.
      * destruct (Nat.eqb_spec (shape1 tgt) 2) as [E|_]; [contradiction|]. simpl.
        eexists. split; reflexivity.
      * eexists. split; [reflexivity | intros _ E2; contradiction].
    + eexists. split; [reflexivity | intros E0; contradiction].
Qed.

Lemma partition_searches_reject_configuration_witness :
  best_part_mix_it exact_backend batch_mse [[[1%Q]; [2%Q]; [3%Q]]] [[[3%Q]; [3%Q]]] []
  = ([], Raise (ValueError
       "The mixtures are assumed to contain the same number of sources")) /\
  best_part_mix_it_generalized exact_backend batch_mse [[[1%Q]; [2%Q]; [3%Q]]]
                               [[[3%Q]; [2%Q]; [1%Q]]] []
  = ([], Raise (ValueError "Works only with two mixtures")).
Proof.
  split.
  - destruct (proj1 (partition_searches_reject_configuration
                       exact_backend batch_mse [[[1%Q]; [2%Q]; [3%Q]]] [[[3%Q]; [3%Q]]] []))
      as (e & E & He).
    + simpl. discriminate.
    + simpl. discriminate.
    + rewrite E, He; reflexivity.
  - destruct (proj2 (partition_searches_reject_configuration
                       exact_backend batch_mse [[[1%Q]; [2%Q]; [3%Q]]]
                       [[[3%Q]; [2%Q]; [1%Q]]] []))
      as (e & E & He).
    + simpl. discriminate.
    + rewrite E, He; reflexivity.
Defined.

(** ** The precondition of [forward] on the number of sources *)

(** Claim C9.  With 10 sources or more along dimension 1 of the targets,
    [forward] fails on its first statement, before any collaborator is
    called; with fewer than 10 the assertion passes and [forward]
    continues with the dispatch on the mode. *)
Theorem forward_checks_source_count :
  forall bk solver self est_targets targets return_est t,
    (10 <= shape1 targets ->
       forward bk solver self est_targets targets return_est t
       = (t, Raise (AssertionError (Some (source_axis_msg (shape1 targets)))))) /\
    (shape1 targets < 10 ->
       forward bk solver self est_targets targets return_est t
       = forward_modes bk solver self est_targets targets return_est t).
Proof.
  intros bk solver self est tgt re t. unfold forward, bind, py_assert. split; intros H.
  - destruct (Nat.ltb_spec (shape1 tgt) 10) as [Hlt|_]; [lia | reflexivity].
  - destruct (Nat.ltb_spec (shape1 tgt) 10) as [_|Hge]; [reflexivity | lia].
Qed.

Lemma forward_checks_source_count_witness :
  forward exact_backend exhaustive_assignment
          {| loss_func := batch_mse; pit_from := "mix_it"; perm_reduce := None |}
          [repeat [0%Q] 10] [repeat [0%Q] 10] false []
  = ([], Raise (AssertionError
                  (Some "Expected source axis along dim 1, found 10"%string))) /\
  forward exact_backend exhaustive_assignment
          {| loss_func := batch_mse; pit_from := "mix_it"; perm_reduce := None |}
          [repeat [0%Q] 4] [repeat [0%Q] 2] false []
  = forward_modes exact_backend exhaustive_assignment
          {| loss_func := batch_mse; pit_from := "mix_it"; perm_reduce := None |}
          [repeat [0%Q] 4] [repeat [0%Q] 2] false [].
Proof.
  split.
  - apply (proj1 (forward_checks_source_count exact_backend exhaustive_assignment
             {| loss_func := batch_mse; pit_from := "mix_it"; perm_reduce := None |}
             [repeat [0%Q] 10] [repeat [0%Q] 10] false [])).
    cbv. lia.
  - apply (proj2 (forward_checks_source_count exact_backend exhaustive_assignment
             {| loss_func := batch_mse; pit_from := "mix_it"; perm_reduce := None |}
             [repeat [0%Q] 4] [repeat [0%Q] 2] false [])).
    cbv. lia.
Defined.

(** ** What [forward] returns in each mode *)

Ltac split_matches H :=
  repeat match type of H with
    | context [match ?x with _ => _ end] =>
        destruct x eqn:?; simpl in H; try discriminate H
    end.

Lemma forward_pairwise_without_est bk solver self est_targets targets pw t t' v :
  forward_pairwise bk solver self est_targets targets false pw t = (t', Ok v) ->
  exists pair_wise_losses min_loss batch_indices,
    pw = A3 pair_wise_losses /\
    find_best_perm bk solver pair_wise_losses (perm_reduce self) t
    = (t', Ok (min_loss, batch_indices)) /\
    v = Loss (tensor_mean bk min_loss).
Proof.
  unfold forward_pairwise. intros H.
  apply bind_inv in H. destruct H as (t1 & u1 & H1 & H).
  apply py_assert_inv in H1. destruct H1 as [-> _].
  apply bind_inv in H. destruct H as (t2 & pwl & H2 & H).
  apply lift_inv in H2. destruct H2 as [-> Epw].
  apply bind_inv in H. destruct H as (t3 & u3 & H3 & H).
  apply py_assert_inv in H3. destruct H3 as [-> _].
  apply bind_inv in H. destruct H as (t4 & [ml bi] & Hfind & H).
  cbn [negb fst snd] in H. apply ret_inv in H. destruct H as [-> ->].
  exists pwl, ml, bi. split; [|split; [exact Hfind | reflexivity]].
  destruct pw; try discriminate Epw. inversion Epw. reflexivity.
Qed.

(** Claim C10.  In the modes [mix_it] and [mix_it_gen] the flag
    [return_est] has no effect and whatever [forward] returns is the
    pair of the batch mean of the minimal losses and the reconstructed
    mixtures of the partition search.  In the modes [pw_mtx], [pw_pt]
    and [perm_avg] with [return_est=False] whatever it returns is one
    value alone, without estimates: the batch mean of the minimal
    losses that the search of the mode returns ([find_best_perm] on the
    pairwise losses of the callback or of [get_pw_losses], or
    [best_perm_from_perm_avg_loss]). *)
Theorem forward_return_shape :
  forall bk solver self est_targets targets t,
    (pit_from self = "mix_it"%string \/ pit_from self = "mix_it_gen"%string ->
       forward bk solver self est_targets targets true t
       = forward bk solver self est_targets targets false t /\
       forall return_est t' v,
         forward bk solver self est_targets targets return_est t = (t', Ok v) ->
         exists min_loss ordered,
           (if (pit_from self =? "mix_it")%string
            then best_part_mix_it bk (loss_func self) est_targets targets t
            else best_part_mix_it_generalized bk (loss_func self) est_targets targets t)
           = (t', Ok (min_loss, ordered)) /\
           v = LossAndEst (tensor_mean bk (concat min_loss)) ordered) /\
    (pit_from self = "pw_mtx"%string \/ pit_from self = "pw_pt"%string ->
       forall t' v,
         forward bk solver self est_targets targets false t = (t', Ok v) ->
         exists t1 pair_wise_losses min_loss batch_indices,
           (if (pit_from self =? "pw_mtx")%string
            then call_loss (loss_func self) (A3 est_targets) (A3 targets) t
                 = (t1, Ok (A3 pair_wise_losses))
            else get_pw_losses bk (loss_func self) est_targets targets t
                 = (t1, Ok pair_wise_losses)) /\
           find_best_perm bk solver pair_wise_losses (perm_reduce self) t1
           = (t', Ok (min_loss, batch_indices)) /\
           v = Loss (tensor_mean bk min_loss)) /\
    (pit_from self = "perm_avg"%string ->
       forall t' v,
         forward bk solver self est_targets targets false t = (t', Ok v) ->
         exists min_loss batch_indices,
           best_perm_from_perm_avg_loss (loss_func self) est_targets targets t
           = (t', Ok (min_loss, batch_indices)) /\
           v = Loss (tensor_mean bk min_loss)).
Proof.
  intros bk solver self est tgt t. split; [|split].
  - intros Hmode. split.
    + unfold forward, forward_modes.
      destruct Hmode as [-> | ->]; reflexivity.
    + intros re t' v H. unfold forward, forward_modes, bind, py_assert in H.
      destruct (shape1 tgt <? 10); [|discriminate H]. simpl in H.
      destruct Hmode as [Hm | Hm]; rewrite Hm in *; simpl in H |- *.
      * destruct (best_part_mix_it bk (loss_func self) est tgt t)
          as [t1 [[ml ord]|e]] eqn:E; [|discriminate H].
        unfold ret in H. simpl in H. inversion H; subst.
        exists ml, ord. split; reflexivity.
      * destruct (best_part_mix_it_generalized bk (loss_func self) est tgt t)
          as [t1 [[ml ord]|e]] eqn:E; [|discriminate H].
        unfold ret in H. simpl in H. inversion H; subst.
        exists ml, ord. split; reflexivity.
  - intros Hmode t' v H. unfold forward in H.
    apply bind_inv in H. destruct H as (t0 & u0 & H0 & H).
    apply py_assert_inv in H0. destruct H0 as [-> _].
    unfold forward_modes in H.
    destruct Hmode as [Hm | Hm]; rewrite Hm in H |- *; simpl in H |- *.
    + apply bind_inv in H. destruct H as (t1 & pw & Hcall & H).
      apply forward_pairwise_without_est in H.
      destruct H as (pwl & ml & bi & -> & Hfind & ->).
      exists t1, pwl, ml, bi. repeat split; assumption.
    + apply bind_inv in H. destruct H as (t1 & pwl' & Hget & H).
      apply forward_pairwise_without_est in H.
      destruct H as (pwl & ml & bi & Epw & Hfind & ->).
      inversion Epw; subst pwl'.
      exists t1, pwl, ml, bi. repeat split; assumption.
  - intros Hm t' v H. unfold forward in H.
    apply bind_inv in H. destruct H as (t0 & u0 & H0 & H).
    apply py_assert_inv in H0. destruct H0 as [-> _].
    unfold forward_modes in H. rewrite Hm in H. simpl in H.
    apply bind_inv in H. destruct H as (t1 & [ml bi] & Hfound & H).
    cbn [negb fst snd] in H. apply ret_inv in H. destruct H as [-> ->].
    exists ml, bi. split; [exact Hfound | reflexivity].
Qed.

Lemma forward_return_shape_witness :
  forward exact_backend exhaustive_assignment (example_wrapper batch_mse "mix_it")
          example_estimates4 example_targets true []
  = forward exact_backend exhaustive_assignment (example_wrapper batch_mse "mix_it")
          example_estimates4 example_targets false [] /\
  (exists min_loss ordered,
     best_part_mix_it exact_backend batch_mse example_estimates4 example_targets []
     = (repeat LossCall 6, Ok (min_loss, ordered)) /\
     LossAndEst (0 # 128) example_targets
     = LossAndEst (tensor_mean exact_backend (concat min_loss)) ordered) /\
  (exists t1 pair_wise_losses min_loss batch_indices,
     call_loss pairwise_mse (A3 example_estimates) (A3 example_targets) []
     = (t1, Ok (A3 pair_wise_losses)) /\
     find_best_perm exact_backend exhaustive_assignment pair_wise_losses None t1
     = ([LossCall], Ok (min_loss, batch_indices)) /\
     Loss (0 # 2048) = Loss (tensor_mean exact_backend min_loss)) /\
  (exists min_loss batch_indices,
     best_perm_from_perm_avg_loss batch_mse example_estimates example_targets []
     = (repeat LossCall 2, Ok (min_loss, batch_indices)) /\
     Loss (0 # 128) = Loss (tensor_mean exact_backend min_loss)).
Proof.
  split; [|split; [|split]].
  - apply (proj1 (forward_return_shape exact_backend exhaustive_assignment
                    (example_wrapper batch_mse "mix_it")
                    example_estimates4 example_targets [])).
    left. reflexivity.
  - apply (proj2 (proj1 (forward_return_shape exact_backend exhaustive_assignment
                    (example_wrapper batch_mse "mix_it")
                    example_estimates4 example_targets []) (or_introl eq_refl))
             false (repeat LossCall 6) (LossAndEst (0 # 128) example_targets)).
    vm_compute. reflexivity.
  - apply (proj1 (proj2 (forward_return_shape exact_backend exhaustive_assignment
                    (example_wrapper pairwise_mse "pw_mtx")
                    example_estimates example_targets [])) (or_introl eq_refl)
             [LossCall] (Loss (0 # 2048))).
    vm_compute. reflexivity.
  - apply (proj2 (proj2 (forward_return_shape exact_backend exhaustive_assignment
                    (example_wrapper batch_mse "perm_avg")
                    example_estimates example_targets [])) eq_refl
             (repeat LossCall 2) (Loss (0 # 128))).
    vm_compute. reflexivity.
Defined.

(** ** The dispatch of [find_best_perm] *)

Ltac split_goal_matches :=
  repeat match goal with
    | |- context [match ?x with _ => _ end] => destruct x; simpl
    end.

Lemma find_best_perm_factorial_trace bk pair_wise_losses reduce t :
  exists calls,
    fst (find_best_perm_factorial bk pair_wise_losses reduce t) = t ++ calls /\
    ~ In SolverCall calls.
Proof.
  unfold find_best_perm_factorial, factorial_loss_set, bind, lift, ret, emit.
  destruct reduce as [reduce|]; simpl.
  - destruct (pwl_select _ _ _) as [pwl_set|e]; simpl.
    + exists [ReduceCall].
      split; [split_goal_matches; reflexivity | simpl; intuition discriminate].
    + exists []. rewrite app_nil_r. split; [reflexivity | intros []].
  - exists []. rewrite app_nil_r. split; [|intros []].
    destruct (einsum_bij_pij_bp _ _ _); simpl; split_goal_matches; reflexivity.
Qed.

Lemma solver_calls_extend (solver : matrix -> result (list nat * list nat)) :
  forall (ms : list matrix) t,
    exists calls,
      fst (mapM (fun m => emit SolverCall ;; a <- lift (solver m) ;; ret (snd a))
                ms t)
      = t ++ calls /\
      (ms <> [] -> exists calls', calls = SolverCall :: calls').
Proof.
  induction ms as [|m ms IH]; intros t.
  - exists []. simpl. rewrite app_nil_r. split; [reflexivity | contradiction].
  - cbn [mapM]. unfold bind at 1.
    assert (Hm : (emit SolverCall ;; a <- lift (solver m) ;; ret (snd a)) t
                 = (t ++ [SolverCall],
                    match solver m with Ok a => Ok (snd a) | Raise e => Raise e end)).
    { unfold bind, emit, lift, ret. destruct (solver m); reflexivity. }
    rewrite Hm. destruct (solver m) as [a|e].
    + unfold bind at 1. destruct (IH (t ++ [SolverCall])) as (calls & E & _).
      destruct (mapM _ ms (t ++ [SolverCall])) as [t1 [ys|e]]; simpl in E; subst t1;
        simpl; rewrite <- app_assoc; eexists; (split; [reflexivity|]);
        intros _; eexists; reflexivity.
    + simpl. eexists. split; [reflexivity|]. intros _. eexists. reflexivity.
Qed.

Lemma find_best_perm_hungarian_trace bk solver pair_wise_losses t :
  pair_wise_losses <> [] ->
  exists calls,
    fst (find_best_perm_hungarian bk solver pair_wise_losses t)
    = t ++ SolverCall :: calls.
Proof.
  intros Hne. unfold find_best_perm_hungarian. unfold bind at 1.
  destruct (solver_calls_extend solver
              (map (transpose 0%Q (shape2 pair_wise_losses)) pair_wise_losses) t)
    as (calls & E & Hfirst).
  destruct Hfirst as (calls' & ->).
  { intros Hnil. apply map_eq_nil in Hnil. contradiction. }
  destruct (mapM _ _ t) as [t1 [bi|e]]; simpl in E; subst t1.
  - unfold bind, lift, ret. split_goal_matches; eexists; reflexivity.
  - eexists. reflexivity.
Qed.

(** Claim C2.  [find_best_perm] is the factorial search when a
    reduction function is given or [n_src <= 3], and the matching
    search in every other case.  Its outcome, a raised error included,
    is the outcome of the selected search: when the factorial search is
    selected the assignment solver is never called, and when the
    matching search is selected on a batch with at least one row the
    first call is to the solver. *)
Theorem find_best_perm_dispatch :
  forall bk solver pair_wise_losses reduce t,
    (reduce <> None \/ shape2 pair_wise_losses <= 3 ->
       find_best_perm bk solver pair_wise_losses reduce t
       = find_best_perm_factorial bk pair_wise_losses reduce t /\
       exists calls,
         fst (find_best_perm bk solver pair_wise_losses reduce t) = t ++ calls /\
         ~ In SolverCall calls) /\
    (reduce = None /\ 3 < shape2 pair_wise_losses ->
       find_best_perm bk solver pair_wise_losses reduce t
       = find_best_perm_hungarian bk solver pair_wise_losses t /\
       exists calls,
         fst (find_best_perm bk solver pair_wise_losses reduce t)
         = t ++ SolverCall :: calls).
Proof.
  intros bk solver pwl reduce t. unfold find_best_perm. split.
  - intros H.
    assert ((match reduce with Some _ => true | None => false end)
            || (shape2 pwl <=? 3) = true) as ->.
    { destruct H as [H | H].
      - destruct reduce; [reflexivity | contradiction].
      - apply Nat.leb_le in H. rewrite H. apply orb_true_r. }
    split; [reflexivity|].
    apply find_best_perm_factorial_trace.
  - intros [-> H]. simpl.
    destruct (Nat.leb_spec (shape2 pwl) 3) as [Hle|_]; [lia|].
    split; [reflexivity|].
    apply find_best_perm_hungarian_trace.
    intros ->. unfold shape2 in H. simpl in H. lia.
Qed.

Lemma find_best_perm_dispatch_witness :
  find_best_perm exact_backend exhaustive_assignment
                 [[[0; 1; 1]; [1; 0; 1]; [1; 1; 0]]]%Q None []
  = find_best_perm_factorial exact_backend [[[0; 1; 1]; [1; 0; 1]; [1; 1; 0]]]%Q None [] /\
  find_best_perm exact_backend exhaustive_assignment
                 [[[0; 1; 1; 1]; [1; 0; 1; 1]; [1; 1; 0; 1]; [1; 1; 1; 0]]]%Q
                 None []
  = find_best_perm_hungarian exact_backend exhaustive_assignment
                 [[[0; 1; 1; 1]; [1; 0; 1; 1]; [1; 1; 0; 1]; [1; 1; 1; 0]]]%Q [].
Proof.
  split.
  - apply (proj1 (find_best_perm_dispatch exact_backend exhaustive_assignment
                    [[[0; 1; 1]; [1; 0; 1]; [1; 1; 0]]]%Q None [])).
    right. cbv. lia.
  - apply (proj2 (find_best_perm_dispatch exact_backend exhaustive_assignment
                    [[[0; 1; 1; 1]; [1; 0; 1; 1]; [1; 1; 0; 1]; [1; 1; 1; 0]]]%Q
                    None [])).
    split; [reflexivity | cbv; lia].
Defined.

(** ** Reordering *)




Lemma stack_rows_ok {A} (rows : list (list A)) n :
  rows <> [] -> Forall (fun r => length r = n) rows -> stack_rows rows = Ok rows.
Proof.
  intros Hne Hlen. unfold stack_rows.
  destruct rows as [|r rows']; [contradiction|].
  assert (forallb (fun r' : list A => length r' =? length r) (r :: rows') = true)
    as ->; [|reflexivity].
  apply forallb_forall. intros r' Hr'. apply Nat.eqb_eq.
  rewrite Forall_forall in Hlen.
  rewrite (Hlen r' Hr'), (Hlen r (or_introl eq_refl)). reflexivity.
Qed.

Lemma stack_rows_inv {A} (rows out : list (list A)) :
  stack_rows rows = Ok out ->
  out = rows /\ rows <> [] /\
  Forall (fun r => length r = length (hd [] rows)) rows.
Proof.
  unfold stack_rows. destruct rows as [|r rows']; [discriminate|].
  destruct (forallb _ _) eqn:E; [|discriminate].
  intros H. inversion H. split; [reflexivity|]. split; [discriminate|].
  apply Forall_forall. intros r' Hr'. rewrite forallb_forall in E.
  apply Nat.eqb_eq. apply E. exact Hr'.
Qed.

Lemma stack_rows_empty {A} : stack_rows (@nil (list A)) = Raise RuntimeError.
Proof. reflexivity. Qed.



(** Claim C7, as the source has it.  A source tensor without a batch
    row is not reordered: [torch.stack] refuses the empty list of rows,
    and the identity reordering of that tensor does not return it. *)
Lemma reorder_source_refuses_empty_batch :
  reorder_source (@nil (list vector)) [] = Raise RuntimeError /\
  reorder_source (@nil (list vector))
                 (map (fun s => range (length s)) (@nil (list vector)))
  <> Ok [].
Proof. split; [reflexivity | discriminate]. Qed.



(** ** The permutation generator *)

Lemma selections_sound {A} (l : list A) : forall x r,
  In (x, r) (selections l) -> Permutation (x :: r) l.
Proof.
  induction l as [|a l IH]; intros x r H; simpl in H; [destruct H|].
  destruct H as [H | H].
  - inversion H; subst. reflexivity.
  - apply in_map_iff in H. destruct H as ([y r'] & E & Hy).
    simpl in E. inversion E; subst.
    etransitivity; [apply perm_swap|]. constructor. apply IH. exact Hy.
Qed.

Lemma selections_complete {A} (l : list A) : forall x,
  In x l -> exists r, In (x, r) (selections l).
Proof.
  induction l as [|a l IH]; intros x H; [destruct H|].
  destruct H as [-> | H].
  - exists l. left. reflexivity.
  - destruct (IH x H) as (r & Hr). exists (a :: r). right.
    apply in_map_iff. exists (x, r). split; [reflexivity | exact Hr].
Qed.

Lemma selections_length {A} (l : list A) : length (selections l) = length l.
Proof.
  induction l as [|a l IH]; simpl; [reflexivity|].
  rewrite length_map, IH. reflexivity.
Qed.

Lemma permutations_upto_sound {A} k : forall (l p : list A),
  length l = k -> In p (permutations_upto k l) -> Permutation p l.
Proof.
  induction k as [|k IH]; intros l p Hl Hp; simpl in Hp.
  - destruct Hp as [<- | []]. destruct l; [reflexivity | discriminate Hl].
  - apply in_flat_map in Hp. destruct Hp as ([x r] & Hs & Hp). simpl in Hp.
    apply in_map_iff in Hp. destruct Hp as (p' & <- & Hp').
    pose proof (selections_sound _ _ _ Hs) as Hperm.
    pose proof (Permutation_length Hperm) as Hlen. simpl in Hlen.
    etransitivity; [|exact Hperm]. constructor. apply IH; [lia | exact Hp'].
Qed.

Lemma permutations_upto_complete {A} k : forall (l p : list A),
  length l = k -> Permutation p l -> In p (permutations_upto k l).
Proof.
  induction k as [|k IH]; intros l p Hl Hp; simpl.
  - destruct l; [|discriminate Hl]. symmetry in Hp.
    apply Permutation_nil in Hp. left. symmetry. exact Hp.
  - destruct p as [|x p'].
    + apply Permutation_length in Hp. simpl in Hp. lia.
    + assert (In x l) as Hx by (eapply Permutation_in; [exact Hp | left; reflexivity]).
      destruct (selections_complete l x Hx) as (r & Hr).
      pose proof (selections_sound _ _ _ Hr) as Hperm.
      apply in_flat_map. exists (x, r). split; [exact Hr|]. simpl.
      apply in_map. apply IH.
      * apply Permutation_length in Hperm. simpl in Hperm. lia.
      * eapply Permutation_cons_inv. etransitivity; [exact Hp|].
        symmetry. exact Hperm.
Qed.

Lemma permutations_spec {A} (l p : list A) :
  In p (permutations l) <-> Permutation p l.
Proof.
  unfold permutations. split.
  - apply permutations_upto_sound. reflexivity.
  - apply permutations_upto_complete. reflexivity.
Qed.

Lemma permutations_upto_length {A} k : forall (l : list A),
  length l = k -> length (permutations_upto k l) = fact k.
Proof.
  induction k as [|k IH]; intros l Hl; simpl; [reflexivity|].
  rewrite flat_map_length_const with (m := fact k).
  - rewrite selections_length, Hl. reflexivity.
  - intros [x r] Hs. simpl. rewrite length_map. apply IH.
    pose proof (Permutation_length (selections_sound _ _ _ Hs)) as E.
    simpl in E. lia.
Qed.

Lemma permutations_length {A} (l : list A) :
  length (permutations l) = fact (length l).
Proof. apply permutations_upto_length. reflexivity. Qed.

Lemma permutations_range n p :
  In p (permutations (range n)) ->
  length p = n /\ Forall (fun c => c < n) p.
Proof.
  intros H. apply permutations_spec in H. split.
  - rewrite (Permutation_length H). apply range_length.
  - apply Forall_forall. intros c Hc.
    apply (Permutation_in _ H) in Hc. apply in_seq in Hc. lia.
Qed.

(** ** Minimum with first occurrence *)

Lemma min_scan_spec : forall l best best_i i v m,
  min_scan best best_i i l = (v, m) ->
  best_i < i ->
  (v <= best)%Q /\
  (forall j y, nth_error l j = Some y -> (v <= y)%Q) /\
  ((m = best_i /\ v = best /\
    forall j y, nth_error l j = Some y -> (best <= y)%Q)
   \/
   (i <= m /\ nth_error l (m - i) = Some v /\ (v < best)%Q /\
    forall j y, nth_error l j = Some y -> j < m - i -> (v < y)%Q)).
Proof.
  induction l as [|x l IH]; intros best bi i v m H Hlt; simpl in H.
  - inversion H; subst. split; [apply Qle_refl|]. split.
    + intros [|j] y Hy; discriminate Hy.
    + left. repeat split. intros [|j] y Hy; discriminate Hy.
  - destruct (x ?= best)%Q eqn:C.
    + apply Qeq_alt in C.
      destruct (IH _ _ _ _ _ H ltac:(lia)) as (Hb & Hall & Hcase).
      split; [exact Hb|]. split.
      * intros [|j] y Hy; simpl in Hy.
        -- inversion Hy; subst. rewrite C. exact Hb.
        -- eapply Hall; eauto.
      * destruct Hcase as [(-> & -> & Hge) | (Hi & Hn & Hv & Hbefore)].
        -- left. repeat split. intros [|j] y Hy; simpl in Hy.
           ++ inversion Hy; subst. rewrite C. apply Qle_refl.
           ++ eapply Hge; eauto.
        -- right. split; [lia|]. replace (m - i) with (S (m - S i)) by lia.
           split; [exact Hn|]. split; [exact Hv|].
           intros [|j] y Hy Hj; simpl in Hy.
           ++ inversion Hy; subst. rewrite C. exact Hv.
           ++ eapply Hbefore; eauto. lia.
    + apply Qlt_alt in C.
      destruct (IH _ _ _ _ _ H ltac:(lia)) as (Hb & Hall & Hcase).
      split; [apply Qle_trans with x; [exact Hb | apply Qlt_le_weak, C]|].
      split.
      * intros [|j] y Hy; simpl in Hy.
        -- inversion Hy; subst. exact Hb.
        -- eapply Hall; eauto.
      * right. destruct Hcase as [(-> & -> & Hge) | (Hi & Hn & Hv & Hbefore)].
        -- split; [lia|]. rewrite Nat.sub_diag. split; [reflexivity|].
           split; [exact C|]. intros j y _ Hj. lia.
        -- split; [lia|]. replace (m - i) with (S (m - S i)) by lia.
           split; [exact Hn|].
           split; [apply Qlt_trans with x; assumption|].
           intros [|j] y Hy Hj; simpl in Hy.
           ++ inversion Hy; subst. exact Hv.
           ++ eapply Hbefore; eauto. lia.
    + apply Qgt_alt in C.
      destruct (IH _ _ _ _ _ H ltac:(lia)) as (Hb & Hall & Hcase).
      split; [exact Hb|]. split.
      * intros [|j] y Hy; simpl in Hy.
        -- inversion Hy; subst.
           apply Qle_trans with best; [exact Hb | apply Qlt_le_weak, C].
        -- eapply Hall; eauto.
      * destruct Hcase as [(-> & -> & Hge) | (Hi & Hn & Hv & Hbefore)].
        -- left. repeat split. intros [|j] y Hy; simpl in Hy.
           ++ inversion Hy; subst. apply Qlt_le_weak, C.
           ++ eapply Hge; eauto.
        -- right. split; [lia|]. replace (m - i) with (S (m - S i)) by lia.
           split; [exact Hn|]. split; [exact Hv|].
           intros [|j] y Hy Hj; simpl in Hy.
           ++ inversion Hy; subst. apply Qlt_trans with best; assumption.
           ++ eapply Hbefore; eauto. lia.
Qed.

Lemma torch_min_first row v m :
  torch_min row = Ok (v, m) -> first_min row v m.
Proof.
  destruct row as [|x xs]; simpl; intros H; [discriminate H|].
  inversion H as [E]. clear H.
  destruct (min_scan_spec _ _ _ _ _ _ E ltac:(lia)) as (Hb & Hall & Hcase).
  unfold first_min.
  destruct Hcase as [(-> & -> & Hge) | (Hi & Hn & Hv & Hbefore)].
  - split; [reflexivity|]. split.
    + intros [|j] y Hy; simpl in Hy.
      * inversion Hy; subst. apply Qle_refl.
      * eapply Hge; eauto.
    + intros j y _ Hj. lia.
  - split.
    + destruct m as [|m]; [lia|]. simpl.
      replace (S m - 1) with m in Hn by lia. exact Hn.
    + split.
      * intros [|j] y Hy; simpl in Hy.
        -- inversion Hy; subst. exact Hb.
        -- eapply Hall; eauto.
      * intros [|j] y Hy Hj; simpl in Hy.
        -- inversion Hy; subst. exact Hv.
        -- eapply Hbefore; [exact Hy | lia].
Qed.

Lemma torch_min_nonempty row :
  row <> [] -> exists v m, torch_min row = Ok (v, m).
Proof.
  destruct row as [|x xs]; intros H; [contradiction|]. simpl.
  destruct (min_scan x 0 1 xs) as [v m]. exists v, m. reflexivity.
Qed.

Lemma first_min_lt row v m : first_min row v m -> m < length row.
Proof. intros (H & _). apply nth_error_Some. rewrite H. discriminate. Qed.

(** ** Results of [mapR] *)

Lemma row_minima_first (loss_set : matrix) :
  Forall (fun row => row <> []) loss_set ->
  exists mins,
    row_minima loss_set = Ok mins /\
    Forall2 (fun row vm => first_min row (fst vm) (snd vm)) loss_set mins.
Proof.
  unfold row_minima. induction 1 as [|row rows Hrow _ IH].
  - exists []. split; [reflexivity | constructor].
  - destruct IH as (mins & E & HF).
    destruct (torch_min_nonempty row Hrow) as (v & m & Em).
    exists ((v, m) :: mins). simpl. rewrite Em. simpl. rewrite E. simpl.
    split; [reflexivity|]. constructor; [|exact HF].
    apply torch_min_first. exact Em.
Qed.

(** ** Ties in the factorial search *)

Lemma selected_perms_total n (mins : list (Q * nat)) :
  mins <> [] ->
  Forall (fun vm => snd vm < length (permutations (range n))) mins ->
  selected_perms (permutations (range n)) mins
  = Ok (map (fun vm => nth (snd vm) (permutations (range n)) []) mins).
Proof.
  intros Hne Hlt. unfold selected_perms.
  rewrite (mapR_total (fun m => get (permutations (range n)) (snd m))
             (fun vm => nth (snd vm) (permutations (range n)) [])).
  - simpl. apply (stack_rows_ok _ n).
    + intros E. apply map_eq_nil in E. contradiction.
    + apply Forall_forall. intros p Hp. apply in_map_iff in Hp.
      destruct Hp as (vm & <- & Hvm). rewrite Forall_forall in Hlt.
      destruct (permutations_range n (nth (snd vm) (permutations (range n)) []))
        as [Hlen _]; [apply nth_In, Hlt, Hvm | exact Hlen].
  - intros vm Hvm. apply get_nth. rewrite Forall_forall in Hlt.
    apply Hlt. exact Hvm.
Qed.

Lemma factorial_search_result :
  forall bk pair_wise_losses reduce t t' loss_set,
    let perms := permutations (range (shape2 pair_wise_losses)) in
    factorial_loss_set bk pair_wise_losses reduce t = (t', Ok loss_set) ->
    loss_set <> [] ->
    Forall (fun row => length row = length perms) loss_set ->
    exists mins,
      find_best_perm_factorial bk pair_wise_losses reduce t
      = (t', Ok (map fst mins, map (fun vm => nth (snd vm) perms []) mins)) /\
      Forall2 (fun row vm =>
                 snd vm < length perms /\
                 first_min row (fst vm) (snd vm) /\
                 forall j score, nth_error row j = Some score ->
                                 (score == fst vm)%Q -> snd vm <= j)
              loss_set mins.
Proof.
  intros bk pwl reduce t t' loss_set perms Hls Hbatch Hlen.
  assert (Hne : Forall (fun row : list Q => row <> []) loss_set).
  { eapply Forall_impl; [|exact Hlen]. intros row E Hnil. subst row.
    simpl in E. unfold perms in E. rewrite permutations_length in E.
    pose proof (fact_neq_0 (length (range (shape2 pwl)))). lia. }
  destruct (row_minima_first loss_set Hne) as (mins & Emins & HF).
  assert (HF' : Forall2 (fun row vm =>
                 snd vm < length perms /\
                 first_min row (fst vm) (snd vm) /\
                 forall j score, nth_error row j = Some score ->
                                 (score == fst vm)%Q -> snd vm <= j)
              loss_set mins).
  { clear Emins Hls Hne Hbatch. induction HF as [|row vm rows mins Hfm _ IH].
    - constructor.
    - inversion Hlen as [|? ? Hrow Hrest]; subst. constructor; [|apply IH, Hrest].
      split; [rewrite <- Hrow; eapply first_min_lt; exact Hfm|].
      split; [exact Hfm|].
      intros j score Hj Heq. destruct (Nat.le_gt_cases (snd vm) j) as [|Hlt];
        [assumption|].
      destruct Hfm as (_ & _ & Hbefore).
      specialize (Hbefore j score Hj Hlt). rewrite Heq in Hbefore.
      exfalso. eapply Qlt_irrefl. exact Hbefore. }
  exists mins. split; [|exact HF'].
  unfold find_best_perm_factorial, bind. fold perms. rewrite Hls.
  unfold lift. rewrite Emins.
  unfold perms. rewrite selected_perms_total.
  - reflexivity.
  - intros ->. inversion HF'. subst. contradiction.
  - clear - HF'. induction HF' as [|row vm rows mins Hh _ IH];
      constructor; [apply Hh | exact IH].
Qed.

(** Claim C8.  Let [loss_set] hold the score of every permutation of
    [range(n_src)], in the order of the permutation generator, for every
    row of a batch with at least one row, as the backend computed them
    or as the reduction returned them.  The factorial search returns for
    each row the least score and the permutation at the first position
    where that score occurs: every permutation before it scores strictly
    more, so that among permutations with the same minimal score the
    first of the enumeration is selected. *)
Theorem find_best_perm_factorial_first_minimum :
  forall bk pair_wise_losses reduce t t' loss_set,
    let perms := permutations (range (shape2 pair_wise_losses)) in
    factorial_loss_set bk pair_wise_losses reduce t = (t', Ok loss_set) ->
    loss_set <> [] ->
    Forall (fun row => length row = length perms) loss_set ->
    exists mins,
      find_best_perm_factorial bk pair_wise_losses reduce t
      = (t', Ok (map fst mins, map (fun vm => nth (snd vm) perms []) mins)) /\
      Forall2 (fun row vm =>
                 snd vm < length perms /\
                 first_min row (fst vm) (snd vm) /\
                 forall j score, nth_error row j = Some score ->
                                 (score == fst vm)%Q -> snd vm <= j)
              loss_set mins.
Proof.
  intros bk pwl reduce t t' loss_set perms. apply factorial_search_result.
Qed.

Lemma find_best_perm_factorial_first_minimum_witness :
  (exists mins,
     find_best_perm_factorial exact_backend
       [[[1; 0; 5]; [0; 1; 0]; [0; 0; 0]]]%Q None []
     = ([], Ok (map fst mins,
                map (fun vm => nth (snd vm) (permutations (range 3)) []) mins)) /\
     Forall2 (fun row vm =>
                snd vm < length (permutations (range 3)) /\
                first_min row (fst vm) (snd vm) /\
                forall j score, nth_error row j = Some score ->
                                (score == fst vm)%Q -> snd vm <= j)
             [[2 # 3; 1 # 3; 0 # 3; 5 # 3; 0 # 3; 6 # 3]]%Q mins) /\
  (exists mins,
     find_best_perm_factorial (coarse_backend 16) [[[16; 16]; [0; 1]]]%Q None []
     = ([], Ok (map fst mins,
                map (fun vm => nth (snd vm) (permutations (range 2)) []) mins)) /\
     Forall2 (fun row vm =>
                snd vm < length (permutations (range 2)) /\
                first_min row (fst vm) (snd vm) /\
                forall j score, nth_error row j = Some score ->
                                (score == fst vm)%Q -> snd vm <= j)
             [[16 # 2; 16 # 2]]%Q mins).
Proof.
  split.
  - apply (find_best_perm_factorial_first_minimum exact_backend
             [[[1; 0; 5]; [0; 1; 0]; [0; 0; 0]]]%Q None [] []
             [[2 # 3; 1 # 3; 0 # 3; 5 # 3; 0 # 3; 6 # 3]]%Q).
    + reflexivity.
    + discriminate.
    + repeat constructor.
  - apply (find_best_perm_factorial_first_minimum (coarse_backend 16)
             [[[16; 16]; [0; 1]]]%Q None [] [] [[16 # 2; 16 # 2]]%Q).
    + reflexivity.
    + discriminate.
    + repeat constructor.
Defined.

(** ** Scores of the factorial search and costs of assignments *)

Lemma sumQ_ext {A} (f g : A -> Q) (l : list A) :
  (forall x, In x l -> (f x == g x)%Q) ->
  (sumQ (map f l) == sumQ (map g l))%Q.
Proof.
  induction l as [|x l IH]; intros H; simpl; [reflexivity|].
  rewrite (H x) by (left; reflexivity).
  rewrite IH by (intros y Hy; apply H; right; exact Hy). reflexivity.
Qed.

Lemma combine_map_r {A B C} (f : B -> C) (l : list A) : forall (l' : list B),
  combine l (map f l') = map (fun p => (fst p, f (snd p))) (combine l l').
Proof.
  induction l as [|x l IH]; intros [|y l']; simpl; try reflexivity.
  rewrite IH. reflexivity.
Qed.

Lemma sumQ_cons (x : Q) (l : list Q) : sumQ (x :: l) = (x + sumQ l)%Q.
Proof. reflexivity. Qed.

Lemma dot_indicator (k : nat) : forall (row : vector) (s : nat),
  (sumQ (map (fun p => fst p * snd p)
             (combine row (map (fun j => if j =? k then 1 else 0)
                               (seq s (length row)))))
   == if (s <=? k) && (k <? s + length row) then nth (k - s) row 0 else 0)%Q.
Proof.
  induction row as [|x row IH]; intros s.
  - cbn [length seq map combine sumQ fold_right].
    destruct ((s <=? k) && (k <? s + 0)) eqn:E; [|reflexivity].
    apply andb_prop in E. destruct E as [E1 E2].
    apply Nat.leb_le in E1. apply Nat.ltb_lt in E2. lia.
  - cbn [length seq map combine]. rewrite sumQ_cons. cbn [fst snd].
    rewrite IH.
    destruct (Nat.eqb_spec s k) as [->|Hne].
    + rewrite Nat.sub_diag, Nat.leb_refl.
      assert ((k <? k + S (length row)) = true) as ->
        by (apply Nat.ltb_lt; lia).
      assert ((S k <=? k) = false) as -> by (apply Nat.leb_gt; lia).
      cbn [andb nth]. ring.
    + destruct (Nat.leb_spec s k) as [Hle|Hgt].
      * assert ((S s <=? k) = true) as -> by (apply Nat.leb_le; lia).
        replace (s + S (length row)) with (S s + length row) by lia.
        cbn [andb]. destruct (k <? S s + length row).
        -- replace (k - s) with (S (k - S s)) by lia. cbn [nth]. ring.
        -- ring.
      * assert ((S s <=? k) = false) as -> by (apply Nat.leb_gt; lia).
        cbn [andb]. ring.
Qed.

Lemma dot_one_hot (n k : nat) (row : vector) :
  length row = n -> k < n -> (dot row (one_hot n k) == nth k row 0)%Q.
Proof.
  intros Hl Hk. unfold dot, one_hot, range. subst n.
  rewrite dot_indicator. cbn [Nat.leb Nat.add andb].
  assert ((k <? length row) = true) as -> by (apply Nat.ltb_lt; exact Hk).
  rewrite Nat.sub_0_r. reflexivity.
Qed.

Lemma enumerate_rows (p : list nat) : forall (pre m : matrix),
  length p <= length m ->
  map (fun ic => nth (snd ic) (nth (fst ic) (pre ++ m) []) 0%Q)
      (combine (seq (length pre) (length p)) p)
  = map (fun rc => nth (snd rc) (fst rc) 0%Q) (combine m p).
Proof.
  induction p as [|c p IH]; intros pre m Hl; simpl.
  - destruct m; reflexivity.
  - destruct m as [|r m]; simpl in Hl; [lia|]. simpl.
    rewrite app_nth2, Nat.sub_diag by lia. simpl. f_equal.
    specialize (IH (pre ++ [r]) m ltac:(lia)).
    rewrite <- app_assoc, length_app in IH. simpl in IH.
    rewrite Nat.add_1_r in IH. exact IH.
Qed.

Lemma assignment_cost_rows (m : matrix) (p : list nat) :
  length p <= length m ->
  assignment_cost m p
  = sumQ (map (fun rc => nth (snd rc) (fst rc) 0%Q) (combine m p)).
Proof.
  intros H. unfold assignment_cost, enumerate, range.
  exact (f_equal sumQ (enumerate_rows p [] m H)).
Qed.

Lemma perm_score_cost (n : nat) (m : matrix) (p : list nat) :
  length m = n -> Forall (fun row => length row = n) m ->
  length p = n -> Forall (fun c => c < n) p ->
  (perm_score exact_backend n m p == assignment_cost m p / of_nat n)%Q.
Proof.
  intros Hm Hrows Hp Hcols. unfold perm_score.
  cbn [exact_backend contract divide]. unfold exact_contract.
  rewrite assignment_cost_rows by lia.
  rewrite combine_map_r, map_map. simpl.
  apply Qmult_comp; [|reflexivity].
  apply sumQ_ext. intros [row c] Hin. simpl.
  apply dot_one_hot.
  - rewrite Forall_forall in Hrows. apply Hrows.
    eapply in_combine_l. exact Hin.
  - rewrite Forall_forall in Hcols. apply Hcols.
    eapply in_combine_r. exact Hin.
Qed.

Lemma transpose_length {A} (d : A) n (m : list (list A)) :
  length (transpose d n m) = n.
Proof. unfold transpose. rewrite length_map. apply range_length. Qed.

Lemma transpose_rows {A} (d : A) n (m : list (list A)) :
  Forall (fun row => length row = length m) (transpose d n m).
Proof.
  unfold transpose. apply Forall_forall. intros row H.
  apply in_map_iff in H. destruct H as (j & <- & _). apply length_map.
Qed.



Lemma square_transposed n (pair_wise_losses : tensor3) :
  square n pair_wise_losses = true ->
  Forall (fun m => length m = n /\ Forall (fun row => length row = n) m)
         (map (transpose 0%Q n) pair_wise_losses).
Proof.
  unfold square. rewrite forallb_forall. intros H.
  apply Forall_forall. intros mt Hin. apply in_map_iff in Hin.
  destruct Hin as (m & <- & Hm). specialize (H m Hm).
  apply andb_prop in H. destruct H as [Hl _]. apply Nat.eqb_eq in Hl.
  split; [apply transpose_length|].
  pose proof (transpose_rows 0%Q n m) as Hr. rewrite Hl in Hr. exact Hr.
Qed.

(** ** The contraction of the factorial search *)

Lemma expand_id {A} n (l : list A) : length l = n -> expand n l = l.
Proof.
  intros H. destruct l as [|x [|y l]]; try reflexivity.
  simpl in H. subst n. reflexivity.
Qed.

Lemma expand_matrix_id n (m : matrix) :
  length m = n -> Forall (fun row => length row = n) m ->
  expand_matrix n n m = m.
Proof.
  intros Hm Hrows. unfold expand_matrix.
  replace (map (expand n) m) with m.
  - apply expand_id. exact Hm.
  - rewrite <- (map_id m) at 1. apply map_ext_in. intros row Hrow.
    symmetry. apply expand_id. rewrite Forall_forall in Hrows.
    apply Hrows. exact Hrow.
Qed.

Lemma broadcastable_refl n : broadcastable n n = true.
Proof. unfold broadcastable. rewrite Nat.eqb_refl. reflexivity. Qed.

Lemma broadcast_size_refl n : broadcast_size n n = n.
Proof.
  unfold broadcast_size. destruct (n =? 1); reflexivity.
Qed.

Lemma permutations_nonempty n : permutations (range n) <> [].
Proof.
  intros E. apply (f_equal (@length (list nat))) in E.
  rewrite permutations_length in E. simpl in E.
  pose proof (fact_neq_0 (length (range n))). lia.
Qed.

Lemma one_hot_length n c : length (one_hot n c) = n.
Proof. unfold one_hot. rewrite length_map. apply range_length. Qed.

Lemma one_hot_shape n : forall p,
  In p (permutations (range n)) ->
  length (map (one_hot n) p) = n /\
  Forall (fun row => length row = n) (map (one_hot n) p).
Proof.
  intros p Hp. destruct (permutations_range n p Hp) as [Hlen _].
  split; [rewrite length_map; exact Hlen|].
  apply Forall_forall. intros row Hrow. apply in_map_iff in Hrow.
  destruct Hrow as (c & <- & _). apply one_hot_length.
Qed.

Lemma shapes_of_losses (pair_wise_losses : tensor3) :
  let n_src := shape2 pair_wise_losses in
  square n_src pair_wise_losses = true ->
  shape1 (map (transpose 0%Q n_src) pair_wise_losses) = n_src /\
  shape2 (map (transpose 0%Q n_src) pair_wise_losses) = n_src.
Proof.
  intros n Hsq. destruct pair_wise_losses as [|m0 pwl]; [split; reflexivity|].
  pose proof (Forall_inv (square_transposed n _ Hsq)) as [Hl Hr].
  cbn [map] in Hl, Hr. unfold shape1, shape2. cbn [map hd].
  split; [exact Hl|].
  destruct (transpose 0%Q n m0) as [|row rows] eqn:E.
  - simpl in Hl. simpl. exact Hl.
  - simpl. exact (Forall_inv Hr).
Qed.

Lemma shapes_of_one_hot n :
  shape1 (perms_one_hot n (permutations (range n))) = n /\
  shape2 (perms_one_hot n (permutations (range n))) = n.
Proof.
  pose proof (permutations_nonempty n) as Hne.
  destruct (permutations (range n)) as [|p0 ps] eqn:E; [contradiction|].
  assert (Hp0 : In p0 (permutations (range n))) by (rewrite E; left; reflexivity).
  destruct (one_hot_shape n p0 Hp0) as [Hl Hr].
  unfold shape1, shape2, perms_one_hot. cbn [map hd].
  split; [exact Hl|].
  destruct (map (one_hot n) p0) as [|row rows] eqn:E0.
  - simpl in Hl. simpl. exact Hl.
  - simpl. exact (Forall_inv Hr).
Qed.

(** On square matrices the contraction pairs every batch row with the
    matrix of every permutation. *)
Lemma factorial_scores bk (pair_wise_losses : tensor3) t :
  let n_src := shape2 pair_wise_losses in
  square n_src pair_wise_losses = true ->
  factorial_loss_set bk pair_wise_losses None t
  = (t, Ok (map (fun m => map (perm_score bk n_src (transpose 0%Q n_src m))
                              (permutations (range n_src)))
                pair_wise_losses)).
Proof.
  intros n Hsq. unfold factorial_loss_set. fold n.
  assert (Heins :
    einsum_bij_pij_bp bk (map (transpose 0%Q n) pair_wise_losses)
                      (perms_one_hot n (permutations (range n)))
    = Ok (map (fun m =>
                 map (fun perm => contract bk (transpose 0%Q n m)
                                           (map (one_hot n) perm))
                     (permutations (range n)))
              pair_wise_losses)).
  { unfold einsum_bij_pij_bp.
    destruct (shapes_of_losses pair_wise_losses Hsq) as [E3 E4].
    fold n in E3, E4. rewrite E3, E4.
    destruct (shapes_of_one_hot n) as [E1 E2]. rewrite E1, E2.
    rewrite broadcastable_refl, broadcast_size_refl. cbn [andb].
    f_equal. rewrite map_map. apply map_ext_in. intros m Hm.
    unfold perms_one_hot. rewrite map_map. apply map_ext_in. intros p Hp.
    pose proof (square_transposed n _ Hsq) as Hall.
    rewrite Forall_forall in Hall.
    destruct (Hall (transpose 0%Q n m) (in_map _ _ _ Hm)) as [Hl Hr].
    destruct (one_hot_shape n p Hp) as [Hl' Hr'].
    rewrite !expand_matrix_id by assumption. reflexivity. }
  unfold bind, lift. rewrite Heins. unfold ret. rewrite map_map.
  f_equal. f_equal. apply map_ext. intros m. rewrite map_map. reflexivity.
Qed.

Lemma Qabs_le_0 (a b : Q) : (Qabs (a - b) <= 0)%Q -> (a == b)%Q.
Proof.
  intros H. apply Qabs_Qle_condition in H. destruct H as [H1 H2]. lra.
Qed.

(** What [scores_within] says of one score. *)
Lemma scores_within_spec bk eps (pair_wise_losses : tensor3) m p :
  let n_src := shape2 pair_wise_losses in
  scores_within bk eps pair_wise_losses = true ->
  In m pair_wise_losses -> In p (permutations (range n_src)) ->
  (Qabs (perm_score bk n_src (transpose 0%Q n_src m) p
         - perm_score exact_backend n_src (transpose 0%Q n_src m) p)
   <= eps)%Q.
Proof.
  intros n H Hm Hp. unfold scores_within in H. fold n in H.
  rewrite forallb_forall in H.
  specialize (H (transpose 0%Q n m) (in_map _ _ _ Hm)).
  rewrite forallb_forall in H. specialize (H p Hp).
  apply Qle_bool_iff. exact H.
Qed.




(** ** Agreement of the factorial and the matching search *)

Lemma list_eqb_eq (a : list nat) : forall b, list_eqb a b = true <-> a = b.
Proof.
  induction a as [|x a IH]; intros [|y b]; simpl; split; intros H;
    try reflexivity; try discriminate H.
  - apply andb_prop in H. destruct H as [E1 E2].
    apply Nat.eqb_eq in E1. apply IH in E2. subst. reflexivity.
  - inversion H; subst. rewrite Nat.eqb_refl. simpl. apply IH. reflexivity.
Qed.

Lemma enumerate_length {A} (l : list A) : length (enumerate l) = length l.
Proof.
  unfold enumerate. rewrite length_combine, range_length. apply Nat.min_id.
Qed.

Lemma enumerate_In {A} (l : list A) i x :
  In (i, x) (enumerate l) -> i < length l /\ In x l.
Proof.
  unfold enumerate. intros H. split.
  - apply in_combine_l in H. apply in_seq in H. lia.
  - apply in_combine_r in H. exact H.
Qed.

Lemma entry_nth (m : matrix) i j :
  i < length m -> j < length (nth i m []) ->
  entry m i j = Ok (nth j (nth i m []) 0%Q).
Proof.
  intros Hi Hj. unfold entry.
  rewrite (nth_error_nth' m [] Hi). rewrite (nth_error_nth' _ 0%Q Hj).
  reflexivity.
Qed.

Lemma gather_row_square n (m : matrix) (cols : list nat) :
  length m = n -> Forall (fun row => length row = n) m ->
  length cols = n -> Forall (fun c => c < n) cols ->
  gather_row m cols
  = Ok (map (fun ic => nth (snd ic) (nth (fst ic) m []) 0%Q) (enumerate cols)).
Proof.
  intros Hm Hrows Hc Hcols. unfold gather_row. apply mapR_total.
  intros [i c] Hin. simpl. apply enumerate_In in Hin. destruct Hin as [Hi Hin].
  apply entry_nth; [lia|].
  rewrite Forall_forall in Hrows, Hcols.
  rewrite (Hrows (nth i m [])) by (apply nth_In; lia).
  apply Hcols. exact Hin.
Qed.

Lemma mean_gathered (m : matrix) (cols : list nat) :
  mean (map (fun ic => nth (snd ic) (nth (fst ic) m []) 0%Q) (enumerate cols))
  = (assignment_cost m cols / of_nat (length cols))%Q.
Proof.
  unfold mean, assignment_cost. rewrite length_map, enumerate_length.
  reflexivity.
Qed.

Lemma of_nat_nonneg n : (0 <= of_nat n)%Q.
Proof.
  unfold of_nat. replace 0%Q with (inject_Z 0) by reflexivity.
  rewrite <- Zle_Qle. apply Nat2Z.is_nonneg.
Qed.

Lemma Qdiv_le_mono (a b c : Q) : (0 <= c)%Q -> (a <= b)%Q -> (a / c <= b / c)%Q.
Proof.
  intros Hc Hab. unfold Qdiv. apply Qmult_le_compat_r; [exact Hab|].
  apply Qinv_le_0_compat. exact Hc.
Qed.

Lemma optimal_assignment_inv n m answer :
  optimal_assignment n m answer = true ->
  exists rows cols,
    answer = Ok (rows, cols) /\
    In cols (permutations (range n)) /\
    forall p, In p (permutations (range n)) ->
              (assignment_cost m cols <= assignment_cost m p)%Q.
Proof.
  unfold optimal_assignment. destruct answer as [[rows cols]|e]; intros H;
    [|discriminate H].
  apply andb_prop in H. destruct H as [H1 H2].
  exists rows, cols. split; [reflexivity|]. split.
  - apply existsb_exists in H1. destruct H1 as (p & Hp & E).
    apply list_eqb_eq in E. subst. exact Hp.
  - intros p Hp. rewrite forallb_forall in H2.
    apply Qle_bool_iff. apply H2. exact Hp.
Qed.

(** The least exact score of a square matrix is the mean of the losses
    that a least-cost assignment selects. *)
Lemma row_agreement n (m : matrix) rows cols v k :
  length m = n -> Forall (fun row => length row = n) m ->
  optimal_assignment n m (Ok (rows, cols)) = true ->
  first_min (map (perm_score exact_backend n m) (permutations (range n))) v k ->
  exists g, gather_row m cols = Ok g /\ (v == mean g)%Q.
Proof.
  intros Hm Hrows Hopt (Hk & Hall & _).
  destruct (optimal_assignment_inv _ _ _ Hopt) as (rows' & cols' & E & Hin & Hbest).
  inversion E; subst rows' cols'. clear E.
  destruct (permutations_range _ _ Hin) as (Hlen & Hcols).
  eexists. split; [apply gather_row_square with (n := n); assumption|].
  rewrite mean_gathered, Hlen.
  rewrite nth_error_map in Hk.
  destruct (nth_error (permutations (range n)) k) as [p|] eqn:Ep;
    simpl in Hk; [|discriminate Hk].
  inversion Hk as [Ev]. clear Hk.
  assert (Hp : In p (permutations (range n))) by (eapply nth_error_In; exact Ep).
  destruct (permutations_range _ _ Hp) as (Hplen & Hpcols).
  apply Qle_antisym.
  - destruct (In_nth_error _ _ Hin) as (j & Ej).
    rewrite <- (perm_score_cost n m cols) by assumption.
    rewrite Ev. apply (Hall j). apply map_nth_error. exact Ej.
  - rewrite (perm_score_cost n m p) by assumption.
    apply Qdiv_le_mono; [apply of_nat_nonneg | apply Hbest; exact Hp].
Qed.

Lemma solve_step (solver : matrix -> result (list nat * list nat)) m t :
  (emit SolverCall ;; a <- lift (solver m) ;; ret (snd a)) t
  = (t ++ [SolverCall],
     match solver m with Ok a => Ok (snd a) | Raise e => Raise e end).
Proof. unfold bind, emit, lift, ret. destruct (solver m); reflexivity. Qed.

Lemma hungarian_batch (solver : matrix -> result (list nat * list nat))
    (tr : matrix -> matrix) (P : matrix -> list nat -> vector -> Prop) :
  forall (pwl : list matrix) t,
    Forall (fun m => exists rows cols g,
                solver (tr m) = Ok (rows, cols) /\
                gather_row (tr m) cols = Ok g /\ P m cols g) pwl ->
    exists out : list (list nat * vector),
      mapM (fun m => emit SolverCall ;; a <- lift (solver m) ;; ret (snd a))
           (map tr pwl) t
      = (t ++ repeat SolverCall (length pwl), Ok (map fst out)) /\
      mapR (fun mb => gather_row (fst mb) (snd mb))
           (combine (map tr pwl) (map fst out))
      = Ok (map snd out) /\
      Forall2 (fun m cg => P m (fst cg) (snd cg)) pwl out.
Proof.
  induction pwl as [|m pwl IH]; intros t H.
  - exists []. simpl. rewrite app_nil_r. repeat split. constructor.
  - destruct (Forall_inv H) as (rows & cols & g & Es & Eg & HP).
    destruct (IH (t ++ [SolverCall]) (Forall_inv_tail H)) as (out & Em & Er & HF).
    exists ((cols, g) :: out). split; [|split].
    + cbn [map mapM length repeat fst].
      rewrite bind_ok with (t' := t ++ [SolverCall]) (a := cols)
        by (rewrite solve_step, Es; reflexivity).
      rewrite (bind_ok _ _ _ _ _ Em). unfold ret.
      rewrite <- app_assoc. reflexivity.
    + cbn [map combine mapR fst snd]. rewrite Eg. simpl. rewrite Er. reflexivity.
    + constructor; [exact HP | exact HF].
Qed.

(** The matching search on a batch with at least one row, once the
    solver has answered and the selected losses are gathered. *)
Lemma hungarian_result bk solver (pair_wise_losses : tensor3) t t'
    (out : list (list nat * vector)) :
  let tr := transpose 0%Q (shape2 pair_wise_losses) in
  pair_wise_losses <> [] ->
  length out = length pair_wise_losses ->
  mapM (fun m => emit SolverCall ;; a <- lift (solver m) ;; ret (snd a))
       (map tr pair_wise_losses) t
  = (t', Ok (map fst out)) ->
  mapR (fun mb => gather_row (fst mb) (snd mb))
       (combine (map tr pair_wise_losses) (map fst out))
  = Ok (map snd out) ->
  find_best_perm_hungarian bk solver pair_wise_losses t
  = (t', Ok (map (tensor_mean bk) (map snd out), map fst out)).
Proof.
  intros tr Hne Hlen Em Er. unfold find_best_perm_hungarian. fold tr.
  rewrite (bind_ok _ _ _ _ _ Em).
  destruct (map fst out) as [|c cs] eqn:E.
  - apply (f_equal (@length (list nat))) in E. rewrite length_map, Hlen in E.
    destruct pair_wise_losses; [contradiction | discriminate E].
  - unfold bind, lift, ret.
    match goal with
    | |- match ?x with _ => _ end = _ =>
        replace x with (@Ok (list vector) (map snd out)) by (symmetry; exact Er)
    end.
    reflexivity.
Qed.

Lemma Forall2_join {A B C} (R1 : A -> B -> Prop) (R2 : A -> C -> Prop)
    (R : B -> C -> Prop) (l : list A) :
  forall l1 l2,
    Forall2 R1 l l1 -> Forall2 R2 l l2 ->
    (forall x y z, In x l -> R1 x y -> R2 x z -> R y z) -> Forall2 R l1 l2.
Proof.
  induction l as [|x l IH]; intros l1 l2 H1 H2 HR;
    inversion H1; inversion H2; subst; constructor.
  - eapply HR; [left; reflexivity | eassumption | eassumption].
  - apply IH; try assumption.
    intros x' y' z' Hx'. apply HR. right. exact Hx'.
Qed.

(** What [assigned_means_within] says of one batch row. *)
Lemma assigned_means_within_spec bk eps solver (pair_wise_losses : tensor3)
    m rows cols g :
  let tr := transpose 0%Q (shape2 pair_wise_losses) in
  assigned_means_within bk eps solver pair_wise_losses = true ->
  In m pair_wise_losses ->
  solver (tr m) = Ok (rows, cols) -> gather_row (tr m) cols = Ok g ->
  (Qabs (tensor_mean bk g - mean g) <= eps)%Q.
Proof.
  intros tr H Hm Es Eg. unfold assigned_means_within in H. fold tr in H.
  rewrite forallb_forall in H. specialize (H (tr m) (in_map _ _ _ Hm)).
  rewrite Es, Eg in H. apply Qle_bool_iff. exact H.
Qed.


(** The least score that the backend computes for a square matrix is
    within [eps] of the mean of the losses that a least-cost assignment
    selects, when the rounding of the scores stays within [eps]. *)
Lemma row_agreement_within bk eps n (m : matrix) rows cols v k :
  length m = n -> Forall (fun row => length row = n) m ->
  optimal_assignment n m (Ok (rows, cols)) = true ->
  (forall p, In p (permutations (range n)) ->
             (Qabs (perm_score bk n m p - perm_score exact_backend n m p)
              <= eps)%Q) ->
  first_min (map (perm_score bk n m) (permutations (range n))) v k ->
  exists g, gather_row m cols = Ok g /\ (Qabs (v - mean g) <= eps)%Q.
Proof.
  intros Hm Hrows Hopt Hnear (Hk & Hall & _).
  destruct (optimal_assignment_inv _ _ _ Hopt) as (rows' & cols' & E & Hin & Hbest).
  inversion E; subst rows' cols'. clear E.
  destruct (permutations_range _ _ Hin) as (Hlen & Hcols).
  eexists. split; [apply gather_row_square with (n := n); assumption|].
  rewrite mean_gathered, Hlen.
  rewrite nth_error_map in Hk.
  destruct (nth_error (permutations (range n)) k) as [p|] eqn:Ep;
    simpl in Hk; [|discriminate Hk].
  inversion Hk as [Ev]. clear Hk.
  assert (Hp : In p (permutations (range n))) by (eapply nth_error_In; exact Ep).
  destruct (permutations_range _ _ Hp) as (Hplen & Hpcols).
  destruct (In_nth_error _ _ Hin) as (j & Ej).
  pose proof (Hall j _ (map_nth_error (perm_score bk n m) j _ Ej)) as Hle.
  pose proof (Hnear p Hp) as Np. rewrite Ev in Np.
  pose proof (Hnear cols Hin) as Nc.
  rewrite (perm_score_cost n m p) in Np by assumption.
  rewrite (perm_score_cost n m cols) in Nc by assumption.
  pose proof (Qdiv_le_mono _ _ (of_nat n) (of_nat_nonneg n) (Hbest p Hp)) as Hb.
  apply Qabs_Qle_condition in Np. apply Qabs_Qle_condition in Nc.
  destruct Np as [Np1 Np2]. destruct Nc as [Nc1 Nc2].
  apply Qabs_Qle_condition.
  set (sc := perm_score bk n m cols) in *.
  set (cc := (assignment_cost m cols / of_nat n)%Q) in *.
  set (cp := (assignment_cost m p / of_nat n)%Q) in *.
  rewrite Ev. clearbody sc cc cp. split; lra.
Qed.

(** Claim C3.  On a batch, of at least one row, of square pairwise loss
    matrices, with no reduction function, and with a solver whose answer
    for every (transposed) matrix is an assignment of least total cost,
    the factorial search and the matching search both succeed and
    return, row by row, minimal mean losses within [2 * eps] of each
    other, when the rounding of the backend stays within [eps] on the
    scores of the permutations and on the means of the assigned losses;
    where the backend rounds neither ([eps = 0]) the two losses are
    equal.  The statement holds for every [n_src], in particular for
    [n_src <= 4]. *)
Theorem factorial_and_hungarian_agree :
  forall bk solver (eps : Q) pair_wise_losses t,
    let n_src := shape2 pair_wise_losses in
    pair_wise_losses <> [] ->
    square n_src pair_wise_losses = true ->
    forallb (fun m => optimal_assignment n_src m (solver m))
            (map (transpose 0%Q n_src) pair_wise_losses) = true ->
    scores_within bk eps pair_wise_losses = true ->
    assigned_means_within bk eps solver pair_wise_losses = true ->
    exists loss_f perm_f loss_h perm_h,
      find_best_perm_factorial bk pair_wise_losses None t
      = (t, Ok (loss_f, perm_f)) /\
      find_best_perm_hungarian bk solver pair_wise_losses t
      = (t ++ repeat SolverCall (length pair_wise_losses), Ok (loss_h, perm_h)) /\
      Forall2 (fun f h => (Qabs (f - h) <= 2 * eps)%Q) loss_f loss_h /\
      ((eps == 0)%Q -> Forall2 Qeq loss_f loss_h).
Proof.
  intros bk solver eps pwl t n Hne Hsq Hopt Hscores Hmeans.
  pose proof (factorial_scores bk pwl t Hsq) as Hls. cbv zeta in Hls. fold n in Hls.
  destruct (factorial_search_result bk pwl None t t _ Hls) as (mins & Ef & HF).
  { intros E. apply map_eq_nil in E. contradiction. }
  { apply Forall_forall. intros row Hrow. apply in_map_iff in Hrow.
    destruct Hrow as (m & <- & _). apply length_map. }
  fold n in Ef, HF. apply Forall2_map_l in HF.
  rewrite forallb_forall in Hopt.
  pose proof (square_transposed n pwl Hsq) as Hsqt. rewrite Forall_forall in Hsqt.
  destruct (hungarian_batch solver (transpose 0%Q n)
              (fun m cols g =>
                 exists rows, solver (transpose 0%Q n m) = Ok (rows, cols) /\
                              gather_row (transpose 0%Q n m) cols = Ok g)
              pwl t) as (out & Em & Er & HH).
  { apply Forall_forall. intros m Hm.
    destruct (Hsqt _ (in_map _ _ _ Hm)) as [Hl Hr].
    pose proof (Hopt _ (in_map _ _ _ Hm)) as Ho.
    destruct (optimal_assignment_inv _ _ _ Ho) as (rows & cols & Es & Hin & _).
    destruct (permutations_range _ _ Hin) as (Hlen & Hcols).
    exists rows, cols. eexists. split; [exact Es|].
    split; [apply gather_row_square with (n := n); assumption|].
    exists rows. split; [exact Es|].
    apply gather_row_square with (n := n); assumption. }
  pose proof (Forall2_length_eq _ _ _ HH) as Hlen.
  assert (Hnear : Forall2 (fun f h => (Qabs (f - h) <= 2 * eps)%Q)
                          (map fst mins) (map (tensor_mean bk) (map snd out))).
  { rewrite map_map. apply Forall2_map_l. apply Forall2_map_r.
    apply (Forall2_join _ _ _ pwl mins out HF HH).
    intros m vm [cols g] Hm (_ & Hfm & _) (rows & Es & Eg). cbn [fst snd] in *.
    destruct (Hsqt _ (in_map _ _ _ Hm)) as [Hl Hr].
    pose proof (Hopt _ (in_map _ _ _ Hm)) as Ho. rewrite Es in Ho.
    destruct (row_agreement_within bk eps n _ rows cols (fst vm) (snd vm)
                Hl Hr Ho) as (g' & Eg' & Hvg).
    { intros p Hp. exact (scores_within_spec bk eps pwl m p Hscores Hm Hp). }
    { exact Hfm. }
    rewrite Eg in Eg'. inversion Eg'; subst g'.
    pose proof (assigned_means_within_spec bk eps solver pwl m rows cols g
                  Hmeans Hm Es Eg) as Hmg.
    apply Qabs_Qle_condition in Hvg. apply Qabs_Qle_condition in Hmg.
    destruct Hvg as [V1 V2]. destruct Hmg as [M1 M2].
    apply Qabs_Qle_condition.
    set (tm := tensor_mean bk g) in *. set (mg := mean g) in *.
    clearbody tm mg. split; lra. }
  exists (map fst mins), (map (fun vm => nth (snd vm) (permutations (range n)) []) mins),
         (map (tensor_mean bk) (map snd out)), (map fst out).
  split; [exact Ef|]. split; [|split; [exact Hnear|]].
  - apply hungarian_result; [exact Hne | symmetry; exact Hlen | exact Em | exact Er].
  - intros Heps. eapply Forall2_impl; [|exact Hnear].
    intros f h H. cbv beta in H. apply Qabs_le_0.
    set (a := Qabs (f - h)) in *. clearbody a. lra.
Qed.

Lemma factorial_and_hungarian_agree_witness :
  exists loss_f perm_f loss_h perm_h,
    find_best_perm_factorial (coarse_backend 16)
      [[[4; 20; 20; 20]; [20; 4; 20; 20]; [20; 20; 4; 20]; [20; 20; 20; 5]];
       [[1; 0; 5; 7]; [0; 1; 0; 2]; [0; 0; 0; 3]; [1; 2; 3; 0]]]%Q None []
    = ([], Ok (loss_f, perm_f)) /\
    find_best_perm_hungarian (coarse_backend 16) exhaustive_assignment
      [[[4; 20; 20; 20]; [20; 4; 20; 20]; [20; 20; 4; 20]; [20; 20; 20; 5]];
       [[1; 0; 5; 7]; [0; 1; 0; 2]; [0; 0; 0; 3]; [1; 2; 3; 0]]]%Q []
    = ([] ++ repeat SolverCall 2, Ok (loss_h, perm_h)) /\
    Forall2 (fun f h => (Qabs (f - h) <= 2 * (1 # 4))%Q) loss_f loss_h /\
    ((1 # 4 == 0)%Q -> Forall2 Qeq loss_f loss_h).
Proof.
  apply (factorial_and_hungarian_agree (coarse_backend 16) exhaustive_assignment
           (1 # 4)%Q
           [[[4; 20; 20; 20]; [20; 4; 20; 20]; [20; 20; 4; 20]; [20; 20; 20; 5]];
            [[1; 0; 5; 7]; [0; 1; 0; 2]; [0; 0; 0; 3]; [1; 2; 3; 0]]]%Q []).
  - discriminate.
  - vm_compute. reflexivity.
  - vm_compute. reflexivity.
  - vm_compute. reflexivity.
  - vm_compute. reflexivity.
Defined.

(** The boolean test on the solver's answer is the usual statement of
    its contract. *)
Lemma optimal_assignment_spec n m answer :
  optimal_assignment n m answer = true <->
  exists rows cols,
    answer = Ok (rows, cols) /\
    Permutation cols (range n) /\
    forall p, Permutation p (range n) ->
              (assignment_cost m cols <= assignment_cost m p)%Q.
Proof.
  split.
  - intros H. destruct (optimal_assignment_inv _ _ _ H) as (rows & cols & E & Hin & Hb).
    exists rows, cols. split; [exact E|]. split.
    + apply permutations_spec. exact Hin.
    + intros p Hp. apply Hb. apply permutations_spec. exact Hp.
  - intros (rows & cols & -> & Hperm & Hb). unfold optimal_assignment.
    apply andb_true_intro. split.
    + apply existsb_exists. exists cols. split.
      * apply permutations_spec. exact Hperm.
      * apply list_eqb_eq. reflexivity.
    + apply forallb_forall. intros p Hp. apply Qle_bool_iff.
      apply Hb. apply permutations_spec. exact Hp.
Qed.

(** The exhaustive solver meets that contract on every cost matrix. *)
Lemma exhaustive_assignment_optimal (m : matrix) :
  optimal_assignment (length m) m (exhaustive_assignment m) = true.
Proof.
  unfold exhaustive_assignment.
  set (perms := permutations (range (length m))).
  assert (Hne : map (assignment_cost m) perms <> []).
  { intros E. apply (f_equal (@length Q)) in E. rewrite length_map in E.
    unfold perms in E. rewrite permutations_length in E. simpl in E.
    pose proof (fact_neq_0 (length (range (length m)))). lia. }
  destruct (torch_min_nonempty _ Hne) as (v & k & E). rewrite E. simpl.
  pose proof (torch_min_first _ _ _ E) as (Hk & Hall & _).
  rewrite nth_error_map in Hk.
  destruct (nth_error perms k) as [p|] eqn:Ep; simpl in Hk; [|discriminate Hk].
  inversion Hk as [Ev]. clear Hk.
  rewrite (nth_error_nth _ _ [] Ep).
  apply andb_true_intro. split.
  - apply existsb_exists. exists p. split.
    + eapply nth_error_In. exact Ep.
    + apply list_eqb_eq. reflexivity.
  - apply forallb_forall. intros q Hq. apply Qle_bool_iff.
    destruct (In_nth_error _ _ Hq) as (j & Ej).
    rewrite Ev. apply (Hall j). apply map_nth_error. exact Ej.
Qed.

(* ================================================================= *)
(** * Further properties of the searches *)

(** ** The permutations returned by the factorial search *)

Lemma chosen_permutations {A} (perms : list (list nat)) (mins : list (A * nat)) bi :
  mapR (fun m => get perms (snd m)) mins = Ok bi ->
  length bi = length mins /\ Forall (fun p => In p perms) bi.
Proof.
  intros H. apply mapR_Forall2 in H. split.
  - symmetry. eapply Forall2_length_eq. exact H.
  - induction H as [|m p mins bi Hp _ IH]; constructor; [|exact IH].
    eapply get_In. exact Hp.
Qed.

Lemma selected_perms_inv (perms : list (list nat)) (mins : list (Q * nat)) bi :
  selected_perms perms mins = Ok bi ->
  mapR (fun m => get perms (snd m)) mins = Ok bi /\ bi <> [].
Proof.
  unfold selected_perms.
  destruct (mapR (fun m => get perms (snd m)) mins) as [rows|e];
    [|discriminate]. simpl. intros H.
  apply stack_rows_inv in H. destruct H as (-> & Hne & _).
  split; [reflexivity | exact Hne].
Qed.

(** X1.  Whatever the reduction, the factorial search returns one loss and one
    index row per batch row, and every index row is a permutation of
    [range(n_src)]. *)
Theorem factorial_returns_permutations :
  forall bk pair_wise_losses reduce t t' min_loss batch_indices,
    find_best_perm_factorial bk pair_wise_losses reduce t
    = (t', Ok (min_loss, batch_indices)) ->
    length min_loss = length batch_indices /\
    Forall (fun p => Permutation p (range (shape2 pair_wise_losses)))
           batch_indices.
Proof.
  intros bk pwl reduce t t' ml bi H. unfold find_best_perm_factorial in H.
  apply bind_inv in H. destruct H as (t1 & ls & _ & H).
  apply bind_inv in H. destruct H as (t2 & mins & _ & H).
  apply bind_inv in H. destruct H as (t3 & bi' & Hbi & H).
  apply ret_inv in H. destruct H as [_ H]. inversion H; subst.
  apply lift_inv in Hbi. destruct Hbi as [_ Hbi].
  apply selected_perms_inv in Hbi. destruct Hbi as [Hbi _].
  apply chosen_permutations in Hbi. destruct Hbi as [Hl HF]. split.
  - rewrite length_map. symmetry. exact Hl.
  - eapply Forall_impl; [|exact HF]. intros p Hp.
    apply permutations_spec. exact Hp.
Qed.

Lemma factorial_returns_permutations_witness :
  length [0 # 3]%Q = length [[1; 0; 2]] /\
  Forall (fun p => Permutation p (range 3)) [[1; 0; 2]].
Proof.
  apply (factorial_returns_permutations exact_backend
           [[[1; 0; 5]; [0; 1; 0]; [0; 0; 0]]]%Q None [] [] [0 # 3]%Q [[1; 0; 2]]).
  reflexivity.
Defined.

(** ** The returned loss is the least mean loss over all permutations *)







(** ** The matching search *)





Lemma solver_failure_stops (solver : matrix -> result (list nat * list nat)) :
  forall (before : list matrix) m after e t,
    solver_answers solver before = true ->
    solver m = Raise e ->
    mapM (fun m => emit SolverCall ;; a <- lift (solver m) ;; ret (snd a))
         (before ++ m :: after) t
    = (t ++ repeat SolverCall (length before + 1), Raise e).
Proof.
  induction before as [|m0 before IH]; intros m after e t Hok Hfail.
  - cbn [app mapM length Nat.add repeat].
    apply bind_raise. rewrite solve_step, Hfail. reflexivity.
  - simpl in Hok. apply andb_prop in Hok. destruct Hok as [H0 Hok].
    destruct (solver m0) as [a|e0] eqn:E0; [|discriminate H0].
    cbn [app mapM length Nat.add repeat].
    rewrite bind_ok with (t' := t ++ [SolverCall]) (a := snd a)
      by (rewrite solve_step, E0; reflexivity).
    rewrite (bind_raise _ _ _ _ _ (IH m after e (t ++ [SolverCall]) Hok Hfail)).
    rewrite <- app_assoc. reflexivity.
Qed.

Lemma hungarian_stops_at_solver_error_aux :
  forall bk solver (before : tensor3) m (after : tensor3) e t,
    let pair_wise_losses := before ++ m :: after in
    let n_src := shape2 pair_wise_losses in
    solver_answers solver (map (transpose 0%Q n_src) before) = true ->
    solver (transpose 0%Q n_src m) = Raise e ->
    find_best_perm_hungarian bk solver pair_wise_losses t
    = (t ++ repeat SolverCall (length before + 1), Raise e).
Proof.
  intros bk solver before m after e t pwl n Hok Hfail.
  unfold find_best_perm_hungarian. fold n. apply bind_raise.
  unfold pwl. rewrite map_app. cbn [map].
  rewrite (solver_failure_stops solver _ _ _ e t Hok Hfail).
  rewrite length_map. reflexivity.
Qed.

(** X4.  The matching search asks the solver about the batch rows in order
    and stops at the first row on which the solver raises: the error of
    the solver is the outcome, the rows after it are not submitted, and
    no loss is returned for the rows before it. *)
Theorem hungarian_stops_at_solver_error :
  forall bk solver (before : tensor3) m (after : tensor3) e t,
    let pair_wise_losses := before ++ m :: after in
    let n_src := shape2 pair_wise_losses in
    solver_answers solver (map (transpose 0%Q n_src) before) = true ->
    solver (transpose 0%Q n_src m) = Raise e ->
    find_best_perm_hungarian bk solver pair_wise_losses t
    = (t ++ repeat SolverCall (length before + 1), Raise e).
Proof. exact hungarian_stops_at_solver_error_aux. Qed.

Lemma hungarian_stops_at_solver_error_witness :
  find_best_perm_hungarian exact_backend refusing_solver
    ([[[0; 1]; [1; 0]]] ++ [[-1; 1]; [1; 0]] :: [[[0; 1]; [1; 0]]])%Q []
  = ([] ++ repeat SolverCall (1 + 1),
     Raise (ValueError "cost matrix is infeasible")).
Proof.
  apply (hungarian_stops_at_solver_error exact_backend refusing_solver
           [[[0; 1]; [1; 0]]]%Q [[-1; 1]; [1; 0]]%Q [[[0; 1]; [1; 0]]]%Q
           (ValueError "cost matrix is infeasible") []).
  - reflexivity.
  - reflexivity.
Defined.

(** ** Further properties of [reorder_source] *)

Lemma index_select_outcome {A} (s : list A) : forall b,
  (forallb (fun i => i <? length s) b = true ->
     exists out, index_select s b = Ok out /\ length out = length b) /\
  (forallb (fun i => i <? length s) b = false ->
     index_select s b = Raise IndexError).
Proof.
  unfold index_select. induction b as [|i b [IHt IHf]]; simpl.
  - split; [|discriminate]. intros _. exists []. split; reflexivity.
  - unfold get at 1 3. destruct (Nat.ltb_spec i (length s)) as [Hi|Hi]; simpl.
    + destruct (nth_error s i) as [x|] eqn:E; [|apply nth_error_None in E; lia].
      simpl. split; intros H.
      * destruct (IHt H) as (out & -> & Hl). exists (x :: out). simpl.
        split; [reflexivity | lia].
      * rewrite (IHf H). reflexivity.
    + split; [discriminate|]. intros _.
      destruct (nth_error s i) as [x|] eqn:E; [|reflexivity].
      assert (i < length s) by (apply nth_error_Some; rewrite E; discriminate).
      lia.
Qed.











Lemma get_through {A} (s : list A) (p : list nat) (s1 : list A) k i :
  index_select s p = Ok s1 -> get p k = Ok i -> get s1 k = get s i.
Proof.
  unfold index_select. intros Hs Hk. apply mapR_Forall2 in Hs.
  unfold get in Hk. destruct (nth_error p k) as [i'|] eqn:E; [|discriminate Hk].
  inversion Hk; subst i'.
  destruct (Forall2_nth_error _ _ _ Hs k i E) as (x & Ex & Hx).
  rewrite Hx. unfold get. rewrite Ex. reflexivity.
Qed.

Lemma index_select_through {A} (s : list A) (p : list nat) (s1 : list A) :
  index_select s p = Ok s1 ->
  forall q pq, index_select p q = Ok pq ->
               index_select s1 q = index_select s pq.
Proof.
  intros Hs q pq Hq. unfold index_select in Hq. apply mapR_Forall2 in Hq.
  unfold index_select at 1 2.
  induction Hq as [|k i q pq Hk _ IH]; simpl; [reflexivity|].
  rewrite (get_through s p s1 k i Hs Hk), IH. reflexivity.
Qed.

Lemma reordered_rows_compose :
  forall (A : Type) (source : list (list A)) (first second : list (list nat))
         reordered composed,
    mapR (fun sb => index_select (fst sb) (snd sb)) (combine source first)
    = Ok reordered ->
    mapR (fun sb => index_select (fst sb) (snd sb)) (combine first second)
    = Ok composed ->
    mapR (fun sb => index_select (fst sb) (snd sb)) (combine reordered second)
    = mapR (fun sb => index_select (fst sb) (snd sb)) (combine source composed).
Proof.
  intros A.
  induction source as [|s source IH]; intros p q s1 pq Hs Hq.
  - simpl in Hs. inversion Hs; subst. reflexivity.
  - destruct p as [|pr p].
    + simpl in Hs, Hq. inversion Hs; inversion Hq; subst. reflexivity.
    + cbn [combine mapR fst snd] in Hs.
      destruct (index_select s pr) as [s1r|e] eqn:Er; simpl in Hs;
        [|discriminate Hs].
      destruct (mapR _ (combine source p)) as [s1s|e] eqn:Es; simpl in Hs;
        [|discriminate Hs].
      inversion Hs; subst s1. clear Hs.
      destruct q as [|qr q].
      * simpl in Hq. inversion Hq; subst. reflexivity.
      * cbn [combine mapR fst snd] in Hq.
        destruct (index_select pr qr) as [pqr|e] eqn:Eq; simpl in Hq;
          [|discriminate Hq].
        destruct (mapR _ (combine p q)) as [pqs|e] eqn:Eqs; simpl in Hq;
          [|discriminate Hq].
        inversion Hq; subst pq. clear Hq.
        cbn [combine mapR fst snd].
        rewrite (index_select_through s pr s1r Er qr pqr Eq).
        rewrite (IH p q s1s pqs Es Eqs). reflexivity.
Qed.

Lemma reorder_source_rows {A} (source : list (list A)) batch_indices out :
  reorder_source source batch_indices = Ok out ->
  mapR (fun sb => index_select (fst sb) (snd sb)) (combine source batch_indices)
  = Ok out.
Proof.
  unfold reorder_source.
  destruct (mapR _ (combine source batch_indices)) as [rows|e]; [|discriminate].
  simpl. intros H. apply stack_rows_inv in H. destruct H as [-> _]. reflexivity.
Qed.

Lemma reorder_source_composes_aux :
  forall (A : Type) (source : list (list A)) (first second : list (list nat))
         reordered composed,
    reorder_source source first = Ok reordered ->
    reorder_source first second = Ok composed ->
    reorder_source reordered second = reorder_source source composed.
Proof.
  intros A source p q s1 pq Hs Hq.
  apply reorder_source_rows in Hs. apply reorder_source_rows in Hq.
  unfold reorder_source.
  rewrite (reordered_rows_compose A source p q s1 pq Hs Hq). reflexivity.
Qed.

(** X7.  Reordering twice is reordering once by the composed indices: when
    [source] reordered by [first] gives [reordered], and the index rows
    [first] reordered by [second] give [composed], then reordering
    [reordered] by [second] has the same outcome as reordering [source]
    by [composed]. *)
Theorem reorder_source_composes :
  forall (A : Type) (source : list (list A)) (first second : list (list nat))
         reordered composed,
    reorder_source source first = Ok reordered ->
    reorder_source first second = Ok composed ->
    reorder_source reordered second = reorder_source source composed.
Proof. exact reorder_source_composes_aux. Qed.

Lemma reorder_source_composes_witness :
  reorder_source [[20; 30; 10]; [50; 40; 60]] [[2; 0; 1]; [1; 0; 2]]
  = reorder_source [[10; 20; 30]; [40; 50; 60]] [[0; 1; 2]; [0; 1; 2]].
Proof.
  apply (reorder_source_composes nat [[10; 20; 30]; [40; 50; 60]]
           [[1; 2; 0]; [1; 0; 2]] [[2; 0; 1]; [1; 0; 2]]).
  - reflexivity.
  - reflexivity.
Defined.

(** ** Selecting the minimum among evaluated candidates *)

Lemma selected_minima (columns : list vector) loss_set mins :
  stack_columns columns = Ok loss_set ->
  row_minima loss_set = Ok mins ->
  columns <> [] /\
  Forall (fun col => length col = length mins) columns /\
  forall b vk,
    nth_error mins b = Some vk ->
    exists col,
      nth_error columns (snd vk) = Some col /\
      nth_error col b = Some (fst vk) /\
      forall k' col' v',
        nth_error columns k' = Some col' -> nth_error col' b = Some v' ->
        (fst vk <= v')%Q /\ (k' < snd vk -> (fst vk < v')%Q).
Proof.
  unfold stack_columns, row_minima. intros Hs Hm.
  destruct columns as [|c cs]; [discriminate Hs|]. cbv beta iota in Hs.
  remember (c :: cs) as columns eqn:Ec.
  destruct (forallb (fun c' => length c' =? length c) columns) eqn:El;
    [|discriminate Hs].
  inversion Hs as [Els]. clear Hs.
  apply mapR_Forall2 in Hm.
  pose proof (Forall2_length_eq _ _ _ Hm) as Hlen.
  rewrite <- Els, transpose_length in Hlen.
  assert (Hcols : Forall (fun col => length col = length mins) columns).
  { apply Forall_forall. intros col Hcol. rewrite forallb_forall in El.
    specialize (El col Hcol). apply Nat.eqb_eq in El. lia. }
  split; [rewrite Ec; intros Enil; discriminate Enil|]. split; [exact Hcols|].
  intros b [v k] Hb. simpl.
  destruct (Forall2_nth_error_r _ _ _ Hm b (v, k) Hb) as (row & Hrow & Hmin).
  assert (Hbl : b < length mins) by (apply nth_error_Some; rewrite Hb; discriminate).
  rewrite <- Els in Hrow. unfold transpose in Hrow.
  rewrite nth_error_map in Hrow. unfold range in Hrow.
  rewrite (nth_error_nth' (seq 0 (length c)) 0) in Hrow
    by (rewrite length_seq; lia).
  rewrite seq_nth in Hrow by lia. simpl in Hrow.
  inversion Hrow as [Erow]. clear Hrow.
  apply torch_min_first in Hmin. rewrite <- Erow in Hmin.
  destruct Hmin as (Hk & Hall & Hbefore). cbn [fst snd] in *.
  rewrite nth_error_map in Hk.
  match type of Hk with
  | option_map _ ?x = _ => destruct x as [col|] eqn:Ecol
  end; simpl in Hk; [|discriminate Hk].
  inversion Hk as [Ev]. clear Hk.
  assert (Hcl : length col = length mins).
  { rewrite Forall_forall in Hcols. apply Hcols. eapply nth_error_In. exact Ecol. }
  exists col. split; [exact Ecol|]. split.
  - apply nth_error_nth'. lia.
  - intros k' col' v' Hk' Hv'.
    pose proof (map_nth_error (fun row0 : list Q => nth b row0 0%Q) k' columns Hk')
      as Hrow'.
    cbv beta in Hrow'. rewrite (nth_error_nth_default _ _ _ 0%Q Hv') in Hrow'.
    rewrite Ev. split.
    + apply (Hall k'). exact Hrow'.
    + intros Hlt. apply (Hbefore k'); assumption.
Qed.

(** ** The partition searches *)

Lemma as_vector_inv a v : as_vector a = Ok v -> a = A1 v.
Proof. destruct a; simpl; intros H; inversion H; reflexivity. Qed.

Lemma partition_evaluated bk loss_func est_targets targets
    (checks : list (list nat) -> M unit) partition t t' y :
  (forall p t0 t1 u, checks p t0 = (t1, Ok u) -> t1 = t0) ->
  (checks partition ;;
   est_mixes <- lift (mix bk est_targets partition) ;;
   l <- call_loss loss_func (A3 est_mixes) (A3 targets) ;;
   column <- lift (as_vector l) ;;
   ret (est_mixes, column)) t = (t', Ok y) ->
  t' = t ++ [LossCall] /\
  mix bk est_targets partition = Ok (fst y) /\
  loss_func (A3 (fst y)) (A3 targets) = A1 (snd y).
Proof.
  intros Hchecks H.
  apply bind_inv in H. destruct H as (t1 & u & Hc & H).
  apply Hchecks in Hc. subst t1.
  apply bind_inv in H. destruct H as (t2 & em & Hmix & H).
  apply lift_inv in Hmix. destruct Hmix as [-> Hmix].
  apply bind_inv in H. destruct H as (t3 & l & Hl & H).
  apply call_loss_inv in Hl. destruct Hl as [-> ->].
  apply bind_inv in H. destruct H as (t4 & col & Hv & H).
  apply lift_inv in Hv. destruct Hv as [-> Hv].
  apply ret_inv in H. destruct H as [-> ->]. simpl.
  split; [reflexivity|]. split; [exact Hmix|].
  apply as_vector_inv. exact Hv.
Qed.

Lemma best_of_partitions_result bk loss_func est_targets targets parts checks
    t t' min_loss ordered :
  (forall p t0 t1 u, checks p t0 = (t1, Ok u) -> t1 = t0) ->
  best_of_partitions bk loss_func est_targets targets parts checks t
  = (t', Ok (min_loss, ordered)) ->
  t' = t ++ repeat LossCall (length parts) /\
  length min_loss = length est_targets /\
  length ordered = length est_targets /\
  forall b row,
    nth_error est_targets b = Some row ->
    exists v partition est_mixes column mixes,
      nth_error min_loss b = Some [v] /\
      In partition parts /\
      mix bk est_targets partition = Ok est_mixes /\
      loss_func (A3 est_mixes) (A3 targets) = A1 column /\
      nth_error column b = Some v /\
      mix_row bk (shape2 est_targets) row partition = Ok mixes /\
      nth_error ordered b = Some mixes /\
      forall partition' est_mixes' column' v',
        In partition' parts ->
        mix bk est_targets partition' = Ok est_mixes' ->
        loss_func (A3 est_mixes') (A3 targets) = A1 column' ->
        nth_error column' b = Some v' ->
        (v <= v')%Q.
Proof.
  intros Hchecks H. unfold best_of_partitions in H.
  apply bind_inv in H. destruct H as (t1 & evals & Hev & H).
  apply bind_inv in H. destruct H as (t2 & loss_set & Hst & H).
  apply lift_inv in Hst. destruct Hst as [-> Hst].
  apply bind_inv in H. destruct H as (t3 & mins & Hmin & H).
  apply lift_inv in Hmin. destruct Hmin as [-> Hmin].
  apply bind_inv in H. destruct H as (t4 & u & Has & H).
  apply py_assert_inv in Has. destruct Has as [-> Has].
  apply Nat.eqb_eq in Has.
  apply bind_inv in H. destruct H as (t5 & ord & Hord & H).
  apply lift_inv in Hord. destruct Hord as [-> Hord].
  apply ret_inv in H. destruct H as [-> H]. inversion H; subst min_loss ordered.
  clear H.
  apply (mapM_ok_trace _ LossCall 1) in Hev.
  2:{ intros p t0 t0' y Hy.
      destruct (partition_evaluated _ _ _ _ _ _ _ _ _ Hchecks Hy) as (-> & _).
      reflexivity. }
  destruct Hev as [-> Hevals]. rewrite Nat.mul_1_r.
  assert (Hev' : Forall2 (fun p y => mix bk est_targets p = Ok (fst y) /\
                    loss_func (A3 (fst y)) (A3 targets) = A1 (snd y))
                   parts evals).
  { eapply Forall2_impl; [|exact Hevals]. intros p y (t0 & t0' & Hy).
    destruct (partition_evaluated _ _ _ _ _ _ _ _ _ Hchecks Hy) as (_ & Hm).
    exact Hm. }
  clear Hevals.
  destruct (selected_minima _ _ _ Hst Hmin) as (Hne & Hcols & Hsel).
  assert (Hlen : length mins = length est_targets).
  { rewrite Has. unfold shape0.
    assert (Hin : In (last evals ([], [])) evals).
    { apply last_In. intros ->. apply Hne. reflexivity. }
    destruct (In_nth_error _ _ Hin) as (k & Ek).
    destruct (Forall2_nth_error_r _ _ _ Hev' k _ Ek) as (p & _ & Hm & _).
    unfold mix in Hm. apply mapR_length in Hm. exact Hm. }
  split; [reflexivity|]. rewrite length_map.
  split; [exact Hlen|].
  pose proof (mapR_length _ _ _ Hord) as Hlo.
  rewrite length_combine, Hlen, Nat.min_id in Hlo.
  split; [exact Hlo|].
  intros b row Hrow.
  assert (Hb : b < length mins).
  { rewrite Hlen. apply nth_error_Some. rewrite Hrow. discriminate. }
  destruct (nth_error mins b) as [[v k]|] eqn:Emin;
    [|apply nth_error_None in Emin; lia].
  destruct (Hsel b (v, k) Emin) as (col & Ecol & Ev & Hleast). simpl in *.
  rewrite nth_error_map in Ecol.
  destruct (nth_error evals k) as [[em col']|] eqn:Eev; simpl in Ecol;
    [|discriminate Ecol].
  inversion Ecol; subst col'. clear Ecol.
  destruct (Forall2_nth_error_r _ _ _ Hev' k _ Eev) as (p & Ep & Hm & Hl).
  simpl in Hm, Hl.
  apply mapR_Forall2 in Hord.
  destruct (Forall2_nth_error _ _ _ Hord b (row, (v, k))
              (nth_error_combine _ _ _ _ _ Hrow Emin)) as (mixes & Emix & Hmixes).
  simpl in Hmixes. unfold get in Hmixes. rewrite Ep in Hmixes. simpl in Hmixes.
  exists v, p, em, col, mixes.
  split; [rewrite nth_error_map, Emin; reflexivity|].
  split; [eapply nth_error_In; exact Ep|].
  split; [exact Hm|]. split; [exact Hl|]. split; [exact Ev|].
  split; [exact Hmixes|]. split; [exact Emix|].
  intros p' em' col' v' Hp' Hm' Hl' Hv'.
  destruct (In_nth_error _ _ Hp') as (k' & Ek').
  destruct (Forall2_nth_error _ _ _ Hev' k' p' Ek') as ([em'' col''] & Eev' & Hm'' & Hl'').
  simpl in Hm'', Hl''. rewrite Hm' in Hm''. inversion Hm''; subst em''.
  rewrite Hl' in Hl''. inversion Hl''; subst col''.
  apply (Hleast k' col' v'); [|exact Hv'].
  rewrite nth_error_map, Eev'. reflexivity.
Qed.

Lemma equal_size_checks_silent n_src n_mixtures (p : list (list nat)) t0 t1 u :
  (first <- lift (get p 0) ;;
   py_assert (length first =? n_src) None ;;
   py_assert (length p =? n_mixtures) None) t0 = (t1, Ok u) ->
  t1 = t0.
Proof.
  intros H. apply bind_inv in H. destruct H as (t2 & first & Hf & H).
  apply lift_inv in Hf. destruct Hf as [-> _].
  apply bind_inv in H. destruct H as (t3 & u' & Ha & H).
  apply py_assert_inv in Ha. destruct Ha as [-> _].
  apply py_assert_inv in H. destruct H as [-> _]. reflexivity.
Qed.

Lemma combs_count_exact n_est n_mixtures :
  n_mixtures <> 0 -> n_est mod n_mixtures = 0 ->
  combs_count n_est (n_est / n_mixtures) n_mixtures
  = fact n_est / fact (n_est / n_mixtures) ^ n_mixtures.
Proof.
  intros Hm Hdiv. remember (n_est / n_mixtures) as k eqn:Ek.
  assert (Hn : n_est = k * n_mixtures).
  { subst k. pose proof (Nat.div_mod_eq n_est n_mixtures). lia. }
  clear Ek Hdiv. subst n_est. apply combs_count_div.
Qed.

Lemma best_part_mix_it_selects_least_aux :
  forall bk loss_func est_targets targets t t' min_loss ordered,
    best_part_mix_it bk loss_func est_targets targets t
    = (t', Ok (min_loss, ordered)) ->
    let n_mixtures := shape1 targets in
    let n_est := shape1 est_targets in
    let n_src := n_est / n_mixtures in
    t' = t ++ repeat LossCall (fact n_est / fact n_src ^ n_mixtures) /\
    length min_loss = length est_targets /\
    length ordered = length est_targets /\
    least_partition_selected bk loss_func est_targets targets
      (combs (range n_est) n_src n_mixtures) min_loss ordered.
Proof.
  intros bk lf est tgt t t' ml ord H n_mixtures n_est n_src.
  unfold best_part_mix_it in H.
  apply bind_inv in H. destruct H as (t1 & u1 & H1 & H).
  apply py_assert_inv in H1. destruct H1 as [-> _].
  apply bind_inv in H. destruct H as (t2 & u2 & H2 & H).
  apply py_assert_inv in H2. destruct H2 as [-> _].
  apply bind_inv in H. destruct H as (t3 & r & Hr & H).
  unfold py_mod in Hr. fold n_mixtures n_est in Hr.
  destruct (Nat.eqb_spec n_mixtures 0) as [|Hm]; [discriminate Hr|].
  apply ret_inv in Hr. destruct Hr as [-> ->].
  destruct (Nat.eqb_spec (n_est mod n_mixtures) 0) as [Hdiv|]; simpl in H;
    [|discriminate H].
  fold n_mixtures n_est n_src in H.
  apply best_of_partitions_result in H.
  2:{ intros p t0 t1 u. apply equal_size_checks_silent. }
  destruct H as (-> & Hl & Hlo & Hsel).
  split; [|split; [exact Hl | split; [exact Hlo | exact Hsel]]].
  f_equal. f_equal. rewrite combs_length by apply range_NoDup.
  rewrite range_length. apply combs_count_exact; assumption.
Qed.

(** X8.  When the equal-size partition search returns, it has called the loss
    callback once per candidate partition, [n_est! / (n_src!)^n_mixtures]
    times, and it returns one loss and one row of mixtures per batch
    row: the loss of a candidate that no candidate undercuts on that
    row, and the estimates of the row summed after the groups of that
    candidate. *)
Theorem best_part_mix_it_selects_least :
  forall bk loss_func est_targets targets t t' min_loss ordered,
    best_part_mix_it bk loss_func est_targets targets t
    = (t', Ok (min_loss, ordered)) ->
    let n_mixtures := shape1 targets in
    let n_est := shape1 est_targets in
    let n_src := n_est / n_mixtures in
    t' = t ++ repeat LossCall (fact n_est / fact n_src ^ n_mixtures) /\
    length min_loss = length est_targets /\
    length ordered = length est_targets /\
    least_partition_selected bk loss_func est_targets targets
      (combs (range n_est) n_src n_mixtures) min_loss ordered.
Proof. exact best_part_mix_it_selects_least_aux. Qed.

Lemma best_part_mix_it_selects_least_witness :
  repeat LossCall 6 = [] ++ repeat LossCall (fact 4 / fact (4 / 2) ^ 2) /\
  length [[0 # 8]; [0 # 8]]%Q = length example_estimates4 /\
  length example_targets = length example_estimates4 /\
  least_partition_selected exact_backend batch_mse example_estimates4 example_targets
    (combs (range 4) (4 / 2) 2) [[0 # 8]; [0 # 8]]%Q example_targets.
Proof.
  apply (best_part_mix_it_selects_least exact_backend batch_mse example_estimates4
           example_targets [] (repeat LossCall 6)
           [[0 # 8]; [0 # 8]]%Q example_targets).
  vm_compute. reflexivity.
Defined.

Lemma best_part_mix_it_generalized_selects_least_aux :
  forall bk loss_func est_targets targets t t' min_loss ordered,
    best_part_mix_it_generalized bk loss_func est_targets targets t
    = (t', Ok (min_loss, ordered)) ->
    let n_est := shape1 est_targets in
    shape1 targets = 2 /\
    t' = t ++ repeat LossCall (2 ^ n_est) /\
    length min_loss = length est_targets /\
    length ordered = length est_targets /\
    least_partition_selected bk loss_func est_targets targets
      (all_combinations (range n_est)) min_loss ordered.
Proof.
  intros bk lf est tgt t t' ml ord H n_est.
  unfold best_part_mix_it_generalized in H.
  apply bind_inv in H. destruct H as (t1 & u1 & H1 & H).
  apply py_assert_inv in H1. destruct H1 as [-> _].
  apply bind_inv in H. destruct H as (t2 & u2 & H2 & H).
  apply py_assert_inv in H2. destruct H2 as [-> _].
  destruct (Nat.eqb_spec (shape1 tgt) 2) as [Hm|]; simpl in H; [|discriminate H].
  fold n_est in H.
  apply best_of_partitions_result in H.
  2:{ intros p t0 t1 u Hp. apply py_assert_inv in Hp. apply Hp. }
  destruct H as (-> & Hl & Hlo & Hsel).
  split; [exact Hm|].
  split; [|split; [exact Hl | split; [exact Hlo | exact Hsel]]].
  rewrite all_combinations_length, range_length. reflexivity.
Qed.

(** X9.  When the generalized partition search returns, there are two target
    mixtures, the loss callback has been called once per split,
    [2^n_est] times, and for every batch row the search returns the loss
    of a split that no split undercuts on that row, with the estimates
    of the row summed after the two groups of that split. *)
Theorem best_part_mix_it_generalized_selects_least :
  forall bk loss_func est_targets targets t t' min_loss ordered,
    best_part_mix_it_generalized bk loss_func est_targets targets t
    = (t', Ok (min_loss, ordered)) ->
    let n_est := shape1 est_targets in
    shape1 targets = 2 /\
    t' = t ++ repeat LossCall (2 ^ n_est) /\
    length min_loss = length est_targets /\
    length ordered = length est_targets /\
    least_partition_selected bk loss_func est_targets targets
      (all_combinations (range n_est)) min_loss ordered.
Proof. exact best_part_mix_it_generalized_selects_least_aux. Qed.

Lemma best_part_mix_it_generalized_selects_least_witness :
  shape1 [[[2; 1]; [0; 1]]]%Q = 2 /\
  repeat LossCall 8 = [] ++ repeat LossCall (2 ^ 3) /\
  length [[0 # 8]]%Q = 1 /\
  length [[[2; 1]; [0; 1]]]%Q = 1 /\
  least_partition_selected exact_backend batch_mse [[[1; 0]; [0; 1]; [1; 1]]]%Q
    [[[2; 1]; [0; 1]]]%Q (all_combinations (range 3))
    [[0 # 8]]%Q [[[2; 1]; [0; 1]]]%Q.
Proof.
  apply (best_part_mix_it_generalized_selects_least exact_backend batch_mse
           [[[1; 0]; [0; 1]; [1; 1]]]%Q [[[2; 1]; [0; 1]]]%Q []
           (repeat LossCall 8) [[0 # 8]]%Q [[[2; 1]; [0; 1]]]%Q).
  vm_compute. reflexivity.
Defined.

(** ** The search on whole-permutation losses *)

Lemma permutation_evaluated loss_func (est_targets targets : tensor3) perm t t' l :
  (permuted <- lift (mapR (fun row => index_select row perm) est_targets) ;;
   call_loss loss_func (A3 permuted) (A3 targets)) t = (t', Ok l) ->
  t' = t ++ [LossCall] /\
  exists permuted,
    mapR (fun row => index_select row perm) est_targets = Ok permuted /\
    l = loss_func (A3 permuted) (A3 targets).
Proof.
  intros H. apply bind_inv in H. destruct H as (t1 & permuted & Hp & H).
  apply lift_inv in Hp. destruct Hp as [-> Hp].
  apply call_loss_inv in H. destruct H as [-> ->].
  split; [reflexivity|]. exists permuted. split; [exact Hp | reflexivity].
Qed.

Lemma best_perm_from_perm_avg_loss_selects_least_aux :
  forall loss_func est_targets targets t t' min_loss batch_indices,
    best_perm_from_perm_avg_loss loss_func est_targets targets t
    = (t', Ok (min_loss, batch_indices)) ->
    let n_src := shape1 targets in
    t' = t ++ repeat LossCall (fact n_src) /\
    length min_loss = length batch_indices /\
    forall b v,
      nth_error min_loss b = Some v ->
      exists perm permuted column,
        nth_error batch_indices b = Some perm /\
        Permutation perm (range n_src) /\
        mapR (fun row => index_select row perm) est_targets = Ok permuted /\
        loss_func (A3 permuted) (A3 targets) = A1 column /\
        nth_error column b = Some v /\
        forall perm' permuted' column' v',
          Permutation perm' (range n_src) ->
          mapR (fun row => index_select row perm') est_targets = Ok permuted' ->
          loss_func (A3 permuted') (A3 targets) = A1 column' ->
          nth_error column' b = Some v' ->
          (v <= v')%Q.
Proof.
  intros lf est tgt t t' ml bi H n_src.
  unfold best_perm_from_perm_avg_loss in H. fold n_src in H.
  apply bind_inv in H. destruct H as (t1 & losses & Hev & H).
  apply bind_inv in H. destruct H as (t2 & columns & Hcol & H).
  apply lift_inv in Hcol. destruct Hcol as [-> Hcol].
  apply bind_inv in H. destruct H as (t3 & loss_set & Hst & H).
  apply lift_inv in Hst. destruct Hst as [-> Hst].
  apply bind_inv in H. destruct H as (t4 & mins & Hmin & H).
  apply lift_inv in Hmin. destruct Hmin as [-> Hmin].
  apply bind_inv in H. destruct H as (t5 & bi' & Hbi & H).
  apply lift_inv in Hbi. destruct Hbi as [-> Hbi].
  apply ret_inv in H. destruct H as [-> H]. inversion H; subst ml bi. clear H.
  apply (mapM_ok_trace _ LossCall 1) in Hev.
  2:{ intros p t0 t0' y Hy.
      destruct (permutation_evaluated _ _ _ _ _ _ _ Hy) as (-> & _). reflexivity. }
  destruct Hev as [-> Hlosses].
  rewrite Nat.mul_1_r, permutations_length, range_length.
  apply mapR_Forall2 in Hcol.
  assert (Hev' : Forall2 (fun perm column =>
                    exists permuted,
                      mapR (fun row => index_select row perm) est = Ok permuted /\
                      lf (A3 permuted) (A3 tgt) = A1 column)
                   (permutations (range n_src)) columns).
  { eapply Forall2_impl; [|exact (Forall2_compose _ _ _ _ _ Hlosses Hcol)].
    intros perm column (l & (t0 & t0' & Hy) & Hv).
    destruct (permutation_evaluated _ _ _ _ _ _ _ Hy) as (_ & permuted & Hp & ->).
    exists permuted. split; [exact Hp|]. apply as_vector_inv. exact Hv. }
  clear Hlosses Hcol.
  destruct (selected_minima _ _ _ Hst Hmin) as (_ & _ & Hsel).
  apply selected_perms_inv in Hbi. destruct Hbi as [Hbi _].
  pose proof Hbi as Hbi2. apply mapR_Forall2 in Hbi2.
  split; [reflexivity|]. rewrite length_map.
  split; [symmetry; apply (mapR_length _ _ _ Hbi)|].
  intros b v Hv. rewrite nth_error_map in Hv.
  destruct (nth_error mins b) as [[v0 k]|] eqn:Emin; simpl in Hv;
    [|discriminate Hv].
  inversion Hv; subst v0. clear Hv.
  destruct (Hsel b (v, k) Emin) as (col & Ecol & Ev & Hleast). simpl in *.
  destruct (Forall2_nth_error _ _ _ Hbi2 b (v, k) Emin) as (perm & Eperm & Hget).
  simpl in Hget. unfold get in Hget.
  destruct (nth_error (permutations (range n_src)) k) as [perm0|] eqn:Ek;
    [|discriminate Hget].
  inversion Hget; subst perm0. clear Hget.
  destruct (Forall2_nth_error _ _ _ Hev' k perm Ek)
    as (col' & Ecol' & permuted & Hp & Hl).
  rewrite Ecol in Ecol'. inversion Ecol'; subst col'. clear Ecol'.
  exists perm, permuted, col.
  split; [exact Eperm|].
  split; [apply permutations_spec; eapply nth_error_In; exact Ek|].
  split; [exact Hp|]. split; [exact Hl|]. split; [exact Ev|].
  intros perm' permuted' col' v' Hperm' Hp' Hl' Hv'.
  apply permutations_spec in Hperm'.
  destruct (In_nth_error _ _ Hperm') as (k' & Ek').
  destruct (Forall2_nth_error _ _ _ Hev' k' perm' Ek')
    as (col'' & Ecol'' & permuted'' & Hp'' & Hl'').
  rewrite Hp' in Hp''. inversion Hp''; subst permuted''.
  rewrite Hl' in Hl''. inversion Hl''; subst col''.
  apply (Hleast k' col' v'); assumption.
Qed.

(** X10.  When the search on whole-permutation losses returns, it has called
    the loss callback once per permutation of [range(n_src)], [n_src!]
    times, and every returned loss comes with a permutation of
    [range(n_src)]: the loss is the callback's value on that batch row
    for the estimates taken in the order of that permutation, and no
    permutation gives a smaller one. *)
Theorem best_perm_from_perm_avg_loss_selects_least :
  forall loss_func est_targets targets t t' min_loss batch_indices,
    best_perm_from_perm_avg_loss loss_func est_targets targets t
    = (t', Ok (min_loss, batch_indices)) ->
    let n_src := shape1 targets in
    t' = t ++ repeat LossCall (fact n_src) /\
    length min_loss = length batch_indices /\
    forall b v,
      nth_error min_loss b = Some v ->
      exists perm permuted column,
        nth_error batch_indices b = Some perm /\
        Permutation perm (range n_src) /\
        mapR (fun row => index_select row perm) est_targets = Ok permuted /\
        loss_func (A3 permuted) (A3 targets) = A1 column /\
        nth_error column b = Some v /\
        forall perm' permuted' column' v',
          Permutation perm' (range n_src) ->
          mapR (fun row => index_select row perm') est_targets = Ok permuted' ->
          loss_func (A3 permuted') (A3 targets) = A1 column' ->
          nth_error column' b = Some v' ->
          (v <= v')%Q.
Proof. exact best_perm_from_perm_avg_loss_selects_least_aux. Qed.

Lemma best_perm_from_perm_avg_loss_selects_least_witness :
  repeat LossCall 2 = [] ++ repeat LossCall (fact 2) /\
  length [0 # 8; 0 # 8]%Q = length [[1; 0]; [1; 0]] /\
  forall b v,
    nth_error [0 # 8; 0 # 8]%Q b = Some v ->
    exists perm permuted column,
      nth_error [[1; 0]; [1; 0]] b = Some perm /\
      Permutation perm (range 2) /\
      mapR (fun row => index_select row perm) example_estimates = Ok permuted /\
      batch_mse (A3 permuted) (A3 example_targets) = A1 column /\
      nth_error column b = Some v /\
      forall perm' permuted' column' v',
        Permutation perm' (range 2) ->
        mapR (fun row => index_select row perm') example_estimates = Ok permuted' ->
        batch_mse (A3 permuted') (A3 example_targets) = A1 column' ->
        nth_error column' b = Some v' ->
        (v <= v')%Q.
Proof.
  apply (best_perm_from_perm_avg_loss_selects_least batch_mse example_estimates
           example_targets [] (repeat LossCall 2) [0 # 8; 0 # 8]%Q
           [[1; 0]; [1; 0]]).
  vm_compute. reflexivity.
Defined.

(** ** The pairwise loss matrix *)

Lemma mapM_total {A B} (f : A -> M B) (g : A -> B) (ev : event) (k : nat)
    (l : list A) :
  (forall x, In x l -> forall t, f x t = (t ++ repeat ev k, Ok (g x))) ->
  forall t, mapM f l t = (t ++ repeat ev (length l * k), Ok (map g l)).
Proof.
  induction l as [|x l IH]; intros H t; simpl.
  - unfold ret. rewrite app_nil_r. reflexivity.
  - rewrite (bind_ok _ _ _ _ _ (H x (or_introl eq_refl) t)).
    rewrite (bind_ok _ _ _ _ _
               (IH (fun y Hy => H y (or_intror Hy)) (t ++ repeat ev k))).
    unfold ret. rewrite repeat_app, app_assoc. reflexivity.
Qed.

Lemma enumerate_map_range {A} (f : nat -> A) n :
  enumerate (map f (range n)) = map (fun i => (i, f i)) (range n).
Proof.
  unfold enumerate. rewrite length_map, range_length.
  induction (range n) as [|i l IH]; simpl; [reflexivity | rewrite IH; reflexivity].
Qed.

Lemma nth_map_range {A} (f : nat -> A) n i d :
  i < n -> nth i (map f (range n)) d = f i.
Proof.
  intros Hi. unfold range.
  rewrite (nth_indep _ d (f 0)) by (rewrite length_map, length_seq; exact Hi).
  rewrite map_nth, seq_nth by exact Hi. reflexivity.
Qed.

Lemma get_pw_losses_entries_aux :
  forall bk loss_func est_targets targets t,
    shape1 est_targets <= shape1 targets ->
    pairwise_callback_ok loss_func est_targets targets = true ->
    exists pair_wise_losses,
      get_pw_losses bk loss_func est_targets targets t
      = (t ++ repeat LossCall (shape1 est_targets * shape1 targets),
         Ok pair_wise_losses) /\
      length pair_wise_losses = shape0 targets /\
      square (shape1 targets) pair_wise_losses = true /\
      forall b est_idx target_idx,
        b < shape0 targets ->
        est_idx < shape1 est_targets ->
        target_idx < shape1 targets ->
        exists losses,
          as_batch_vector (shape0 targets)
            (loss_func (A2 (source_at est_idx est_targets))
                       (A2 (source_at target_idx targets)))
          = Ok losses /\
          nth target_idx (nth est_idx (nth b pair_wise_losses []) []) 0%Q
          = nth b losses 0%Q.
Proof.
  intros bk lf est tgt t Hle Hok.
  set (B := shape0 tgt) in *. set (n_src := shape1 tgt) in *.
  set (n_est := shape1 est) in *.
  set (vec := fun i j =>
         match as_batch_vector B (lf (A2 (source_at i est)) (A2 (source_at j tgt)))
         with Ok v => v | Raise _ => [] end).
  assert (Hvec : forall i j, i < n_est -> j < n_src ->
             as_batch_vector B (lf (A2 (source_at i est)) (A2 (source_at j tgt)))
             = Ok (vec i j)).
  { intros i j Hi Hj. unfold pairwise_callback_ok in Hok.
    rewrite forallb_forall in Hok.
    specialize (Hok i ltac:(apply in_seq; fold n_est; lia)).
    rewrite forallb_forall in Hok.
    specialize (Hok j ltac:(apply in_seq; fold n_src; lia)).
    fold B in Hok. unfold vec.
    destruct (as_batch_vector B _) as [v|e]; [reflexivity | discriminate Hok]. }
  set (written := map (fun i => map (vec i) (range n_src)) (range n_est)).
  assert (Hrun : mapM (fun est0 =>
                   mapM (fun target =>
                     l <- call_loss lf (A2 (snd est0)) (A2 (snd target)) ;;
                     (if fst est0 <? n_src then ret tt else raise IndexError) ;;
                     lift (as_batch_vector B l))
                   (enumerate (transpose [] n_src tgt)))
                 (enumerate (transpose [] n_est est)) t
                 = (t ++ repeat LossCall (n_est * n_src), Ok written)).
  { unfold transpose. rewrite !enumerate_map_range.
    pose proof (mapM_total
      (fun est0 : nat * matrix =>
         mapM (fun target : nat * matrix =>
           l <- call_loss lf (A2 (snd est0)) (A2 (snd target)) ;;
           (if fst est0 <? n_src then ret tt else raise IndexError) ;;
           lift (as_batch_vector B l))
         (map (fun i => (i, map (fun row : list (list Q) => nth i row []) tgt))
              (range n_src)))
      (fun est0 => map (vec (fst est0)) (range n_src)) LossCall n_src
      (map (fun i => (i, map (fun row : list (list Q) => nth i row []) est))
           (range n_est))) as Houter.
    rewrite length_map, range_length, map_map in Houter. simpl in Houter.
    apply Houter. clear Houter.
    intros [i e] Hin t0. apply in_map_iff in Hin.
    destruct Hin as (i' & Ei & Hi). inversion Ei; subst i' e. clear Ei.
    apply in_seq in Hi. simpl fst. simpl snd.
    pose proof (mapM_total
      (fun target : nat * matrix =>
         l <- call_loss lf (A2 (map (fun row : list (list Q) => nth i row []) est))
                        (A2 (snd target)) ;;
         (if i <? n_src then ret tt else raise IndexError) ;;
         lift (as_batch_vector B l))
      (fun target => vec i (fst target)) LossCall 1
      (map (fun j => (j, map (fun row : list (list Q) => nth j row []) tgt))
           (range n_src))) as Hinner.
    rewrite length_map, range_length, Nat.mul_1_r, map_map in Hinner.
    simpl in Hinner. apply Hinner. clear Hinner.
    intros [j e] Hin t1. apply in_map_iff in Hin.
    destruct Hin as (j' & Ej & Hj). inversion Ej; subst j' e. clear Ej.
    apply in_seq in Hj. simpl fst. simpl snd.
    unfold call_loss, bind, emit, ret, lift.
    assert ((i <? n_src) = true) as -> by (apply Nat.ltb_lt; lia).
    fold (source_at i est). fold (source_at j tgt).
    rewrite Hvec by lia. reflexivity. }
  exists (map (fun b =>
            map (fun est_idx =>
              map (fun target_idx =>
                     match nth_error written est_idx with
                     | Some row => nth b (nth target_idx row []) 0%Q
                     | None => fresh bk b est_idx target_idx
                     end)
                  (range n_src))
              (range n_src))
            (range B)).
  split.
  - unfold get_pw_losses. fold B n_src n_est.
    rewrite (bind_ok _ _ _ _ _ Hrun). reflexivity.
  - split; [rewrite length_map; apply range_length|]. split.
    + unfold square. apply forallb_forall. intros m Hm.
      apply in_map_iff in Hm. destruct Hm as (b & <- & _).
      rewrite length_map, range_length, Nat.eqb_refl. simpl.
      apply forallb_forall. intros row Hrow.
      apply in_map_iff in Hrow. destruct Hrow as (i & <- & _).
      rewrite length_map, range_length. apply Nat.eqb_refl.
    + intros b i j Hb Hi Hj. exists (vec i j). split; [apply Hvec; assumption|].
      rewrite (nth_map_range _ B b []) by exact Hb.
      rewrite (nth_map_range _ n_src i []) by lia.
      rewrite (nth_map_range _ n_src j 0%Q) by exact Hj.
      assert (Hw : i < length written)
        by (unfold written; rewrite length_map, range_length; exact Hi).
      rewrite (nth_error_nth' written [] Hw).
      unfold written.
      rewrite (nth_map_range (fun i0 => map (vec i0) (range n_src)) n_est i [])
        by exact Hi.
      rewrite (nth_map_range (vec i) n_src j []) by exact Hj. reflexivity.
Qed.

(** X11.  With no more estimated than target sources, and a callback that
    gives one loss per batch row for every pair of sources,
    [get_pw_losses] calls the callback once per pair, estimate by
    estimate and target by target, and returns a batch of [n_src] by
    [n_src] matrices whose entry [[b, est_idx, target_idx]] is the loss
    of that pair on batch row [b]. *)
Theorem get_pw_losses_entries :
  forall bk loss_func est_targets targets t,
    shape1 est_targets <= shape1 targets ->
    pairwise_callback_ok loss_func est_targets targets = true ->
    exists pair_wise_losses,
      get_pw_losses bk loss_func est_targets targets t
      = (t ++ repeat LossCall (shape1 est_targets * shape1 targets),
         Ok pair_wise_losses) /\
      length pair_wise_losses = shape0 targets /\
      square (shape1 targets) pair_wise_losses = true /\
      forall b est_idx target_idx,
        b < shape0 targets ->
        est_idx < shape1 est_targets ->
        target_idx < shape1 targets ->
        exists losses,
          as_batch_vector (shape0 targets)
            (loss_func (A2 (source_at est_idx est_targets))
                       (A2 (source_at target_idx targets)))
          = Ok losses /\
          nth target_idx (nth est_idx (nth b pair_wise_losses []) []) 0%Q
          = nth b losses 0%Q.
Proof. exact get_pw_losses_entries_aux. Qed.

Lemma get_pw_losses_entries_witness :
  exists pair_wise_losses,
    get_pw_losses exact_backend pairwise_mse example_estimates example_targets []
    = ([] ++ repeat LossCall (2 * 2), Ok pair_wise_losses) /\
    length pair_wise_losses = 2 /\
    square 2 pair_wise_losses = true /\
    forall b est_idx target_idx,
      b < 2 -> est_idx < 2 -> target_idx < 2 ->
      exists losses,
        as_batch_vector 2
          (pairwise_mse (A2 (source_at est_idx example_estimates))
                        (A2 (source_at target_idx example_targets)))
        = Ok losses /\
        nth target_idx (nth est_idx (nth b pair_wise_losses []) []) 0%Q
        = nth b losses 0%Q.
Proof.
  apply (get_pw_losses_entries exact_backend pairwise_mse example_estimates example_targets []).
  - cbv. lia.
  - vm_compute. reflexivity.
Defined.

(** ** Further properties of [forward] and of [PITReorder] *)

Lemma forward_pairwise_flag bk solver self est_targets targets pw t t' mean_loss
    reordered :
  forward_pairwise bk solver self est_targets targets true pw t
  = (t', Ok (LossAndEst mean_loss reordered)) ->
  forward_pairwise bk solver self est_targets targets false pw t
  = (t', Ok (Loss mean_loss)).
Proof.
  unfold forward_pairwise. intros H.
  apply bind_inv in H. destruct H as (t1 & u & H1 & H).
  rewrite (bind_ok _ _ _ _ _ H1).
  apply bind_inv in H. destruct H as (t2 & pwl & H2 & H).
  rewrite (bind_ok _ _ _ _ _ H2).
  apply bind_inv in H. destruct H as (t3 & u3 & H3 & H).
  rewrite (bind_ok _ _ _ _ _ H3).
  apply bind_inv in H. destruct H as (t4 & found & H4 & H).
  rewrite (bind_ok _ _ _ _ _ H4). simpl in H |- *.
  apply bind_inv in H. destruct H as (t5 & r & H5 & H).
  apply lift_inv in H5. destruct H5 as [-> _].
  apply ret_inv in H. destruct H as [-> H]. inversion H. reflexivity.
Qed.

Lemma forward_flag_only_adds_estimates_aux :
  forall bk solver self est_targets targets t t' mean_loss reordered,
    pit_from self = "pw_mtx"%string \/ pit_from self = "pw_pt"%string
    \/ pit_from self = "perm_avg"%string ->
    forward bk solver self est_targets targets true t
    = (t', Ok (LossAndEst mean_loss reordered)) ->
    forward bk solver self est_targets targets false t
    = (t', Ok (Loss mean_loss)).
Proof.
  intros bk solver self est tgt t t' l r Hmode H.
  unfold forward in H |- *.
  apply bind_inv in H. destruct H as (t1 & u & H1 & H).
  rewrite (bind_ok _ _ _ _ _ H1). unfold forward_modes in H |- *.
  destruct Hmode as [Hm | [Hm | Hm]]; rewrite Hm in H |- *; simpl in H |- *.
  - apply bind_inv in H. destruct H as (t2 & pw & H2 & H).
    rewrite (bind_ok _ _ _ _ _ H2). apply forward_pairwise_flag with (1 := H).
  - apply bind_inv in H. destruct H as (t2 & pw & H2 & H).
    rewrite (bind_ok _ _ _ _ _ H2). apply forward_pairwise_flag with (1 := H).
  - apply bind_inv in H. destruct H as (t2 & found & H2 & H).
    rewrite (bind_ok _ _ _ _ _ H2). simpl in H |- *.
    apply bind_inv in H. destruct H as (t3 & r' & H3 & H).
    apply lift_inv in H3. destruct H3 as [-> _].
    apply ret_inv in H. destruct H as [-> H]. inversion H. reflexivity.
Qed.

(** X12.  In the modes [pw_mtx], [pw_pt] and [perm_avg], asking for the
    reordered estimates changes neither the loss nor the calls made:
    when [forward] returns a loss and estimates with [return_est=True],
    it returns that same loss, after the same calls, with
    [return_est=False]. *)
Theorem forward_flag_only_adds_estimates :
  forall bk solver self est_targets targets t t' mean_loss reordered,
    pit_from self = "pw_mtx"%string \/ pit_from self = "pw_pt"%string
    \/ pit_from self = "perm_avg"%string ->
    forward bk solver self est_targets targets true t
    = (t', Ok (LossAndEst mean_loss reordered)) ->
    forward bk solver self est_targets targets false t
    = (t', Ok (Loss mean_loss)).
Proof. exact forward_flag_only_adds_estimates_aux. Qed.

Lemma forward_flag_only_adds_estimates_witness :
  forward exact_backend exhaustive_assignment (example_wrapper pairwise_mse "pw_pt")
          example_estimates example_targets false []
  = (repeat LossCall 4, Ok (Loss (0 # 2048))).
Proof.
  apply (forward_flag_only_adds_estimates exact_backend exhaustive_assignment
           (example_wrapper pairwise_mse "pw_pt") example_estimates
           example_targets [] (repeat LossCall 4) (0 # 2048) example_targets).
  - right. left. reflexivity.
  - vm_compute. reflexivity.
Defined.

Lemma forward_rejects_malformed_matrix_aux :
  forall bk solver self est_targets targets return_est t,
    pit_from self = "pw_mtx"%string ->
    shape1 targets < 10 ->
    (ndim (loss_func self (A3 est_targets) (A3 targets)) <> 3 ->
       forward bk solver self est_targets targets return_est t
       = (t ++ [LossCall], Raise (AssertionError (Some ndim_msg)))) /\
    (forall pair_wise_losses,
       loss_func self (A3 est_targets) (A3 targets) = A3 pair_wise_losses ->
       shape0 pair_wise_losses <> shape0 targets ->
       forward bk solver self est_targets targets return_est t
       = (t ++ [LossCall], Raise (AssertionError (Some batch_dim_msg)))).
Proof.
  intros bk solver self est tgt re t Hm Hn.
  unfold forward, forward_modes. rewrite Hm. simpl.
  unfold bind at 1. unfold py_assert at 1.
  assert ((shape1 tgt <? 10) = true) as -> by (apply Nat.ltb_lt; exact Hn).
  simpl. unfold bind at 1. unfold call_loss, bind, emit, ret. simpl.
  unfold forward_pairwise. split.
  - intros Hnd. unfold bind at 1. unfold py_assert.
    destruct (Nat.eqb_spec (ndim (loss_func self (A3 est) (A3 tgt))) 3) as [E|_];
      [contradiction | reflexivity].
  - intros pwl Hpwl Hb. rewrite Hpwl. unfold bind, py_assert, lift. simpl.
    destruct (Nat.eqb_spec (shape0 pwl) (shape0 tgt)) as [E|_];
      [contradiction | reflexivity].
Qed.

(** X13.  In the mode [pw_mtx] and with fewer than 10 sources, [forward]
    checks what the callback returns before any search: an array that is
    not of rank 3, or a batch of matrices with another batch size than
    the targets, makes it raise the corresponding [AssertionError] right
    after the single call to the callback. *)
Theorem forward_rejects_malformed_matrix :
  forall bk solver self est_targets targets return_est t,
    pit_from self = "pw_mtx"%string ->
    shape1 targets < 10 ->
    (ndim (loss_func self (A3 est_targets) (A3 targets)) <> 3 ->
       forward bk solver self est_targets targets return_est t
       = (t ++ [LossCall], Raise (AssertionError (Some ndim_msg)))) /\
    (forall pair_wise_losses,
       loss_func self (A3 est_targets) (A3 targets) = A3 pair_wise_losses ->
       shape0 pair_wise_losses <> shape0 targets ->
       forward bk solver self est_targets targets return_est t
       = (t ++ [LossCall], Raise (AssertionError (Some batch_dim_msg)))).
Proof. exact forward_rejects_malformed_matrix_aux. Qed.

Lemma forward_rejects_malformed_matrix_witness :
  forward exact_backend exhaustive_assignment (example_wrapper batch_mse "pw_mtx")
          example_estimates example_targets true []
  = ([] ++ [LossCall], Raise (AssertionError (Some ndim_msg))) /\
  forward exact_backend exhaustive_assignment (example_wrapper pairwise_mse "pw_mtx")
          [[[0%Q]; [0%Q]]] example_targets true []
  = ([] ++ [LossCall], Raise (AssertionError (Some batch_dim_msg))).
Proof.
  split.
  - apply (proj1 (forward_rejects_malformed_matrix exact_backend exhaustive_assignment
                    (example_wrapper batch_mse "pw_mtx") example_estimates
                    example_targets true [] eq_refl ltac:(cbv; lia))).
    vm_compute. discriminate.
  - apply (proj2 (forward_rejects_malformed_matrix exact_backend exhaustive_assignment
                    (example_wrapper pairwise_mse "pw_mtx") [[[0%Q]; [0%Q]]]
                    example_targets true [] eq_refl ltac:(cbv; lia))
             [[[sqdiff [0%Q] [1; 0]%Q; sqdiff [0%Q] [0; 1]%Q];
               [sqdiff [0%Q] [1; 0]%Q; sqdiff [0%Q] [0; 1]%Q]]]).
    + reflexivity.
    + cbv. lia.
Defined.

Lemma unsupported_mode_eqb mode s :
  ~ In mode supported_modes -> In s supported_modes -> (mode =? s)%string = false.
Proof.
  intros Hn Hs. destruct (String.eqb_spec mode s) as [->|]; [contradiction|].
  reflexivity.
Qed.

Lemma unsupported_mode_falls_through_aux :
  forall bk solver self est_targets targets return_est t,
    ~ In (pit_from self) supported_modes ->
    shape1 targets < 10 ->
    forward bk solver self est_targets targets return_est t = (t, Ok NoValue) /\
    reorder_forward bk solver self est_targets targets t = (t, Raise TypeError).
Proof.
  intros bk solver self est tgt re t Hmode Hn.
  assert (Hf : forall re', forward bk solver self est tgt re' t = (t, Ok NoValue)).
  { intros re'. unfold forward, forward_modes, bind, py_assert.
    assert ((shape1 tgt <? 10) = true) as -> by (apply Nat.ltb_lt; exact Hn).
    simpl.
    rewrite !(unsupported_mode_eqb _ _ Hmode) by (simpl; tauto).
    reflexivity. }
  split; [apply Hf|].
  unfold reorder_forward. rewrite (bind_ok _ _ _ _ _ (Hf true)). reflexivity.
Qed.

(** X14.  A wrapper whose mode is none of the five supported ones (its
    attribute was changed after construction) makes [forward] return
    nothing, without a call and without an error; [PITReorder.forward],
    which unpacks a pair from that result, then raises a [TypeError]. *)
Theorem unsupported_mode_falls_through :
  forall bk solver self est_targets targets return_est t,
    ~ In (pit_from self) supported_modes ->
    shape1 targets < 10 ->
    forward bk solver self est_targets targets return_est t = (t, Ok NoValue) /\
    reorder_forward bk solver self est_targets targets t = (t, Raise TypeError).
Proof. exact unsupported_mode_falls_through_aux. Qed.

Lemma unsupported_mode_falls_through_witness :
  forward exact_backend exhaustive_assignment (example_wrapper pairwise_mse "pw_matrix")
          example_estimates example_targets true []
  = ([], Ok NoValue) /\
  reorder_forward exact_backend exhaustive_assignment (example_wrapper pairwise_mse "pw_matrix")
          example_estimates example_targets []
  = ([], Raise TypeError).
Proof.
  apply (unsupported_mode_falls_through exact_backend exhaustive_assignment
           (example_wrapper pairwise_mse "pw_matrix") example_estimates
           example_targets true []).
  - simpl. intros H.
    repeat (destruct H as [H | H]; [discriminate H|]). exact H.
  - cbv. lia.
Defined.

(** ** The partition searches on well-formed inputs *)

Lemma mix_succeeds bk est_targets n_est (p : list (list nat)) :
  Forall (fun row : list vector => length row = n_est) est_targets ->
  (forall g i, In g p -> In i g -> i < n_est) ->
  exists est_mixes, mix bk est_targets p = Ok est_mixes.
Proof.
  intros Hrect Hidx. unfold mix. apply mapR_exists. intros row Hrow.
  rewrite Forall_forall in Hrect. specialize (Hrect row Hrow).
  unfold mix_row. apply mapR_exists. intros g Hg.
  destruct (index_select_outcome row g) as [Hok _].
  destruct Hok as (out & Eout & _).
  { apply forallb_forall. intros i Hi. apply Nat.ltb_lt.
    rewrite Hrect. exact (Hidx g i Hg Hi). }
  rewrite Eout. simpl. eexists. reflexivity.
Qed.

Lemma partition_callback_inv bk loss_func est_targets targets parts p :
  partition_callback_ok bk loss_func est_targets targets parts = true ->
  In p parts ->
  (exists est_mixes, mix bk est_targets p = Ok est_mixes) ->
  exists est_mixes column,
    mix bk est_targets p = Ok est_mixes /\
    loss_func (A3 est_mixes) (A3 targets) = A1 column /\
    length column = length est_targets /\
    length est_mixes = length est_targets.
Proof.
  unfold partition_callback_ok. rewrite forallb_forall. intros H Hp (em & Em).
  specialize (H p Hp). rewrite Em in H.
  destruct (loss_func (A3 em) (A3 targets)) as [x|col|m|t3] eqn:El;
    try discriminate H.
  apply Nat.eqb_eq in H. exists em, col. repeat split; try assumption.
  unfold mix in Em. apply mapR_length in Em. exact Em.
Qed.

Lemma best_of_partitions_succeeds bk loss_func est_targets targets parts checks t :
  parts <> [] ->
  (forall p, In p parts -> forall t0, checks p t0 = (t0, Ok tt)) ->
  (forall p, In p parts -> exists est_mixes, mix bk est_targets p = Ok est_mixes) ->
  partition_callback_ok bk loss_func est_targets targets parts = true ->
  exists min_loss ordered,
    best_of_partitions bk loss_func est_targets targets parts checks t
    = (t ++ repeat LossCall (length parts), Ok (min_loss, ordered)).
Proof.
  intros Hne Hchecks Hmixes Hok.
  set (em_of := fun p => match mix bk est_targets p with Ok em => em | Raise _ => [] end).
  set (col_of := fun p =>
         match loss_func (A3 (em_of p)) (A3 targets) with
         | A1 c => c | _ => [] end).
  assert (Hp : forall p, In p parts ->
             mix bk est_targets p = Ok (em_of p) /\
             loss_func (A3 (em_of p)) (A3 targets) = A1 (col_of p) /\
             length (col_of p) = length est_targets /\
             length (em_of p) = length est_targets).
  { intros p Hin.
    destruct (partition_callback_inv _ _ _ _ _ _ Hok Hin (Hmixes p Hin))
      as (em & col & Em & El & Hc & He).
    unfold col_of, em_of. rewrite Em, El. repeat split; assumption. }
  assert (Hrun : mapM (fun partition =>
                   checks partition ;;
                   est_mixes <- lift (mix bk est_targets partition) ;;
                   l <- call_loss loss_func (A3 est_mixes) (A3 targets) ;;
                   column <- lift (as_vector l) ;;
                   ret (est_mixes, column)) parts t
                 = (t ++ repeat LossCall (length parts * 1),
                    Ok (map (fun p => (em_of p, col_of p)) parts))).
  { apply mapM_total. intros p Hin t0.
    destruct (Hp p Hin) as (Em & El & _).
    rewrite (bind_ok _ _ _ _ _ (Hchecks p Hin t0)).
    unfold bind, lift, call_loss, emit, ret. rewrite Em. simpl.
    rewrite El. reflexivity. }
  rewrite Nat.mul_1_r in Hrun.
  set (columns := map col_of parts).
  assert (Hstack : stack_columns columns
                   = Ok (transpose 0%Q (length est_targets) columns)).
  { unfold stack_columns, columns.
    destruct parts as [|p0 ps] eqn:Eparts; [contradiction|]. rewrite <- Eparts in *.
    assert (Hin0 : In p0 parts) by (rewrite Eparts; left; reflexivity).
    rewrite Eparts at 1. cbn [map].
    replace (map col_of ps) with (tl (map col_of parts))
      by (rewrite Eparts; reflexivity).
    replace (col_of p0 :: tl (map col_of parts)) with (map col_of parts)
      by (rewrite Eparts; reflexivity).
    destruct (Hp p0 Hin0) as (_ & _ & Hl0 & _). rewrite Hl0.
    assert (forallb (fun c' => length c' =? length est_targets)
                    (map col_of parts) = true) as ->.
    { apply forallb_forall. intros c Hc. apply in_map_iff in Hc.
      destruct Hc as (p & <- & Hin). apply Nat.eqb_eq. apply Hp. exact Hin. }
    reflexivity. }
  assert (Hrows : Forall (fun row : list Q => row <> [])
                         (transpose 0%Q (length est_targets) columns)).
  { apply Forall_forall. intros row Hrow.
    pose proof (transpose_rows 0%Q (length est_targets) columns) as Hr.
    rewrite Forall_forall in Hr. specialize (Hr row Hrow).
    intros ->. simpl in Hr. unfold columns in Hr. rewrite length_map in Hr.
    destruct parts; [contradiction | discriminate Hr]. }
  destruct (row_minima_first _ Hrows) as (mins & Emins & HF).
  assert (Hlen : length mins = length est_targets).
  { rewrite <- (Forall2_length_eq _ _ _ HF). apply transpose_length. }
  assert (Hord : exists ordered,
             mapR (fun b =>
                     bindR (get parts (snd (snd b)))
                       (fun right_partition =>
                          mix_row bk (shape2 est_targets) (fst b) right_partition))
                  (combine est_targets mins) = Ok ordered).
  { apply mapR_exists. intros [row [v k]] Hin. simpl.
    destruct (In_nth_error _ _ Hin) as (b & Eb).
    apply nth_error_combine_inv in Eb. destruct Eb as [Erow Emin].
    destruct (Forall2_nth_error_r _ _ _ HF b (v, k) Emin) as (lrow & Elrow & Hfm).
    simpl in Hfm. apply first_min_lt in Hfm.
    assert (Hk : k < length parts).
    { pose proof (transpose_rows 0%Q (length est_targets) columns) as Hr.
      rewrite Forall_forall in Hr.
      rewrite (Hr lrow (nth_error_In _ _ Elrow)) in Hfm.
      unfold columns in Hfm. rewrite length_map in Hfm. exact Hfm. }
    destruct (nth_error parts k) as [p|] eqn:Ep;
      [|apply nth_error_None in Ep; lia].
    unfold get. rewrite Ep. simpl.
    destruct (Hp p (nth_error_In _ _ Ep)) as (Em & _).
    unfold mix in Em. apply mapR_Forall2 in Em.
    destruct (Forall2_nth_error _ _ _ Em b row Erow) as (mixes & _ & Hmix).
    exists mixes. exact Hmix. }
  destruct Hord as (ordered & Eord).
  exists (map (fun m => [fst m]) mins), ordered.
  unfold best_of_partitions. rewrite (bind_ok _ _ _ _ _ Hrun).
  assert (Hcols : map snd (map (fun p => (em_of p, col_of p)) parts) = columns)
    by (rewrite map_map; reflexivity).
  match goal with
  | |- context [stack_columns ?x] =>
      replace x with columns by (rewrite <- Hcols; reflexivity)
  end.
  unfold bind at 1. unfold lift at 1. rewrite Hstack.
  unfold bind at 1. unfold lift at 1. rewrite Emins.
  assert (Hassert : (length mins
                     =? shape0 (fst (last (map (fun p => (em_of p, col_of p)) parts)
                                          ([], [])))) = true).
  { apply Nat.eqb_eq. rewrite Hlen. unfold shape0.
    assert (Hin : In (last (map (fun p => (em_of p, col_of p)) parts) ([], []))
                     (map (fun p => (em_of p, col_of p)) parts)).
    { apply last_In. intros E. apply map_eq_nil in E. contradiction. }
    apply in_map_iff in Hin. destruct Hin as (p & <- & Hin). simpl.
    symmetry. apply Hp. exact Hin. }
  match goal with
  | |- context [py_assert ?c None] =>
      replace c with true by (symmetry; exact Hassert)
  end.
  unfold bind at 1. unfold py_assert.
  unfold ret at 1. unfold bind, lift, ret. rewrite Eord. reflexivity.
Qed.

Lemma combs_indices_in_range n_est n_src n_mixtures p g i :
  In p (combs (range n_est) n_src n_mixtures) -> In g p -> In i g ->
  i < n_est.
Proof.
  intros Hp Hg Hi.
  destruct (combs_shape n_mixtures (range n_est) n_src p (range_NoDup n_est) Hp)
    as (_ & _ & left_over & Hperm).
  assert (Hin : In i (range n_est)).
  { apply (Permutation_in _ Hperm). apply in_or_app. left.
    apply in_concat. exists g. split; assumption. }
  unfold range in Hin. apply in_seq in Hin. lia.
Qed.

Lemma all_combinations_indices_in_range n_est p g i :
  In p (all_combinations (range n_est)) -> In g p -> In i g -> i < n_est.
Proof.
  intros Hp Hg Hi. apply all_combinations_In in Hp.
  destruct Hp as (first & -> & Hfirst).
  apply combinations_In in Hfirst. destruct Hfirst as (_ & Hincl & _).
  assert (Hin : In i (range n_est)).
  { destruct Hg as [<-|[<-|[]]].
    - apply Hincl. exact Hi.
    - unfold rest_of in Hi. apply filter_In in Hi. apply Hi. }
  unfold range in Hin. apply in_seq in Hin. lia.
Qed.

(** X15. On well-formed inputs the equal-size search never raises:
    when the batch and time sizes of estimates and targets agree, the
    number of estimates is a multiple of the (non-zero) number of
    mixtures, every batch row holds that many estimates and the callback
    gives one loss per batch row on every candidate mixing, none of the
    internal assertions fires and the search returns after one callback
    call per candidate partition. *)
Theorem best_part_mix_it_succeeds :
  forall bk loss_func est_targets targets t,
    let n_mixtures := shape1 targets in
    let n_est := shape1 est_targets in
    let n_src := n_est / n_mixtures in
    shape0 est_targets = shape0 targets ->
    shape2 est_targets = shape2 targets ->
    n_mixtures <> 0 ->
    n_est mod n_mixtures = 0 ->
    rectangular est_targets ->
    partition_callback_ok bk loss_func est_targets targets
      (combs (range n_est) n_src n_mixtures) = true ->
    exists min_loss ordered,
      best_part_mix_it bk loss_func est_targets targets t
      = (t ++ repeat LossCall (fact n_est / fact n_src ^ n_mixtures),
         Ok (min_loss, ordered)).
Proof.
  intros bk lf est tgt t n_mixtures n_est n_src H0 H2 Hm Hdiv Hrect Hok.
  assert (Hlen : length (combs (range n_est) n_src n_mixtures)
                 = fact n_est / fact n_src ^ n_mixtures).
  { rewrite combs_length by apply range_NoDup.
    rewrite range_length. apply combs_count_exact; assumption. }
  assert (Hpos : fact n_est / fact n_src ^ n_mixtures <> 0).
  { pose proof (combs_count_exact n_est n_mixtures Hm Hdiv) as Hce.
    fold n_src in Hce. rewrite <- Hce.
    assert (He : n_est = n_src * n_mixtures).
    { unfold n_src. pose proof (Nat.div_mod_eq n_est n_mixtures) as E.
      rewrite Hdiv in E. lia. }
    pose proof (combs_count_fact n_src n_mixtures) as Hc.
    rewrite <- He in Hc. pose proof (fact_neq_0 n_est) as Hf.
    intros E. rewrite E in Hc. simpl in Hc. lia. }
  destruct (best_of_partitions_succeeds bk lf est tgt
              (combs (range n_est) n_src n_mixtures)
              (fun partition =>
                 first <- lift (get partition 0) ;;
                 py_assert (length first =? n_src) None ;;
                 py_assert (length partition =? n_mixtures) None) t)
    as (ml & ord & E).
  - intros En. rewrite En in Hlen. simpl in Hlen. lia.
  - intros p Hp t0.
    destruct (combs_shape n_mixtures (range n_est) n_src p (range_NoDup n_est) Hp)
      as (Hl & Hg & _).
    destruct p as [|first rest]; [simpl in Hl; lia|].
    apply Forall_inv in Hg.
    unfold bind, lift, get, py_assert, ret. cbn [nth_error].
    rewrite Hg, Nat.eqb_refl, Hl, Nat.eqb_refl. reflexivity.
  - intros p Hp. apply (mix_succeeds bk est n_est p Hrect).
    intros g i Hg Hi. exact (combs_indices_in_range _ _ _ p g i Hp Hg Hi).
  - exact Hok.
  - exists ml, ord. unfold best_part_mix_it.
    fold n_mixtures n_est.
    unfold bind at 1. unfold py_assert at 1.
    rewrite H0, Nat.eqb_refl.
    unfold bind at 1. unfold py_assert at 1.
    rewrite H2, Nat.eqb_refl.
    unfold bind at 1. unfold py_mod.
    destruct (Nat.eqb_spec n_mixtures 0) as [|_]; [contradiction|].
    rewrite Hdiv. unfold ret. cbn [Nat.eqb negb].
    fold n_src. rewrite <- Hlen. exact E.
Qed.

Lemma best_part_mix_it_succeeds_witness :
  exists min_loss ordered,
    best_part_mix_it exact_backend batch_mse example_estimates4 example_targets []
    = ([] ++ repeat LossCall (fact 4 / fact (4 / 2) ^ 2),
       Ok (min_loss, ordered)).
Proof.
  apply (best_part_mix_it_succeeds exact_backend batch_mse example_estimates4
           example_targets []).
  - reflexivity.
  - reflexivity.
  - cbv. lia.
  - reflexivity.
  - repeat constructor.
  - vm_compute. reflexivity.
Defined.

(** X16. On well-formed inputs the generalized search never raises:
    with two target mixtures, agreeing batch and time sizes, batch rows
    that all hold the same number of estimates and a callback that gives
    one loss per batch row on every candidate mixing, the search returns
    after exactly 2 ^ n_est callback calls. *)
Theorem best_part_mix_it_generalized_succeeds :
  forall bk loss_func est_targets targets t,
    let n_est := shape1 est_targets in
    shape0 est_targets = shape0 targets ->
    shape2 est_targets = shape2 targets ->
    shape1 targets = 2 ->
    rectangular est_targets ->
    partition_callback_ok bk loss_func est_targets targets
      (all_combinations (range n_est)) = true ->
    exists min_loss ordered,
      best_part_mix_it_generalized bk loss_func est_targets targets t
      = (t ++ repeat LossCall (2 ^ n_est), Ok (min_loss, ordered)).
Proof.
  intros bk lf est tgt t n_est H0 H2 Hm Hrect Hok.
  assert (Hlen : length (all_combinations (range n_est)) = 2 ^ n_est).
  { rewrite all_combinations_length, range_length. reflexivity. }
  destruct (best_of_partitions_succeeds bk lf est tgt
              (all_combinations (range n_est))
              (fun partition =>
                 py_assert (length partition =? shape1 tgt) None) t)
    as (ml & ord & E).
  - intros En. rewrite En in Hlen. simpl in Hlen.
    pose proof (Nat.pow_nonzero 2 n_est). lia.
  - intros p Hp t0. apply all_combinations_In in Hp.
    destruct Hp as (first & -> & _).
    unfold py_assert. rewrite Hm. reflexivity.
  - intros p Hp. apply (mix_succeeds bk est n_est p Hrect).
    intros g i Hg Hi.
    exact (all_combinations_indices_in_range _ p g i Hp Hg Hi).
  - exact Hok.
  - exists ml, ord. unfold best_part_mix_it_generalized.
    fold n_est.
    unfold bind at 1. unfold py_assert at 1.
    rewrite H0, Nat.eqb_refl.
    unfold bind at 1. unfold py_assert at 1.
    rewrite H2, Nat.eqb_refl.
    destruct (Nat.eqb_spec (shape1 tgt) 2) as [_|]; [|contradiction].
    cbn [negb]. rewrite <- Hlen. exact E.
Qed.

Lemma best_part_mix_it_generalized_succeeds_witness :
  exists min_loss ordered,
    best_part_mix_it_generalized exact_backend batch_mse [[[1; 0]; [0; 1]; [1; 1]]]%Q
      [[[2; 1]; [0; 1]]]%Q []
    = ([] ++ repeat LossCall (2 ^ 3), Ok (min_loss, ordered)).
Proof.
  apply (best_part_mix_it_generalized_succeeds exact_backend batch_mse
           [[[1; 0]; [0; 1]; [1; 1]]]%Q [[[2; 1]; [0; 1]]]%Q []).
  - reflexivity.
  - reflexivity.
  - reflexivity.
  - repeat constructor.
  - vm_compute. reflexivity.
Defined.

(** ** The whole forward pass on a pairwise loss matrix *)



